(** * Laminar devtools: a shallow embedding of [laminar-devtools.js]

    The development follows the classes of the script: the property
    accessor, the state store with its observers, the overlay and tooltip
    positioning, the keyboard navigator over the rendered tree, and the
    component tree view (hierarchy builder, change detection, resize).

    Numbers of the script that are pixel coordinates are rationals ([Q]);
    arrays are lists; the rendered document is a rose tree below
    [document.body], and an element handle is its path in that tree. *)

From Stdlib Require Import ZArith QArith Qminmax Lia Lqa.
From stdpp Require Import base decidable option list sorting gmap strings pretty.

Set Warnings "-register-all".

(* ====================================================================== *)
(** * The rendered document *)
(* ====================================================================== *)

(** The three properties the upstream tagging step writes on an element.
    [None] is an absent property ([undefined] when read). *)
Record Attrs := mkAttrs {
  scalasourcepath : option string;   (* element.__scalasourcepath *)
  scalafilename   : option string;   (* element.__scalafilename *)
  scalasourceline : option string    (* element.__scalasourceline *)
}.

(** An element of the rendered tree with its child elements in order. *)
Inductive DomNode := Node (attrs : Attrs) (kids : list DomNode).

Definition nodeAttrs (n : DomNode) : Attrs := match n with Node a _ => a end.
Definition nodeKids (n : DomNode) : list DomNode := match n with Node _ ks => ks end.

(** The document is the list of child elements of [document.body].
    An element handle is the path from the element up to the body: the
    head is the element's index among its parent's children, the tail is
    the parent's handle; [[]] is [document.body] itself.  Two handles are
    the same element ([===]) exactly when they are equal. *)
Abbreviation Document := (list DomNode).
Abbreviation Element := (list nat).

Definition body : Element := [].

(** [element.parentElement]; the document element above the body is not
    part of the model, so the body has no parent here. *)
Definition parentElement (e : Element) : option Element :=
  match e with
  | [] => None
  | _ :: up => Some up
  end.

(** [element.children] as nodes, and the node an element handle denotes
    (the body denotes no tagged node). *)
Fixpoint childNodes (doc : Document) (e : Element) : list DomNode :=
  match e with
  | [] => doc
  | i :: up =>
      match childNodes doc up !! i with
      | Some n => nodeKids n
      | None => []
      end
  end.

Definition nodeAt (doc : Document) (e : Element) : option DomNode :=
  match e with
  | [] => None
  | i :: up => childNodes doc up !! i
  end.

Definition attrsOf (doc : Document) (e : Element) : Attrs :=
  match nodeAt doc e with
  | Some n => nodeAttrs n
  | None => mkAttrs None None None
  end.

(** JavaScript truthiness of a string-or-undefined property value. *)
Definition truthy (v : option string) : bool :=
  match v with
  | Some s => negb (String.eqb s EmptyString)
  | None => false
  end.

(* ====================================================================== *)
(** * PropertyAccessor *)
(* ====================================================================== *)

Module PropertyAccessor.

(** [Object.hasOwn(element, '__scalasourcepath')] *)
Definition hasSourcePath (doc : Document) (element : Element) : bool :=
  bool_decide (is_Some (scalasourcepath (attrsOf doc element))).

Definition getSourcePath (doc : Document) (element : Element) : option string :=
  scalasourcepath (attrsOf doc element).

Definition getFilename (doc : Document) (element : Element) : option string :=
  scalafilename (attrsOf doc element).

Definition getSourceLine (doc : Document) (element : Element) : option string :=
  scalasourceline (attrsOf doc element).

Definition hasAllProperties (doc : Document) (element : Element) : bool :=
  truthy (getSourcePath doc element) &&
  truthy (getFilename doc element) &&
  truthy (getSourceLine doc element).

End PropertyAccessor.

(* ====================================================================== *)
(** * TreeWalker and document order *)
(* ====================================================================== *)

Inductive NodeFilter := FILTER_ACCEPT | FILTER_REJECT | FILTER_SKIP.

(** The elements [walker.nextNode()] returns while walking the subtree of
    one element: the element itself when accepted, then its descendants
    in document order; a rejected element hides its whole subtree, a
    skipped one only itself. *)
Fixpoint walkNode (acceptNode : Element -> NodeFilter) (e : Element) (n : DomNode)
  : list Element :=
  match n with
  | Node _ ks =>
      let below :=
        (fix walkKids (i : nat) (l : list DomNode) : list Element :=
           match l with
           | [] => []
           | k :: l' => walkNode acceptNode (i :: e) k ++ walkKids (S i) l'
           end) 0 ks in
      match acceptNode e with
      | FILTER_ACCEPT => e :: below
      | FILTER_SKIP => below
      | FILTER_REJECT => []
      end
  end.

Fixpoint walkKids (acceptNode : Element -> NodeFilter) (e : Element) (i : nat)
  (l : list DomNode) : list Element :=
  match l with
  | [] => []
  | k :: l' => walkNode acceptNode (i :: e) k ++ walkKids acceptNode e (S i) l'
  end.

(** [document.createTreeWalker(root, SHOW_ELEMENT, {acceptNode})] drained
    with [nextNode()]: the root itself is never returned. *)
Definition treeWalk (doc : Document) (root : Element)
  (acceptNode : Element -> NodeFilter) : list Element :=
  walkKids acceptNode root 0 (childNodes doc root).

(** Every element below the body, in document order. *)
Definition documentOrder (doc : Document) : list Element :=
  treeWalk doc body (fun _ => FILTER_ACCEPT).

(** Position of [b] relative to [a], on root-first paths. *)
Inductive Relative := Same | Contains | ContainedBy | Preceding | Following.

Fixpoint relate (p q : list nat) : Relative :=
  match p, q with
  | [], [] => Same
  | [], _ :: _ => ContainedBy        (* q lies inside p *)
  | _ :: _, [] => Contains           (* q contains p *)
  | i :: p', j :: q' =>
      if decide (i = j) then relate p' q'
      else if decide (i < j) then Following else Preceding
  end.

Definition DOCUMENT_POSITION_PRECEDING : Z := 2.
Definition DOCUMENT_POSITION_FOLLOWING : Z := 4.
Definition DOCUMENT_POSITION_CONTAINS : Z := 8.
Definition DOCUMENT_POSITION_CONTAINED_BY : Z := 16.

(** [a.compareDocumentPosition(b)] for two elements of the document. *)
Definition compareDocumentPosition (a b : Element) : Z :=
  match relate (rev a) (rev b) with
  | Same => 0
  | Contains => Z.lor DOCUMENT_POSITION_CONTAINS DOCUMENT_POSITION_PRECEDING
  | ContainedBy => Z.lor DOCUMENT_POSITION_CONTAINED_BY DOCUMENT_POSITION_FOLLOWING
  | Preceding => DOCUMENT_POSITION_PRECEDING
  | Following => DOCUMENT_POSITION_FOLLOWING
  end.

(** [a] is rendered before [b]: [b] follows [a] in document order. *)
Definition docPrecedes (a b : Element) : Prop :=
  Z.land (compareDocumentPosition a b) DOCUMENT_POSITION_FOLLOWING <> 0%Z.

(* ====================================================================== *)
(** * KeyboardNavigator: discovery and traversal *)
(* ====================================================================== *)

Module KeyboardNavigator.
Import PropertyAccessor.

(** The loop shared by [findParentComponent] and the top-level filter:
    from [element] upwards, the first element with a source path, stopping
    at the body. *)
Fixpoint climb (doc : Document) (element : Element) : option Element :=
  match element with
  | [] => None
  | _ :: up => if hasSourcePath doc element then Some element else climb doc up
  end.

Definition findParentComponent (doc : Document) (currentElement : Element)
  : option Element :=
  match parentElement currentElement with
  | None => None
  | Some element => climb doc element
  end.

(** The inner loop of [findChildComponents]: from [ancestor] upwards until
    [currentElement] (or the top) is reached, no element carries a source
    path. *)
Fixpoint noComponentUntil (doc : Document) (currentElement ancestor : Element) : bool :=
  if decide (ancestor = currentElement) then true
  else if hasSourcePath doc ancestor then false
  else match ancestor with
       | [] => true
       | _ :: up => noComponentUntil doc currentElement up
       end.

Definition isDirectChild (doc : Document) (currentElement elementNode : Element) : bool :=
  match parentElement elementNode with
  | None => true
  | Some ancestor => noComponentUntil doc currentElement ancestor
  end.

Definition acceptChild (doc : Document) (currentElement node : Element) : NodeFilter :=
  if decide (node = currentElement) then FILTER_SKIP
  else if hasSourcePath doc node then FILTER_ACCEPT
  else FILTER_SKIP.

Definition findChildComponents (doc : Document) (currentElement : Element)
  : list Element :=
  filter (fun elementNode => isDirectChild doc currentElement elementNode = true)
         (treeWalk doc currentElement (acceptChild doc currentElement)).

Definition acceptTopLevel (doc : Document) (node : Element) : NodeFilter :=
  if hasSourcePath doc node then
    match findParentComponent doc node with
    | Some _ => FILTER_REJECT
    | None => FILTER_ACCEPT
    end
  else FILTER_SKIP.

Definition findTopLevelComponents (doc : Document) : list Element :=
  treeWalk doc body (acceptTopLevel doc).

Definition getAllSiblingsIncludingCurrent (doc : Document) (currentElement : Element)
  : list Element :=
  match findParentComponent doc currentElement with
  | None => findTopLevelComponents doc
  | Some parent => findChildComponents doc parent
  end.

(** Nesting depth of the rendered tree: the recursion of
    [traverseDepthFirst] descends one level of the tree per call at
    least, so this many nested calls are never exceeded. *)
Fixpoint nodeHeight (n : DomNode) : nat :=
  match n with
  | Node _ ks => S (foldr (fun k h => Nat.max (nodeHeight k) h) 0 ks)
  end.

Definition forestHeight (ks : list DomNode) : nat :=
  foldr (fun k h => Nat.max (nodeHeight k) h) 0 ks.

(** [traverseDepthFirst] of [getAllComponentsInOrder]; [depth] bounds the
    nesting of the recursive calls. *)
Fixpoint traverseDepthFirst (doc : Document) (depth : nat) (element : Element)
  : list Element :=
  match depth with
  | 0 => []
  | S depth' =>
      (if hasSourcePath doc element then [element] else []) ++
      flat_map (traverseDepthFirst doc depth') (findChildComponents doc element)
  end.

Definition getAllComponentsInOrder (doc : Document) : list Element :=
  flat_map (traverseDepthFirst doc (forestHeight doc)) (findTopLevelComponents doc).

Definition findDeepestComponent (doc : Document) : option Element :=
  last (getAllComponentsInOrder doc).

Definition findFirstComponent (doc : Document) : option Element :=
  head (getAllComponentsInOrder doc).

(** [siblings.indexOf(currentElement)]: the first index, or -1. *)
Fixpoint indexOf (siblings : list Element) (currentElement : Element) : Z :=
  match siblings with
  | [] => -1
  | s :: rest =>
      if decide (s = currentElement) then 0
      else let r := indexOf rest currentElement in
           if (r <? 0)%Z then -1 else r + 1
  end%Z.

(** [siblings[k]] for an integer [k]: [undefined] out of range. *)
Definition at_index (siblings : list Element) (k : Z) : option Element :=
  if (k <? 0)%Z then None else siblings !! Z.to_nat k.

Definition getNextSibling (currentElement : Element) (siblings : list Element)
  : option Element :=
  if decide (length siblings = 0) then None
  else
    let currentIndex := indexOf siblings currentElement in
    if decide (currentIndex = -1)%Z then at_index siblings 0
    else at_index siblings (Z.rem (currentIndex + 1) (Z.of_nat (length siblings))).

Definition getPreviousSibling (currentElement : Element) (siblings : list Element)
  : option Element :=
  if decide (length siblings = 0) then None
  else
    let currentIndex := indexOf siblings currentElement in
    if decide (currentIndex = -1)%Z
    then at_index siblings (Z.of_nat (length siblings) - 1)
    else at_index siblings
           (Z.rem (currentIndex - 1 + Z.of_nat (length siblings))
                  (Z.of_nat (length siblings))).

Definition navigateToParent (doc : Document) (currentElement : Element)
  : option Element :=
  match findParentComponent doc currentElement with
  | Some parent => Some parent
  | None => findDeepestComponent doc
  end.

Definition navigateToFirstChild (doc : Document) (currentElement : Element)
  : option Element :=
  let children := findChildComponents doc currentElement in
  if decide (0 < length children) then children !! 0
  else findFirstComponent doc.

Definition navigateToNextSibling (doc : Document) (currentElement : Element)
  : option Element :=
  getNextSibling currentElement (getAllSiblingsIncludingCurrent doc currentElement).

Definition navigateToPreviousSibling (doc : Document) (currentElement : Element)
  : option Element :=
  getPreviousSibling currentElement (getAllSiblingsIncludingCurrent doc currentElement).

End KeyboardNavigator.

(* ====================================================================== *)
(** * DevtoolsState: the observable state store *)
(* ====================================================================== *)

Record MousePosition := mkMousePosition { clientX : Q; clientY : Q }.

(** The fields of [DevtoolsState] other than the observer set;
    [cursor] is [document.body.style.cursor], which the store writes. *)
Record State := mkState {
  altPressed : bool;
  shiftPressed : bool;
  currentTargetElement : option Element;
  lastTargetElement : option Element;
  currentMousePosition : MousePosition;
  hierarchicalTooltipVisible : bool;
  hierarchicalTooltipTimeout : option nat;
  hierarchicalTooltipToggled : bool;
  keyboardNavigationActive : bool;
  keyboardSelectedElement : option Element;
  treeSelectedElement : option Element;
  treeSelectionActive : bool;
  cursor : string
}.

Definition initialState : State :=
  mkState false false None None (mkMousePosition 0 0) false None false
          false None None false EmptyString.

Definition set_altPressed (v : bool) (s : State) : State :=
  let '(mkState _ b c d e f g h i j k l m) := s in mkState v b c d e f g h i j k l m.
Definition set_shiftPressed (v : bool) (s : State) : State :=
  let '(mkState a _ c d e f g h i j k l m) := s in mkState a v c d e f g h i j k l m.
Definition set_currentTargetElement (v : option Element) (s : State) : State :=
  let '(mkState a b _ d e f g h i j k l m) := s in mkState a b v d e f g h i j k l m.
Definition set_currentMousePosition (v : MousePosition) (s : State) : State :=
  let '(mkState a b c d _ f g h i j k l m) := s in mkState a b c d v f g h i j k l m.
Definition set_hierarchicalTooltipVisible (v : bool) (s : State) : State :=
  let '(mkState a b c d e _ g h i j k l m) := s in mkState a b c d e v g h i j k l m.
Definition set_keyboardNavigationActive (v : bool) (s : State) : State :=
  let '(mkState a b c d e f g h _ j k l m) := s in mkState a b c d e f g h v j k l m.
Definition set_keyboardSelectedElement (v : option Element) (s : State) : State :=
  let '(mkState a b c d e f g h i _ k l m) := s in mkState a b c d e f g h i v k l m.
Definition set_treeSelectedElement (v : option Element) (s : State) : State :=
  let '(mkState a b c d e f g h i j _ l m) := s in mkState a b c d e f g h i j v l m.
Definition set_treeSelectionActive (v : bool) (s : State) : State :=
  let '(mkState a b c d e f g h i j k _ m) := s in mkState a b c d e f g h i j k v m.
Definition set_cursor (v : string) (s : State) : State :=
  let '(mkState a b c d e f g h i j k l _) := s in mkState a b c d e f g h i j k l v.

(** The [(type, data)] pair an observer is called with. *)
Inductive Change :=
  | reset
  | treeSelectionActiveChanged (active : bool)
  | treeSelectionChanged (element : option Element)
  | keyboardSelectionChanged (element previousElement : option Element)
  | mousePositionChanged (clientX clientY : Q)
  | altKeyChanged (pressed : bool)
  | shiftKeyChanged (pressed : bool)
  | targetElementChanged (element previousElement : option Element)
  | hierarchicalTooltipVisibilityChanged (visible : bool).

(** How a JavaScript statement completes. *)
Inductive Completion (E : Type) := Normal | Throw (error : E).
Arguments Normal {E}.
Arguments Throw {E} error.

Module DevtoolsState.

Section Store.

(** [X] is the state of the components that observe the store, [Err] the
    values a callback may throw.  A callback sees and may change the store's
    fields and the components; it returns the error it threw, if any.  The
    observer set itself is not reachable from a callback in this model:
    no callback subscribes or unsubscribes during a notification. *)
Context {X Err : Type}.

Definition World : Type := State * X.

Record Observer := mkObserver {
  observerId : nat;
  callback : Change -> World -> World * option Err
}.

(** The store with what surrounds it.  [notified] and [delivered] are
    ghost traces: the calls of [notify], and the observer invocations. *)
Record Sys := mkSys {
  world : World;
  observers : list Observer;
  console : list Err;
  notified : list Change;
  delivered : list (nat * Change)
}.

Definition state (s : Sys) : State := fst (world s).

Definition updState (f : State -> State) (s : Sys) : Sys :=
  mkSys (f (fst (world s)), snd (world s)) (observers s) (console s)
        (notified s) (delivered s).

(** [observers.add(callback)] and the returned unsubscribe function *)
Definition subscribe (o : Observer) (s : Sys) : Sys :=
  if bool_decide (observerId o ∈ map observerId (observers s)) then s
  else mkSys (world s) (observers s ++ [o]) (console s) (notified s) (delivered s).

Definition unsubscribe (o : Observer) (s : Sys) : Sys :=
  mkSys (world s)
        (filter (fun o' => observerId o' <> observerId o) (observers s))
        (console s) (notified s) (delivered s).

(** [try { body } catch (error) { handler(error) }] *)
Definition tryCatch (body : Sys -> Sys * Completion Err)
  (handler : Err -> Sys -> Sys * Completion Err) (s : Sys) : Sys * Completion Err :=
  match body s with
  | (s', Normal) => (s', Normal)
  | (s', Throw error) => handler error s'
  end.

(** [collection.forEach(f)]: an exception leaving [f] ends the loop. *)
Fixpoint forEach {A} (f : A -> Sys -> Sys * Completion Err) (l : list A) (s : Sys)
  : Sys * Completion Err :=
  match l with
  | [] => (s, Normal)
  | a :: l' =>
      match f a s with
      | (s', Normal) => forEach f l' s'
      | (s', Throw error) => (s', Throw error)
      end
  end.

Definition console_error (error : Err) (s : Sys) : Sys * Completion Err :=
  (mkSys (world s) (observers s) (console s ++ [error]) (notified s) (delivered s),
   Normal).

(** [callback(type, data)] *)
Definition invoke (c : Change) (o : Observer) (s : Sys) : Sys * Completion Err :=
  let '(w', thrown) := callback o c (world s) in
  (mkSys w' (observers s) (console s) (notified s)
         (delivered s ++ [(observerId o, c)]),
   match thrown with
   | Some error => Throw error
   | None => Normal
   end).

Definition notify (c : Change) (s : Sys) : Sys * Completion Err :=
  let s0 := mkSys (world s) (observers s) (console s) (notified s ++ [c])
                  (delivered s) in
  forEach (fun o => tryCatch (invoke c o) console_error) (observers s0) s0.

(** Sequencing of statements. *)
Definition andThen (first next : Sys -> Sys * Completion Err) (s : Sys)
  : Sys * Completion Err :=
  match first s with
  | (s', Normal) => next s'
  | (s', Throw error) => (s', Throw error)
  end.

Definition skip (s : Sys) : Sys * Completion Err := (s, Normal).

Definition resetCursor (s : Sys) : Sys := updState (set_cursor EmptyString) s.

Definition resetState (s : Sys) : Sys * Completion Err :=
  let s1 :=
    updState (fun st =>
      mkState false false None None (mkMousePosition 0 0) false None false
              false None None false EmptyString) s in
  notify reset (resetCursor s1).

Definition setKeyboardNavigationActive (active : bool) (s : Sys)
  : Sys * Completion Err :=
  let s1 := updState (set_keyboardNavigationActive active) s in
  if negb active then skip (updState (set_keyboardSelectedElement None) s1)
  else skip s1.

Definition setTreeSelectionActive (active : bool) (s : Sys) : Sys * Completion Err :=
  if bool_decide (treeSelectionActive (state s) <> active) then
    notify (treeSelectionActiveChanged active)
           (updState (set_treeSelectionActive active) s)
  else skip s.

Definition setTreeSelectedElement (element : option Element) (s : Sys)
  : Sys * Completion Err :=
  if bool_decide (treeSelectedElement (state s) <> element) then
    notify (treeSelectionChanged element)
           (updState (set_treeSelectedElement element) s)
  else skip s.

Definition setKeyboardSelectedElement (element : option Element) (s : Sys)
  : Sys * Completion Err :=
  let previousElement := keyboardSelectedElement (state s) in
  let s1 := updState (set_keyboardSelectedElement element) s in
  let s2 := if bool_decide (is_Some element)
            then updState (set_keyboardNavigationActive true) s1 else s1 in
  if bool_decide (previousElement <> element) then
    notify (keyboardSelectionChanged element previousElement) s2
  else skip s2.

Definition updateMousePosition (x y : Q) (s : Sys) : Sys * Completion Err :=
  notify (mousePositionChanged x y)
         (updState (set_currentMousePosition (mkMousePosition x y)) s).

Definition setAltPressed (pressed : bool) (s : Sys) : Sys * Completion Err :=
  let wasPressed := altPressed (state s) in
  let s1 := updState (set_altPressed pressed) s in
  let s2 := updState (set_cursor (if pressed then "crosshair"%string
                                  else EmptyString)) s1 in
  if bool_decide (wasPressed <> pressed) then notify (altKeyChanged pressed) s2
  else skip s2.

Definition setShiftPressed (pressed : bool) (s : Sys) : Sys * Completion Err :=
  let wasPressed := shiftPressed (state s) in
  let s1 := updState (set_shiftPressed pressed) s in
  if bool_decide (wasPressed <> pressed) then notify (shiftKeyChanged pressed) s1
  else skip s1.

Definition setCurrentTargetElement (element : option Element) (s : Sys)
  : Sys * Completion Err :=
  let previousElement := currentTargetElement (state s) in
  let s1 := updState (set_currentTargetElement element) s in
  if bool_decide (previousElement <> element) then
    notify (targetElementChanged element previousElement) s1
  else skip s1.

Definition setHierarchicalTooltipVisible (visible : bool) (s : Sys)
  : Sys * Completion Err :=
  let wasVisible := hierarchicalTooltipVisible (state s) in
  let s1 := updState (set_hierarchicalTooltipVisible visible) s in
  if bool_decide (wasVisible <> visible) then
    notify (hierarchicalTooltipVisibilityChanged visible) s1
  else skip s1.

End Store.

Arguments Observer : clear implicits.
Arguments Sys : clear implicits.
Arguments World : clear implicits.

End DevtoolsState.

(* ====================================================================== *)
(** * Layout, viewport and style values read from the browser *)
(* ====================================================================== *)

(** [element.getBoundingClientRect()] *)
Record DOMRect := mkDOMRect {
  rect_left : Q;
  rect_top : Q;
  rect_width : Q;
  rect_height : Q
}.

Definition rect_right (r : DOMRect) : Q := (rect_left r + rect_width r)%Q.
Definition rect_bottom (r : DOMRect) : Q := (rect_top r + rect_height r)%Q.

(** What the positioning code reads from its surroundings: the window
    size, the layout of the rendered elements, and the two custom
    properties as [parseInt] returns them ([None] is [NaN]). *)
Record Browser := mkBrowser {
  innerWidth : Q;
  innerHeight : Q;
  getBoundingClientRect : Element -> DOMRect;
  cssElementOffset : option Z;     (* parseInt(getCSSProperty('element-offset')) *)
  cssTooltipMargin : option Z      (* parseInt(getCSSProperty('tooltip-margin')) *)
}.

(** [parsed || fallback]: [NaN] and [0] are falsy. *)
Definition orElse (parsed : option Z) (fallback : Z) : Z :=
  match parsed with
  | Some n => if (n =? 0)%Z then fallback else n
  | None => fallback
  end.

Record Position := mkPosition {
  pos_left : Q;
  pos_top : Q;
  pos_width : Q;
  pos_height : Q
}.

Record TooltipPosition := mkTooltipPosition { tip_left : Q; tip_top : Q }.

Record OverlayRect := mkOverlayRect {
  or_left : Q;
  or_top : Q;
  or_right : Q;
  or_bottom : Q;
  or_width : Q;
  or_height : Q
}.

(* ====================================================================== *)
(** * OverlayManager *)
(* ====================================================================== *)

Inductive VisualState := vsNormal | vsHover | vsActive.

Module OverlayManager.
Import PropertyAccessor.
Local Open Scope Q_scope.

(** The overlay: whether its [div] exists, whether it is visible, the
    element it was last positioned on, and the style applied. *)
Record Overlay := mkOverlay {
  created : bool;
  isVisible : bool;
  target : option Element;
  position : option Position;
  visualState : VisualState
}.

Definition initialOverlay : Overlay := mkOverlay false false None None vsNormal.

(** The element the overlay highlights on screen, if any. *)
Definition highlight (ov : Overlay) : option Element :=
  if isVisible ov then target ov else None.

Definition calculatePosition (b : Browser) (targetRect : DOMRect) : Position :=
  let offset := inject_Z (orElse (cssElementOffset b) 6) in
  let viewportWidth := innerWidth b in
  let viewportHeight := innerHeight b in
  let left := rect_left targetRect - offset in
  let top := rect_top targetRect - offset in
  let width := rect_width targetRect + offset * 2 in
  let height := rect_height targetRect + offset * 2 in
  let adjustedLeft := Qmax 0 (Qmin left (viewportWidth - width)) in
  let adjustedTop := Qmax 0 (Qmin top (viewportHeight - height)) in
  let adjustedWidth := Qmin width (viewportWidth - adjustedLeft) in
  let adjustedHeight := Qmin height (viewportHeight - adjustedTop) in
  mkPosition adjustedLeft adjustedTop adjustedWidth adjustedHeight.

Definition hide (ov : Overlay) : Overlay :=
  if negb (created ov) || negb (isVisible ov) then ov
  else mkOverlay (created ov) false (target ov) (position ov) (visualState ov).

Definition show (b : Browser) (doc : Document) (st : State)
  (targetElement : Element) (ov : Overlay) : Overlay :=
  if negb (hasAllProperties doc targetElement) then hide ov
  else
    let position := calculatePosition b (getBoundingClientRect b targetElement) in
    let visualState :=
      if treeSelectionActive st
         && bool_decide (treeSelectedElement st = Some targetElement) then vsActive
      else if keyboardNavigationActive st
         && bool_decide (keyboardSelectedElement st = Some targetElement) then vsActive
      else if bool_decide (currentTargetElement st = Some targetElement) then vsHover
      else vsNormal in
    mkOverlay true true (Some targetElement) (Some position) visualState.

Definition handleStateChange (b : Browser) (doc : Document) (st : State)
  (type : Change) (ov : Overlay) : Overlay :=
  match type with
  | reset => hide ov
  | targetElementChanged element _ =>
      match element with
      | Some el =>
          if negb (treeSelectionActive st)
             || bool_decide (treeSelectedElement st = Some el)
          then show b doc st el ov
          else if negb (treeSelectionActive st) then hide ov
          else ov
      | None => if negb (treeSelectionActive st) then hide ov else ov
      end
  | treeSelectionChanged element =>
      match element with
      | Some el => show b doc st el ov
      | None => hide ov
      end
  | treeSelectionActiveChanged active =>
      if negb active && negb (bool_decide (is_Some (currentTargetElement st)))
      then hide ov
      else ov
  | _ => ov
  end.

(** The callback the constructor subscribes. *)
Definition observer {Err : Type} (b : Browser) (doc : Document)
  : DevtoolsState.Observer Overlay Err :=
  DevtoolsState.mkObserver 0
    (fun type w => ((fst w, handleStateChange b doc (fst w) type (snd w)), None)).

End OverlayManager.

(* ====================================================================== *)
(** * TooltipManager: placement of the main tooltip *)
(* ====================================================================== *)

Module TooltipManager.
Local Open Scope Q_scope.

Definition isPositionWithinViewport (b : Browser) (position : TooltipPosition)
  (width height margin : Q) : bool :=
  let viewportWidth := innerWidth b in
  let viewportHeight := innerHeight b in
  Qle_bool margin (tip_left position) &&
  Qle_bool margin (tip_top position) &&
  Qle_bool (tip_left position + width) (viewportWidth - margin) &&
  Qle_bool (tip_top position + height) (viewportHeight - margin).

Definition calculateTooltipPosition (b : Browser) (overlayRect : OverlayRect)
  (tooltipWidth tooltipHeight : Q) : TooltipPosition :=
  let viewportWidth := innerWidth b in
  let viewportHeight := innerHeight b in
  let margin := inject_Z (orElse (cssTooltipMargin b) 10) in
  let strategies :=
    [ (* bottom center *)
      mkTooltipPosition
        (or_left overlayRect + or_width overlayRect / 2 - tooltipWidth / 2)
        (or_bottom overlayRect + margin);
      (* top center *)
      mkTooltipPosition
        (or_left overlayRect + or_width overlayRect / 2 - tooltipWidth / 2)
        (or_top overlayRect - tooltipHeight - margin);
      (* right center *)
      mkTooltipPosition
        (or_right overlayRect + margin)
        (or_top overlayRect + or_height overlayRect / 2 - tooltipHeight / 2);
      (* left center *)
      mkTooltipPosition
        (or_left overlayRect - tooltipWidth - margin)
        (or_top overlayRect + or_height overlayRect / 2 - tooltipHeight / 2) ] in
  match List.find (fun position =>
           isPositionWithinViewport b position tooltipWidth tooltipHeight margin)
         strategies with
  | Some position => position
  | None =>
      mkTooltipPosition
        (Qmax margin (Qmin
           (or_left overlayRect + or_width overlayRect / 2 - tooltipWidth / 2)
           (viewportWidth - tooltipWidth - margin)))
        (Qmax margin (Qmin
           (or_bottom overlayRect + margin)
           (viewportHeight - tooltipHeight - margin)))
  end.

(** The overlay rectangle [positionMainTooltip] builds around the target. *)
Definition overlayRectOf (b : Browser) (targetRect : DOMRect) : OverlayRect :=
  let offset := inject_Z (orElse (cssElementOffset b) 6) in
  mkOverlayRect (rect_left targetRect - offset) (rect_top targetRect - offset)
                (rect_right targetRect + offset) (rect_bottom targetRect + offset)
                (rect_width targetRect + offset * 2)
                (rect_height targetRect + offset * 2).

End TooltipManager.

(* ====================================================================== *)
(** * DevtoolsSystem: component discovery *)
(* ====================================================================== *)

Record ComponentInfo := mkComponentInfo {
  element : Element;
  filename : string;
  line : string;
  path : string
}.

Module DevtoolsSystem.
Import PropertyAccessor.

Definition getAllComponents (doc : Document) : list ComponentInfo :=
  let infos :=
    map (fun element =>
           (element, getFilename doc element, getSourceLine doc element,
            getSourcePath doc element))
        (KeyboardNavigator.getAllComponentsInOrder doc) in
  let kept :=
    filter (fun info : Element * option string * option string * option string =>
              let '(_, filename, line, path) := info in
              truthy filename && truthy line && truthy path = true) infos in
  map (fun info : Element * option string * option string * option string =>
         let '(element, filename, line, path) := info in
         mkComponentInfo element (default EmptyString filename)
                         (default EmptyString line) (default EmptyString path))
      kept.


End DevtoolsSystem.

(* ====================================================================== *)
(** * ComponentTreeView: hierarchy builder, change detection, resize *)
(* ====================================================================== *)

(** A tree node.  Nodes are shared mutable objects: they live in a store
    (a list indexed by node reference) and [children] / [parent] hold
    references. *)
Record TreeNode := mkTreeNode {
  id : string;
  node_element : Element;
  node_filename : string;
  node_line : string;
  node_path : string;
  children : list nat;
  parent : option nat;
  expanded : bool;
  level : nat
}.

Definition set_children (v : list nat) (n : TreeNode) : TreeNode :=
  mkTreeNode (id n) (node_element n) (node_filename n) (node_line n) (node_path n)
             v (parent n) (expanded n) (level n).

Definition set_parent_level (p : nat) (l : nat) (n : TreeNode) : TreeNode :=
  mkTreeNode (id n) (node_element n) (node_filename n) (node_line n) (node_path n)
             (children n) (Some p) (expanded n) l.

(** The value [buildHierarchy] returns: the root array, with the store of
    the nodes it refers to. *)
Record Tree := mkTree {
  nodes : list TreeNode;
  rootNodes : list nat
}.

(** [array.sort(compare)] for a consistent comparator: the stable sorted
    arrangement, computed here by insertion. *)
Fixpoint sortInsert {A} (compare : A -> A -> Z) (x : A) (l : list A) : list A :=
  match l with
  | [] => [x]
  | y :: l' =>
      if (0 <? compare x y)%Z then y :: sortInsert compare x l'
      else x :: y :: l'
  end.

Fixpoint sort {A} (compare : A -> A -> Z) (l : list A) : list A :=
  match l with
  | [] => []
  | x :: l' => sortInsert compare x (sort compare l')
  end.

(** [direction.includes(word)] *)
Fixpoint includes (s word : string) : bool :=
  if String.prefix word s then true
  else match s with
       | EmptyString => false
       | String _ s' => includes s' word
       end.

(** [array.join(separator)] *)
Fixpoint join (separator : string) (l : list string) : string :=
  match l with
  | [] => EmptyString
  | [s] => s
  | s :: rest => s +:+ separator +:+ join separator rest
  end.

Record ResizeState := mkResizeState {
  startX : Q;
  startY : Q;
  startWidth : Q;
  startHeight : Q;
  startLeft : Q;
  startTop : Q;
  direction : string
}.

(** [panelElement.style]: the four lengths the resize handler writes. *)
Record PanelStyle := mkPanelStyle {
  style_width : Q;
  style_height : Q;
  style_left : Q;
  style_top : Q
}.

Module ComponentTreeView.

Definition generateComponentsHash (components : list ComponentInfo) : string :=
  join "|" (map (fun comp => filename comp +:+ ":" +:+ line comp +:+ ":" +:+ path comp)
                components).

(** First loop of [buildHierarchy]: one node per component, entered in
    [nodeMap] under its element (a later entry replaces an earlier one). *)
Definition createNodes (components : list ComponentInfo) : list TreeNode :=
  imap (fun index comp =>
          mkTreeNode ("node-" +:+ pretty index) (element comp) (filename comp)
                     (line comp) (path comp) [] None false 0)
       components.

Definition createNodeMap (components : list ComponentInfo) : gmap Element nat :=
  foldl (fun (nodeMap : gmap Element nat) (entry : nat * ComponentInfo) =>
           <[element (snd entry) := fst entry]> nodeMap)
        ∅ (imap (fun index comp => (index, comp)) components).

Definition findParentComponent (doc : Document) (element : Element) : option Element :=
  KeyboardNavigator.findParentComponent doc element.

Definition levelOf (store : list TreeNode) (node : nat) : nat :=
  match store !! node with
  | Some n => level n
  | None => 0
  end.

(** Body of the second loop of [buildHierarchy]. *)
Definition linkNode (doc : Document) (nodeMap : gmap Element nat)
  (acc : Tree) (comp : ComponentInfo) : Tree :=
  match nodeMap !! element comp with
  | None => acc   (* every component was entered in the map by the first loop *)
  | Some node =>
      match findParentComponent doc (element comp) ≫= (fun parentElement =>
              nodeMap !! parentElement) with
      | Some parentNode =>
          let store1 :=
            alter (set_parent_level parentNode (levelOf (nodes acc) parentNode + 1))
                  node (nodes acc) in
          let store2 :=
            alter (fun p => set_children (children p ++ [node]) p) parentNode store1 in
          mkTree store2 (rootNodes acc)
      | None => mkTree (nodes acc) (rootNodes acc ++ [node])
      end
  end.

Definition elementOf (store : list TreeNode) (node : nat) : Element :=
  match store !! node with
  | Some n => node_element n
  | None => []
  end.

(** The comparator of [sortNodesByDOMOrder]. *)
Definition byDOMOrder (store : list TreeNode) (a b : nat) : Z :=
  let position := compareDocumentPosition (elementOf store a) (elementOf store b) in
  if negb (Z.land position DOCUMENT_POSITION_FOLLOWING =? 0)%Z then (-1)%Z
  else if negb (Z.land position DOCUMENT_POSITION_PRECEDING =? 0)%Z then 1%Z
  else 0%Z.

(** [sortNodesByDOMOrder(nodes)]: sorts the array in place, then the
    children array of each of its nodes.  [depth] bounds the nesting of
    the recursive calls; the sorted array is returned with the store. *)
Fixpoint sortNodesByDOMOrder (depth : nat) (store : list TreeNode) (array : list nat)
  : list TreeNode * list nat :=
  match depth with
  | 0 => (store, array)
  | S depth' =>
      let sorted := sort (byDOMOrder store) array in
      (foldl (fun (store : list TreeNode) (node : nat) =>
                match store !! node with
                | Some n =>
                    if decide (0 < length (children n)) then
                      let '(store', sortedChildren) :=
                        sortNodesByDOMOrder depth' store (children n) in
                      alter (set_children sortedChildren) node store'
                    else store
                | None => store
                end)
             store sorted,
       sorted)
  end.

Definition buildHierarchy (doc : Document) (components : list ComponentInfo) : Tree :=
  let nodeMap := createNodeMap components in
  let linked :=
    foldl (linkNode doc nodeMap) (mkTree (createNodes components) []) components in
  let '(store, rootNodes) :=
    sortNodesByDOMOrder (S (length (nodes linked))) (nodes linked) (rootNodes linked) in
  mkTree store rootNodes.

(** The fields of the view that tree building and selection touch. *)
Record View := mkView {
  treeData : option Tree;
  expandedNodes : gset string;
  selectedNodeId : option string;
  renderCache : gmap string string;
  lastComponentsHash : option string
}.

Definition initialView : View := mkView None ∅ None ∅ None.

Definition buildTreeData (doc : Document) (v : View) : View :=
  let components := DevtoolsSystem.getAllComponents doc in
  let currentHash := generateComponentsHash components in
  if bool_decide (lastComponentsHash v = Some currentHash)
     && bool_decide (is_Some (treeData v))
  then v
  else mkView (Some (buildHierarchy doc components)) (expandedNodes v)
              (selectedNodeId v) ∅ (Some currentHash).

Local Open Scope Q_scope.

(** [handleResize(event)]: the new panel style for a pointer at
    [(eventX, eventY)]; nothing changes without a panel or a gesture. *)
Definition handleResize (b : Browser) (resizeState : option ResizeState)
  (eventX eventY : Q) (panel : option PanelStyle) : option PanelStyle :=
  match panel, resizeState with
  | Some _, Some rs =>
      let deltaX := eventX - startX rs in
      let deltaY := eventY - startY rs in
      let direction := direction rs in
      let newWidth :=
        if includes direction "right" then startWidth rs + deltaX
        else if includes direction "left" then startWidth rs - deltaX
        else startWidth rs in
      let newLeft :=
        if includes direction "right" then startLeft rs
        else if includes direction "left" then startLeft rs + deltaX
        else startLeft rs in
      let newHeight :=
        if includes direction "bottom" then startHeight rs + deltaY
        else if includes direction "top" then startHeight rs - deltaY
        else startHeight rs in
      let newTop :=
        if includes direction "bottom" then startTop rs
        else if includes direction "top" then startTop rs + deltaY
        else startTop rs in
      let minWidth := 300 in
      let minHeight := 400 in
      let maxWidth := innerWidth b in
      let maxHeight := innerHeight b in
      let newWidth := Qmax minWidth (Qmin newWidth maxWidth) in
      let newHeight := Qmax minHeight (Qmin newHeight maxHeight) in
      let newLeft :=
        if includes direction "left" && Qeq_bool newWidth minWidth
        then startLeft rs + startWidth rs - minWidth else newLeft in
      let newTop :=
        if includes direction "top" && Qeq_bool newHeight minHeight
        then startTop rs + startHeight rs - minHeight else newTop in
      let newLeft := Qmax 0 (Qmin newLeft (innerWidth b - newWidth)) in
      let newTop := Qmax 0 (Qmin newTop (innerHeight b - newHeight)) in
      Some (mkPanelStyle newWidth newHeight newLeft newTop)
  | _, _ => panel
  end.

End ComponentTreeView.

(* ====================================================================== *)
(** * Document order on element handles *)
(* ====================================================================== *)

Section DocumentOrder.

Lemma relate_refl p : relate p p = Same.
Proof. induction p as [|i p IH]; simpl; [done|]. by rewrite decide_True. Qed.

Lemma relate_Same p q : relate p q = Same -> p = q.
Proof.
  revert q; induction p as [|i p IH]; intros [|j q]; simpl; try done.
  repeat case_decide; try done. intros Heq. f_equal; auto.
Qed.

Lemma relate_inside p q : q <> [] -> relate p (p ++ q) = ContainedBy.
Proof.
  intros Hq. induction p as [|i p IH]; simpl.
  - by destruct q.
  - by rewrite decide_True.
Qed.

Lemma relate_later p i j x y : i < j -> relate (p ++ i :: x) (p ++ j :: y) = Following.
Proof.
  intros Hij. induction p as [|k p IH]; simpl.
  - rewrite decide_False by lia. by rewrite decide_True.
  - by rewrite decide_True.
Qed.

Definition converse (r : Relative) : Relative :=
  match r with
  | Same => Same
  | Contains => ContainedBy
  | ContainedBy => Contains
  | Preceding => Following
  | Following => Preceding
  end.

Lemma relate_converse p q : relate q p = converse (relate p q).
Proof.
  revert q; induction p as [|i p IH]; intros [|j q]; simpl; try done.
  repeat case_decide; subst; simpl; try done; try lia; apply IH.
Qed.

Lemma docPrecedes_relate a b :
  docPrecedes a b <->
  relate (rev a) (rev b) = ContainedBy \/ relate (rev a) (rev b) = Following.
Proof.
  unfold docPrecedes, compareDocumentPosition.
  destruct (relate (rev a) (rev b)); cbv; intuition congruence.
Qed.

Lemma docPrecedes_descendant a l : l <> [] -> docPrecedes a (l ++ a).
Proof.
  intros Hl. apply docPrecedes_relate. left.
  rewrite rev_app_distr. apply relate_inside.
  intros Hr. apply Hl. apply (f_equal (@rev nat)) in Hr.
  by rewrite rev_involutive in Hr.
Qed.

Lemma docPrecedes_sibling c i j la lb :
  i < j -> docPrecedes (la ++ i :: c) (lb ++ j :: c).
Proof.
  intros Hij. apply docPrecedes_relate. right.
  rewrite !rev_app_distr. simpl. rewrite <- !app_assoc. simpl.
  by apply relate_later.
Qed.

Lemma docPrecedes_asym a b : docPrecedes a b -> ~ docPrecedes b a.
Proof.
  rewrite !docPrecedes_relate. rewrite (relate_converse (rev a) (rev b)).
  intros [H|H]; rewrite H; simpl; intros [?|?]; done.
Qed.

Lemma docPrecedes_irrefl a : ~ docPrecedes a a.
Proof. intros H. by apply (docPrecedes_asym a a). Qed.

(** In a list sorted by document order, an element rendered before
    another one also stands before it. *)
Lemma sorted_lookup_lt (l : list Element) i j a b :
  StronglySorted docPrecedes l ->
  l !! i = Some a -> l !! j = Some b -> docPrecedes a b -> i < j.
Proof.
  intros Hs Hi Hj Hab.
  destruct (decide (i < j)) as [|Hge]; [done|exfalso].
  destruct (decide (i = j)) as [->|Hne].
  - rewrite Hi in Hj. injection Hj as ->. by apply (docPrecedes_irrefl b).
  - assert (Hji : j < i) by lia.
    revert i j Hi Hj Hge Hne Hji. induction Hs as [|x l Hs IH Hall]; intros i j Hi Hj ? ? ?.
    + done.
    + destruct j as [|j]; destruct i as [|i]; simpl in *; try lia.
      * injection Hj as ->. rewrite Forall_forall in Hall.
        apply (docPrecedes_asym b a); [|done].
        apply Hall. by eapply list_elem_of_lookup_2.
      * apply (IH i j); auto; lia.
Qed.

Lemma sorted_lookup_precedes (l : list Element) i j a b :
  StronglySorted docPrecedes l ->
  l !! i = Some a -> l !! j = Some b -> i < j -> docPrecedes a b.
Proof.
  intros Hs. revert i j. induction Hs as [|x l Hs IH Hall]; intros i j Hi Hj Hij.
  - done.
  - destruct j as [|j]; [lia|]. destruct i as [|i]; simpl in *.
    + injection Hi as ->. rewrite Forall_forall in Hall. apply Hall.
      by eapply list_elem_of_lookup_2.
    + apply (IH i j); auto; lia.
Qed.

Lemma sorted_NoDup (l : list Element) : StronglySorted docPrecedes l -> NoDup l.
Proof.
  induction 1 as [|x l Hs IH Hall]; constructor; auto.
  intros Hin. rewrite Forall_forall in Hall.
  apply (docPrecedes_irrefl x). by apply Hall.
Qed.

Lemma sorted_filter (P : Element -> Prop) `{!forall x, Decision (P x)} (l : list Element) :
  StronglySorted docPrecedes l -> StronglySorted docPrecedes (filter P l).
Proof.
  induction 1 as [|x l Hs IH Hall]; [constructor|].
  rewrite filter_cons. case_decide; [|done].
  constructor; [done|]. rewrite Forall_forall in Hall |- *.
  intros y Hy. apply Hall. by apply list_elem_of_filter in Hy as [_ ?].
Qed.

End DocumentOrder.

(* ====================================================================== *)
(** * Facts about tree walks *)
(* ====================================================================== *)

Section Walkers.

Lemma DomNode_forall_ind (P : DomNode -> Prop) :
  (forall a ks, Forall P ks -> P (Node a ks)) -> forall n, P n.
Proof.
  intros step. fix IH 1. intros [a ks]. apply step.
  induction ks as [|k ks IHks]; constructor; [apply IH | apply IHks].
Qed.

Lemma walkNode_unfold f e a ks :
  walkNode f e (Node a ks) =
  match f e with
  | FILTER_ACCEPT => e :: walkKids f e 0 ks
  | FILTER_SKIP => walkKids f e 0 ks
  | FILTER_REJECT => []
  end.
Proof.
  simpl.
  match goal with
  | |- context [?F 0 ks] =>
      assert (HF : forall l i, F i l = walkKids f e i l)
  end.
  { induction l as [|k l IHl]; intros i; simpl; [done|]. by rewrite IHl. }
  by rewrite HF.
Qed.

Lemma walkKids_cons f e i k ks :
  walkKids f e i (k :: ks) = walkNode f (i :: e) k ++ walkKids f e (S i) ks.
Proof. done. Qed.

(** Where the walked elements lie: below the element walked from. *)
Definition below (e x : Element) : Prop := exists l, l <> [] /\ x = l ++ e.
Definition belowFrom (e : Element) (i : nat) (x : Element) : Prop :=
  exists l j, i <= j /\ x = l ++ j :: e.

Lemma belowFrom_below e i x : belowFrom e i x -> below e x.
Proof.
  intros (l & j & _ & ->). exists (l ++ [j]). split; [by destruct l|].
  by rewrite <- app_assoc.
Qed.

Lemma below_trans a b c : below a b -> below b c -> below a c.
Proof.
  intros (l1 & H1 & ->) (l2 & H2 & ->). exists (l2 ++ l1).
  split; [by destruct l2|]. by rewrite app_assoc.
Qed.

Lemma below_length e x : below e x -> length e < length x.
Proof. intros (l & Hl & ->). rewrite length_app. destruct l; simpl; [done|lia]. Qed.

Lemma below_ne e x : below e x -> x <> e.
Proof. intros H ->. apply below_length in H. lia. Qed.

Lemma below_child i e : below e (i :: e).
Proof. by exists [i]. Qed.

Lemma walk_shape f n :
  forall e x, x ∈ walkNode f e n -> x = e \/ below e x.
Proof.
  induction n as [a ks IH] using DomNode_forall_ind. intros e x.
  rewrite walkNode_unfold.
  assert (HK : forall i, x ∈ walkKids f e i ks -> belowFrom e i x).
  { clear -IH. induction IH as [|k ks Hk _ IHks]; intros i; simpl.
    - by intros ?%elem_of_nil.
    - rewrite elem_of_app. intros [Hx|Hx].
      + destruct (Hk _ _ Hx) as [->|(l & Hl & ->)].
        * by exists [], i.
        * exists l, i. split; [lia|done].
      + destruct (IHks _ Hx) as (l & j & Hj & ->). exists l, j. split; [lia|done]. }
  destruct (f e).
  - rewrite elem_of_cons. intros [->|Hx]; [by left|right].
    eapply belowFrom_below, HK, Hx.
  - by intros ?%elem_of_nil.
  - intros Hx. right. eapply belowFrom_below, HK, Hx.
Qed.

Lemma walkKids_shape f e i ks x :
  x ∈ walkKids f e i ks -> belowFrom e i x.
Proof.
  revert i. induction ks as [|k ks IHks]; intros i; simpl.
  - by intros ?%elem_of_nil.
  - rewrite elem_of_app. intros [Hx|Hx].
    + destruct (walk_shape _ _ _ _ Hx) as [->|(l & Hl & ->)].
      * by exists [], i.
      * exists l, i. split; [lia|done].
    + destruct (IHks _ Hx) as (l & j & Hj & ->). exists l, j. split; [lia|done].
Qed.

Lemma walk_accepted f n :
  forall e x, x ∈ walkNode f e n -> f x = FILTER_ACCEPT.
Proof.
  induction n as [a ks IH] using DomNode_forall_ind. intros e x.
  rewrite walkNode_unfold.
  assert (HK : forall i, x ∈ walkKids f e i ks -> f x = FILTER_ACCEPT).
  { clear -IH. induction IH as [|k ks Hk _ IHks]; intros i; simpl.
    - by intros ?%elem_of_nil.
    - rewrite elem_of_app. intros [Hx|Hx]; eauto. }
  destruct (f e) eqn:Hfe.
  - rewrite elem_of_cons. intros [->|Hx]; eauto.
  - by intros ?%elem_of_nil.
  - eauto.
Qed.

Lemma walkKids_accepted f e i ks x :
  x ∈ walkKids f e i ks -> f x = FILTER_ACCEPT.
Proof.
  revert i. induction ks as [|k ks IHks]; intros i; simpl.
  - by intros ?%elem_of_nil.
  - rewrite elem_of_app. intros [Hx|Hx]; eauto using walk_accepted.
Qed.

(** A walk lists elements in document order. *)
Lemma walk_sorted f n : forall e, StronglySorted docPrecedes (walkNode f e n).
Proof.
  induction n as [a ks IH] using DomNode_forall_ind. intros e.
  rewrite walkNode_unfold.
  assert (HK : forall i, StronglySorted docPrecedes (walkKids f e i ks)).
  { clear -IH. induction IH as [|k ks Hk _ IHks]; intros i; simpl.
    - constructor.
    - apply StronglySorted_app; split_and!; auto.
      intros x1 x2 H1 H2.
      apply walkKids_shape in H2 as (l2 & j & Hj & ->).
      apply walk_shape in H1 as [->|(l1 & _ & ->)].
      + apply (docPrecedes_sibling e i j [] l2). lia.
      + apply (docPrecedes_sibling e i j l1 l2). lia. }
  destruct (f e); [|constructor|done].
  constructor; [done|]. apply Forall_forall. intros x Hx.
  apply walkKids_shape, belowFrom_below in Hx as (l & Hl & ->).
  by apply docPrecedes_descendant.
Qed.

Lemma walkKids_sorted f e i ks : StronglySorted docPrecedes (walkKids f e i ks).
Proof.
  revert i. induction ks as [|k ks IHks]; intros i; simpl; [constructor|].
  apply StronglySorted_app; split_and!; auto using walk_sorted.
  intros x1 x2 H1 H2.
  apply walkKids_shape in H2 as (l2 & j & Hj & ->).
  apply walk_shape in H1 as [->|(l1 & _ & ->)].
  - apply (docPrecedes_sibling e i j [] l2). lia.
  - apply (docPrecedes_sibling e i j l1 l2). lia.
Qed.

Lemma treeWalk_sorted doc root f : StronglySorted docPrecedes (treeWalk doc root f).
Proof. apply walkKids_sorted. Qed.

End Walkers.

(* ====================================================================== *)
(** * Discovery is the document-order listing of the components *)
(* ====================================================================== *)

Section Discovery.
Import PropertyAccessor KeyboardNavigator.

Variable doc : Document.

Definition acceptAll (_ : Element) : NodeFilter := FILTER_ACCEPT.

(** Specification of discovery: every element below the body that
    carries a source path, in document order. *)
Definition depthFirstOrder : list Element :=
  filter (fun x => hasSourcePath doc x = true) (documentOrder doc).

(** The components strictly below an element, in document order. *)
Definition compsBelow (e : Element) : list Element :=
  filter (fun x => hasSourcePath doc x = true) (treeWalk doc e acceptAll).

Lemma childNodes_nodeAt e n : nodeAt doc e = Some n -> childNodes doc e = nodeKids n.
Proof. destruct e as [|i up]; simpl; [done|]. by intros ->. Qed.

Lemma hasSourcePath_nodeAt e : hasSourcePath doc e = true -> is_Some (nodeAt doc e).
Proof.
  unfold hasSourcePath, attrsOf. destruct (nodeAt doc e); [eauto|].
  simpl. done.
Qed.

Lemma drop_head {A} (l : list A) i k ks :
  drop i l = k :: ks -> l !! i = Some k /\ drop (S i) l = ks.
Proof.
  intros H. split.
  - rewrite <- (Nat.add_0_r i), <- lookup_drop, H. done.
  - replace (S i) with (i + 1) by lia. by rewrite <- drop_drop, H.
Qed.

Lemma noComponentUntil_unfold r a :
  noComponentUntil doc r a =
  if decide (a = r) then true
  else if hasSourcePath doc a then false
  else match a with
       | [] => true
       | _ :: up => noComponentUntil doc r up
       end.
Proof. by destruct a. Qed.

Lemma flat_map_ext_in {A B} (f g : A -> list B) l :
  (forall a, a ∈ l -> f a = g a) -> flat_map f l = flat_map g l.
Proof.
  induction l as [|a l IH]; intros H; simpl; [done|].
  rewrite H by (apply elem_of_cons; by left). f_equal. apply IH.
  intros b Hb. apply H. apply elem_of_cons. by right.
Qed.

Lemma nil_if_no_elements {A} (l : list A) : (forall x, x ∈ l -> False) -> l = [].
Proof. destruct l as [|a l]; [done|]. intros H. destruct (H a). apply elem_of_cons. by left. Qed.

(** Below a component nothing is a direct child of an element above it. *)
Lemma not_direct_below_component r c x :
  hasSourcePath doc c = true -> below r c -> below c x ->
  isDirectChild doc r x = false.
Proof.
  intros Hc Hrc (l & Hl & ->). destruct l as [|j l]; [done|]. clear Hl.
  unfold isDirectChild. cbn [app parentElement].
  induction l as [|j' l IH]; cbn [app].
  - rewrite noComponentUntil_unfold. rewrite decide_False by by apply below_ne.
    by rewrite Hc.
  - rewrite noComponentUntil_unfold. rewrite decide_False.
    + destruct (hasSourcePath doc (j' :: l ++ c)); [done|apply IH].
    + apply below_ne. eapply below_trans; [exact Hrc|].
      exists (j' :: l). done.
Qed.

(** Below a component every tagged element has a parent component. *)
Lemma parent_below_component c x :
  hasSourcePath doc c = true -> c <> [] -> below c x ->
  is_Some (findParentComponent doc x).
Proof.
  intros Hc Hne (l & Hl & ->). destruct l as [|j l]; [done|]. clear Hl.
  unfold findParentComponent. simpl.
  induction l as [|j' l IH]; simpl.
  - destruct c; [done|]. simpl. rewrite Hc. eauto.
  - destruct (hasSourcePath doc (j' :: l ++ c)); eauto.
Qed.

Definition childStep (c : Element) : list Element := c :: compsBelow c.

(** The components below [e] split into the direct child components of
    [r], each followed by the components below it. *)
Lemma split_by_children_node n :
  forall r e, below r e -> nodeAt doc e = Some n ->
    isDirectChild doc r e = true ->
    filter (fun x => hasSourcePath doc x = true) (walkNode acceptAll e n) =
    flat_map childStep
      (filter (fun x => isDirectChild doc r x = true)
              (walkNode (acceptChild doc r) e n)).
Proof.
  induction n as [a ks IH] using DomNode_forall_ind. intros r e Hre Hat Hdir.
  assert (HK : forall e0 i, (e0 = r \/ below r e0) ->
             noComponentUntil doc r e0 = true ->
             drop i (childNodes doc e0) = ks ->
             filter (fun x => hasSourcePath doc x = true) (walkKids acceptAll e0 i ks) =
             flat_map childStep
               (filter (fun x => isDirectChild doc r x = true)
                       (walkKids (acceptChild doc r) e0 i ks))).
  { clear -IH. induction IH as [|k ks Hk _ IHks]; intros e0 i He0 Hclear Hdrop.
    - done.
    - apply drop_head in Hdrop as [Hi Hdrop]. simpl.
      rewrite !filter_app, flat_map_app. f_equal.
      + apply Hk; [|done|done].
        destruct He0 as [->|He0]; [apply below_child|].
        eapply below_trans; [exact He0|apply below_child].
      + by apply IHks. }
  rewrite !walkNode_unfold.
  assert (Hacc : acceptChild doc r e =
                 if hasSourcePath doc e then FILTER_ACCEPT else FILTER_SKIP).
  { unfold acceptChild. by rewrite decide_False by by apply below_ne. }
  rewrite Hacc. unfold acceptAll at 1.
  pose proof (childNodes_nodeAt _ _ Hat) as Hkids. simpl in Hkids.
  destruct (hasSourcePath doc e) eqn:Hsp.
  - rewrite !filter_cons_True by done.
    assert (Hnil : filter (fun x => isDirectChild doc r x = true)
                          (walkKids (acceptChild doc r) e 0 ks) = []).
    { apply nil_if_no_elements. intros x [Hx Hin]%list_elem_of_filter.
      apply walkKids_shape, belowFrom_below in Hin.
      rewrite (not_direct_below_component r e x) in Hx; done. }
    rewrite Hnil. simpl. rewrite app_nil_r.
    unfold childStep, compsBelow, treeWalk. by rewrite Hkids.
  - rewrite filter_cons_False by (by rewrite Hsp).
    apply HK; [by right| |by rewrite Hkids].
    rewrite noComponentUntil_unfold. rewrite decide_False by by apply below_ne.
    rewrite Hsp. destruct e; [done|]. done.
Qed.

Lemma split_by_children e n :
  nodeAt doc e = Some n ->
  compsBelow e = flat_map childStep (findChildComponents doc e).
Proof.
  intros Hat. unfold compsBelow, findChildComponents, treeWalk.
  assert (HK : forall ks i,
             drop i (childNodes doc e) = ks ->
             filter (fun x => hasSourcePath doc x = true) (walkKids acceptAll e i ks) =
             flat_map childStep
               (filter (fun x => isDirectChild doc e x = true)
                       (walkKids (acceptChild doc e) e i ks))).
  { induction ks as [|k ks IHks]; intros i Hdrop; [done|].
    apply drop_head in Hdrop as [Hi Hdrop]. simpl.
    rewrite !filter_app, flat_map_app. f_equal; [|by apply IHks].
    apply split_by_children_node; [apply below_child|done|].
    unfold isDirectChild. cbn [parentElement].
    rewrite noComponentUntil_unfold. by rewrite decide_True. }
  by apply HK.
Qed.

Lemma split_by_top_level_node n :
  forall e, nodeAt doc e = Some n -> findParentComponent doc e = None ->
    filter (fun x => hasSourcePath doc x = true) (walkNode acceptAll e n) =
    flat_map childStep (walkNode (acceptTopLevel doc) e n).
Proof.
  induction n as [a ks IH] using DomNode_forall_ind. intros e Hat Hpar.
  assert (HK : forall e0 i, climb doc e0 = None ->
             drop i (childNodes doc e0) = ks ->
             filter (fun x => hasSourcePath doc x = true) (walkKids acceptAll e0 i ks) =
             flat_map childStep (walkKids (acceptTopLevel doc) e0 i ks)).
  { clear -IH. induction IH as [|k ks Hk _ IHks]; intros e0 i Hclear Hdrop.
    - done.
    - apply drop_head in Hdrop as [Hi Hdrop]. simpl.
      rewrite !filter_app, flat_map_app. f_equal; [by apply Hk|by apply IHks]. }
  rewrite !walkNode_unfold.
  assert (Hacc : acceptTopLevel doc e =
                 if hasSourcePath doc e then FILTER_ACCEPT else FILTER_SKIP).
  { unfold acceptTopLevel. by rewrite Hpar. }
  rewrite Hacc. unfold acceptAll at 1.
  pose proof (childNodes_nodeAt _ _ Hat) as Hkids. simpl in Hkids.
  assert (Hne : e <> []) by (by destruct e).
  destruct (hasSourcePath doc e) eqn:Hsp.
  - rewrite filter_cons_True by done.
    assert (Hnil : walkKids (acceptTopLevel doc) e 0 ks = []).
    { apply nil_if_no_elements.
      intros x Hin. pose proof (walkKids_accepted _ _ _ _ _ Hin) as Hx.
      apply walkKids_shape, belowFrom_below in Hin.
      destruct (parent_below_component e x Hsp Hne Hin) as [p Hp].
      unfold acceptTopLevel in Hx. rewrite Hp in Hx.
      by destruct (hasSourcePath doc x). }
    rewrite Hnil. simpl. rewrite app_nil_r.
    unfold childStep, compsBelow, treeWalk. by rewrite Hkids.
  - rewrite filter_cons_False by (by rewrite Hsp).
    apply HK; [|by rewrite Hkids].
    destruct e as [|i up]; [done|]. simpl. rewrite Hsp. exact Hpar.
Qed.

Lemma split_by_top_level :
  depthFirstOrder = flat_map childStep (findTopLevelComponents doc).
Proof.
  unfold depthFirstOrder, documentOrder, findTopLevelComponents, treeWalk, body.
  simpl.
  assert (HK : forall ks i, drop i doc = ks ->
             filter (fun x => hasSourcePath doc x = true)
                    (walkKids (fun _ => FILTER_ACCEPT) [] i ks) =
             flat_map childStep (walkKids (acceptTopLevel doc) [] i ks)).
  { induction ks as [|k ks IHks]; intros i Hdrop; [done|].
    apply drop_head in Hdrop as [Hi Hdrop]. simpl.
    rewrite !filter_app, flat_map_app. f_equal; [|by apply IHks].
    by apply split_by_top_level_node. }
  by apply (HK doc 0).
Qed.

(** ** Nesting depth *)

Lemma nodeHeight_kid k ks : k ∈ ks -> nodeHeight k <= forestHeight ks.
Proof.
  induction ks as [|k' ks IH]; [by intros ?%elem_of_nil|].
  rewrite elem_of_cons. unfold forestHeight. simpl. intros [->|Hin]; [lia|].
  apply IH in Hin. unfold forestHeight in Hin. lia.
Qed.

Lemma nodeHeight_unfold a ks : nodeHeight (Node a ks) = S (forestHeight ks).
Proof. done. Qed.

Lemma nodeHeight_below e x n m :
  below e x -> nodeAt doc e = Some n -> nodeAt doc x = Some m ->
  nodeHeight m < nodeHeight n.
Proof.
  intros (l & Hl & ->) Hn. revert m. induction l as [|j l IH]; [done|].
  intros m Hm. simpl in Hm. destruct l as [|j' l].
  - simpl in Hm. rewrite (childNodes_nodeAt _ _ Hn) in Hm.
    destruct n as [a ks]. rewrite nodeHeight_unfold. simpl in Hm.
    apply list_elem_of_lookup_2, nodeHeight_kid in Hm. lia.
  - destruct (nodeAt doc ((j' :: l) ++ e)) as [m'|] eqn:Hm'.
    + rewrite (childNodes_nodeAt _ _ Hm') in Hm.
      specialize (IH ltac:(done) m' eq_refl).
      destruct m' as [a ks]. rewrite nodeHeight_unfold in IH. simpl in Hm.
      apply list_elem_of_lookup_2, nodeHeight_kid in Hm. lia.
    + simpl in Hm, Hm'. by rewrite Hm' in Hm.
Qed.

Lemma nodeHeight_top e n : nodeAt doc e = Some n -> nodeHeight n <= forestHeight doc.
Proof.
  destruct e as [|i up]; [done|]. destruct up as [|j up].
  - simpl. intros H. by apply list_elem_of_lookup_2, nodeHeight_kid in H.
  - intros Hn. destruct (nodeAt doc (j :: up)) as [m|] eqn:Hm.
    + assert (Hlt : nodeHeight n < nodeHeight m).
      { eapply (nodeHeight_below (j :: up) (i :: j :: up)); eauto using below_child. }
      assert (nodeHeight m <= forestHeight doc); [|lia].
      clear Hn Hlt n i. revert j m Hm. induction up as [|j' up IH]; intros j m Hm.
      * simpl in Hm. by apply list_elem_of_lookup_2, nodeHeight_kid in Hm.
      * destruct (nodeAt doc (j' :: up)) as [m'|] eqn:Hm'.
        -- specialize (IH _ _ Hm').
           assert (nodeHeight m < nodeHeight m'); [|lia].
           eapply (nodeHeight_below (j' :: up) (j :: j' :: up)); eauto using below_child.
        -- simpl in Hm, Hm'. by rewrite Hm' in Hm.
    + simpl in Hn, Hm. by rewrite Hm in Hn.
Qed.

(** ** [getAllComponentsInOrder] *)

Lemma findChildComponents_elem e c :
  c ∈ findChildComponents doc e -> below e c /\ hasSourcePath doc c = true.
Proof.
  unfold findChildComponents, treeWalk. intros [_ Hin]%list_elem_of_filter. split.
  - by apply walkKids_shape, belowFrom_below in Hin.
  - apply walkKids_accepted in Hin. unfold acceptChild in Hin.
    case_decide; [done|]. by destruct (hasSourcePath doc c).
Qed.

Lemma findTopLevelComponents_elem c :
  c ∈ findTopLevelComponents doc ->
  hasSourcePath doc c = true /\ findParentComponent doc c = None.
Proof.
  unfold findTopLevelComponents, treeWalk. intros Hin.
  apply walkKids_accepted in Hin. unfold acceptTopLevel in Hin.
  destruct (hasSourcePath doc c); [|done].
  by destruct (findParentComponent doc c).
Qed.

Lemma traverseDepthFirst_spec depth :
  forall e n, nodeAt doc e = Some n -> nodeHeight n <= depth ->
    hasSourcePath doc e = true ->
    traverseDepthFirst doc depth e = childStep e.
Proof.
  induction depth as [|depth IH]; intros e n Hn Hh Hsp.
  - destruct n. rewrite nodeHeight_unfold in Hh. lia.
  - simpl. rewrite Hsp. simpl. unfold childStep. f_equal.
    rewrite (split_by_children _ _ Hn). apply flat_map_ext_in.
    intros c [Hbelow Hc]%findChildComponents_elem.
    destruct (hasSourcePath_nodeAt _ Hc) as [m Hm].
    apply (IH c m); [done| |done].
    pose proof (nodeHeight_below _ _ _ _ Hbelow Hn Hm). lia.
Qed.

(** Discovery returns exactly the elements carrying a source path, in
    document order: the nesting bound is never reached. *)
Lemma getAllComponentsInOrder_spec :
  getAllComponentsInOrder doc = depthFirstOrder.
Proof.
  rewrite split_by_top_level. unfold getAllComponentsInOrder.
  apply flat_map_ext_in. intros c [Hc _]%findTopLevelComponents_elem.
  destruct (hasSourcePath_nodeAt _ Hc) as [m Hm].
  apply (traverseDepthFirst_spec _ c m); [done| |done].
  by eapply nodeHeight_top.
Qed.

Lemma traverseDepthFirst_enough depth e n :
  nodeAt doc e = Some n -> nodeHeight n <= depth ->
  traverseDepthFirst doc depth e = traverseDepthFirst doc (nodeHeight n) e.
Proof.
  intros Hn Hh. destruct (hasSourcePath doc e) eqn:Hsp.
  - rewrite (traverseDepthFirst_spec depth e n), (traverseDepthFirst_spec _ e n); done.
  - revert e n Hn Hh Hsp. induction depth as [|depth IH]; intros e n Hn Hh Hsp.
    + destruct n. rewrite nodeHeight_unfold in Hh. lia.
    + destruct n as [a ks]. rewrite nodeHeight_unfold. simpl. rewrite Hsp. simpl.
      apply flat_map_ext_in. intros c [Hbelow Hc]%findChildComponents_elem.
      destruct (hasSourcePath_nodeAt _ Hc) as [m Hm].
      pose proof (nodeHeight_below _ _ _ _ Hbelow Hn Hm) as Hlt.
      rewrite nodeHeight_unfold in Hlt, Hh.
      rewrite (traverseDepthFirst_spec depth c m), (traverseDepthFirst_spec _ c m);
        try done; lia.
Qed.

Lemma documentOrder_sorted : StronglySorted docPrecedes (documentOrder doc).
Proof. apply treeWalk_sorted. Qed.

Lemma depthFirstOrder_sorted : StronglySorted docPrecedes depthFirstOrder.
Proof. apply sorted_filter, documentOrder_sorted. Qed.

Lemma findChildComponents_sorted e :
  StronglySorted docPrecedes (findChildComponents doc e).
Proof. apply sorted_filter, treeWalk_sorted. Qed.

Lemma findTopLevelComponents_sorted :
  StronglySorted docPrecedes (findTopLevelComponents doc).
Proof. apply treeWalk_sorted. Qed.


(** ** Every element of the document is walked *)

Lemma walkNode_in_walkKids f e i j k ks x :
  ks !! j = Some k -> x ∈ walkNode f ((i + j) :: e) k -> x ∈ walkKids f e i ks.
Proof.
  revert i j. induction ks as [|k' ks IH]; intros i j Hj Hx; [done|].
  simpl. apply elem_of_app. destruct j as [|j]; simpl in Hj.
  - injection Hj as ->. left. by rewrite Nat.add_0_r in Hx.
  - right. apply (IH (S i) j); [done|]. by replace (S i + j) with (i + S j) by lia.
Qed.

Lemma nodeAt_ancestor l e m :
  nodeAt doc (l ++ e) = Some m -> e <> [] -> is_Some (nodeAt doc e).
Proof.
  revert m. induction l as [|j l IH]; intros m Hm He; [eauto|].
  change (childNodes doc (l ++ e) !! j = Some m) in Hm.
  destruct (nodeAt doc (l ++ e)) as [n|] eqn:Hn; [by eapply IH|].
  exfalso. destruct (l ++ e) as [|i up] eqn:Hle; [by destruct l, e|].
  simpl in Hm, Hn. by rewrite Hn in Hm.
Qed.

Lemma walkNode_complete n :
  forall e l m, nodeAt doc e = Some n -> nodeAt doc (l ++ e) = Some m ->
    l ++ e ∈ walkNode acceptAll e n.
Proof.
  induction n as [a ks IH] using DomNode_forall_ind. intros e l m Hn Hm.
  rewrite walkNode_unfold. unfold acceptAll at 1.
  destruct l as [|j0 l0] using rev_ind; [apply elem_of_cons; by left|]. clear IHl0.
  apply elem_of_cons. right. rewrite <- app_assoc in Hm |- *. simpl in Hm |- *.
  destruct (nodeAt_ancestor l0 (j0 :: e) m Hm ltac:(done)) as [k Hk].
  pose proof Hk as Hk'. simpl in Hk'.
  rewrite (childNodes_nodeAt _ _ Hn) in Hk'. simpl in Hk'.
  apply (walkNode_in_walkKids _ _ 0 j0 k); [done|]. simpl.
  rewrite Forall_forall in IH.
  apply (IH k ltac:(by eapply list_elem_of_lookup_2) (j0 :: e) l0 m); done.
Qed.

Lemma documentOrder_complete x m : nodeAt doc x = Some m -> x ∈ documentOrder doc.
Proof.
  intros Hm. destruct x as [|j0 l0] using rev_ind; [done|]. clear IHl0.
  destruct (nodeAt_ancestor l0 [j0] m Hm ltac:(done)) as [k Hk].
  unfold documentOrder, treeWalk, body. simpl.
  apply (walkNode_in_walkKids _ _ 0 j0 k); [done|]. simpl.
  by apply (walkNode_complete k [j0] l0 m).
Qed.

Lemma depthFirstOrder_elem x :
  x ∈ depthFirstOrder <-> hasSourcePath doc x = true.
Proof.
  unfold depthFirstOrder. rewrite list_elem_of_filter. split; [by intros [? _]|].
  intros Hsp. split; [done|].
  destruct (hasSourcePath_nodeAt _ Hsp) as [m Hm]. by eapply documentOrder_complete.
Qed.

End Discovery.

(* ====================================================================== *)
(** * Sibling navigation *)
(* ====================================================================== *)

Section Siblings.
Import PropertyAccessor KeyboardNavigator.

Lemma indexOf_bounds (siblings : list Element) x :
  (-1 <= indexOf siblings x < Z.of_nat (length siblings))%Z.
Proof.
  induction siblings as [|s rest IH]; simpl; [lia|].
  case_decide; [lia|]. destruct (Z.ltb_spec (indexOf rest x) 0); lia.
Qed.

Lemma indexOf_absent (siblings : list Element) x :
  x ∉ siblings -> indexOf siblings x = (-1)%Z.
Proof.
  induction siblings as [|s rest IH]; simpl; [done|].
  rewrite not_elem_of_cons. intros [Hne Hrest].
  rewrite decide_False by done. rewrite IH by done. done.
Qed.

Lemma indexOf_lookup (siblings : list Element) i x :
  NoDup siblings -> siblings !! i = Some x -> indexOf siblings x = Z.of_nat i.
Proof.
  intros Hnd. revert i. induction Hnd as [|s rest Hs Hnd IH]; intros i Hi; [done|].
  simpl. destruct i as [|i]; simpl in Hi.
  - injection Hi as ->. by rewrite decide_True.
  - rewrite decide_False.
    + rewrite (IH i Hi). destruct (Z.ltb_spec (Z.of_nat i) 0); lia.
    + intros ->. apply Hs. by eapply list_elem_of_lookup_2.
Qed.

Lemma at_index_nat (siblings : list Element) (k : nat) :
  at_index siblings (Z.of_nat k) = siblings !! k.
Proof.
  unfold at_index. destruct (Z.ltb_spec (Z.of_nat k) 0); [lia|].
  by rewrite Nat2Z.id.
Qed.

Lemma getNextSibling_absent x (siblings : list Element) :
  x ∉ siblings -> getNextSibling x siblings = head siblings.
Proof.
  intros Hx. unfold getNextSibling. case_decide as Hlen.
  - by destruct siblings.
  - rewrite indexOf_absent by done. rewrite decide_True by done.
    unfold at_index. simpl. by rewrite head_lookup.
Qed.

Lemma getPreviousSibling_absent x (siblings : list Element) :
  x ∉ siblings -> getPreviousSibling x siblings = last siblings.
Proof.
  intros Hx. unfold getPreviousSibling. case_decide as Hlen.
  - by destruct siblings.
  - rewrite indexOf_absent by done. rewrite decide_True by done.
    replace (Z.of_nat (length siblings) - 1)%Z
      with (Z.of_nat (pred (length siblings))) by lia.
    by rewrite at_index_nat, last_lookup.
Qed.

Lemma getNextSibling_at (siblings : list Element) i x :
  NoDup siblings -> siblings !! i = Some x ->
  getNextSibling x siblings = siblings !! ((i + 1) mod length siblings).
Proof.
  intros Hnd Hi. unfold getNextSibling.
  pose proof (lookup_lt_Some _ _ _ Hi) as Hlt.
  rewrite decide_False by lia. rewrite (indexOf_lookup _ i) by done.
  rewrite decide_False by lia.
  rewrite Z.rem_mod_nonneg by lia.
  replace (Z.of_nat i + 1)%Z with (Z.of_nat (i + 1)) by lia.
  rewrite <- Nat2Z.inj_mod. apply at_index_nat.
Qed.

Lemma getPreviousSibling_at (siblings : list Element) i x :
  NoDup siblings -> siblings !! i = Some x ->
  getPreviousSibling x siblings =
  siblings !! ((i + length siblings - 1) mod length siblings).
Proof.
  intros Hnd Hi. unfold getPreviousSibling.
  pose proof (lookup_lt_Some _ _ _ Hi) as Hlt.
  rewrite decide_False by lia. rewrite (indexOf_lookup _ i) by done.
  rewrite decide_False by lia.
  rewrite Z.rem_mod_nonneg by lia.
  replace (Z.of_nat i - 1 + Z.of_nat (length siblings))%Z
    with (Z.of_nat (i + length siblings - 1)) by lia.
  rewrite <- Nat2Z.inj_mod. apply at_index_nat.
Qed.

Lemma getAllSiblingsIncludingCurrent_NoDup doc e :
  NoDup (getAllSiblingsIncludingCurrent doc e).
Proof.
  unfold getAllSiblingsIncludingCurrent. apply sorted_NoDup.
  destruct (findParentComponent doc e).
  - apply findChildComponents_sorted.
  - apply findTopLevelComponents_sorted.
Qed.

(** C10: when the current element is not in the sibling list it was
    computed from (for instance after it left the rendered tree), the next
    sibling is the first entry of the list and the previous sibling is the
    last entry; for an empty list both are null.  Both functions are total:
    no input makes them throw. *)
Theorem sibling_navigation_degrades (currentElement : Element)
  (siblings : list Element) :
  currentElement ∉ siblings ->
  getNextSibling currentElement siblings = head siblings /\
  getPreviousSibling currentElement siblings = last siblings /\
  (siblings = [] ->
   getNextSibling currentElement siblings = None /\
   getPreviousSibling currentElement siblings = None).
Proof.
  intros Hx. split_and!.
  - by apply getNextSibling_absent.
  - by apply getPreviousSibling_absent.
  - by intros ->.
Qed.

Lemma sibling_navigation_degrades_witness :
  getNextSibling [7] [[0]; [1]; [2]] = Some [0] /\
  getPreviousSibling [7] [[0]; [1]; [2]] = Some [2] /\
  getNextSibling [7] [] = None /\
  getPreviousSibling [7] [] = None.
Proof.
  assert (H1 : [7] ∉ [[0]; [1]; [2]]) by (rewrite !not_elem_of_cons; split_and!; done || apply not_elem_of_nil).
  assert (H2 : [7] ∉ @nil Element) by apply not_elem_of_nil.
  destruct (sibling_navigation_degrades [7] _ H1) as (Ha & Hb & _).
  destruct (sibling_navigation_degrades [7] _ H2) as (_ & _ & Hc).
  destruct (Hc eq_refl) as [Hd He].
  split_and!; [exact Ha | exact Hb | exact Hd | exact He].
Defined.

End Siblings.

(* ====================================================================== *)
(** * Keyboard traversal and discovery *)
(* ====================================================================== *)

(** A small rendered tree used by the examples: an untagged wrapper
    holding component A (with B, itself holding C, inside an untagged
    element, and D), followed by component E. *)
Definition tagged (name : string) : Attrs :=
  mkAttrs (Some ("/src/" +:+ name)) (Some name) (Some "10"%string).

Definition untagged : Attrs := mkAttrs None None None.

Definition exampleDocument : Document :=
  [ Node untagged
      [ Node (tagged "A.scala")
          [ Node untagged [ Node (tagged "B.scala") [ Node (tagged "C.scala") [] ] ];
            Node (tagged "D.scala") [] ] ];
    Node (tagged "E.scala") [] ].

(** An element that carries a source path but neither file name nor line. *)
Definition pathOnlyDocument : Document :=
  [ Node (mkAttrs (Some "/src/A.scala"%string) None None) [] ].

Section Traversal.
Import PropertyAccessor KeyboardNavigator.

(** C3: keyboard traversal cycles.  Up from an element without parent
    component gives the last element of the depth-first order of all
    components; Down from an element without child components gives the
    first one; Right and Left from the element at index [i] of its [n]
    siblings give the siblings at [(i+1) mod n] and [(i-1+n) mod n]. *)
Theorem keyboard_traversal_cycles (doc : Document) (currentElement : Element) :
  let siblings := getAllSiblingsIncludingCurrent doc currentElement in
  let n := length siblings in
  (findParentComponent doc currentElement = None ->
     navigateToParent doc currentElement = last (depthFirstOrder doc)) /\
  (findChildComponents doc currentElement = [] ->
     navigateToFirstChild doc currentElement = head (depthFirstOrder doc)) /\
  (forall i, siblings !! i = Some currentElement ->
     navigateToNextSibling doc currentElement = siblings !! ((i + 1) mod n) /\
     navigateToPreviousSibling doc currentElement = siblings !! ((i + n - 1) mod n)).
Proof.
  intros siblings n. split_and!.
  - intros Hroot. unfold navigateToParent, findDeepestComponent.
    by rewrite Hroot, getAllComponentsInOrder_spec.
  - intros Hleaf. unfold navigateToFirstChild, findFirstComponent.
    rewrite Hleaf. simpl. by rewrite getAllComponentsInOrder_spec.
  - intros i Hi. unfold navigateToNextSibling, navigateToPreviousSibling.
    pose proof (getAllSiblingsIncludingCurrent_NoDup doc currentElement) as Hnd.
    split.
    + by apply getNextSibling_at.
    + by apply getPreviousSibling_at.
Qed.

Lemma keyboard_traversal_cycles_witness :
  navigateToParent exampleDocument [0; 0] = Some [1] /\
  navigateToFirstChild exampleDocument [1] = Some [0; 0] /\
  navigateToNextSibling exampleDocument [1] = Some [0; 0] /\
  navigateToPreviousSibling exampleDocument [0; 0] = Some [1].
Proof.
  destruct (keyboard_traversal_cycles exampleDocument [0; 0]) as (Hup & _ & Hside0).
  destruct (keyboard_traversal_cycles exampleDocument [1]) as (_ & Hdown & Hside1).
  split_and!.
  - rewrite Hup by (vm_compute; reflexivity). vm_compute; reflexivity.
  - rewrite Hdown by (vm_compute; reflexivity). vm_compute; reflexivity.
  - destruct (Hside1 1) as [Hnext _]; [vm_compute; reflexivity|].
    rewrite Hnext. vm_compute; reflexivity.
  - destruct (Hside0 0) as [_ Hprev]; [vm_compute; reflexivity|].
    rewrite Hprev. vm_compute; reflexivity.
Defined.

(** ** What discovery returns *)

Lemma truthy_Some v : truthy v = true <-> exists s, v = Some s /\ s <> EmptyString.
Proof.
  destruct v as [s|]; simpl.
  - rewrite negb_true_iff. split.
    + intros H. exists s. split; [done|]. intros ->. by rewrite String.eqb_refl in H.
    + intros (s' & [= <-] & Hne). by apply String.eqb_neq.
  - split; [done|]. by intros (s & ? & _).
Qed.

Lemma hasAllProperties_hasSourcePath doc e :
  hasAllProperties doc e = true -> hasSourcePath doc e = true.
Proof.
  unfold hasAllProperties, hasSourcePath, getSourcePath.
  rewrite !andb_true_iff. intros [[H _] _]. apply truthy_Some in H as (s & -> & _).
  apply bool_decide_eq_true. eauto.
Qed.

Lemma elem_of_map {A B} (f : A -> B) (l : list A) y :
  y ∈ map f l <-> exists x, y = f x /\ x ∈ l.
Proof.
  induction l as [|a l IH]; simpl.
  - rewrite elem_of_nil. split; [done|]. by intros (x & _ & ?%elem_of_nil).
  - rewrite elem_of_cons, IH. split.
    + intros [->|(x & -> & Hx)]; [exists a|exists x]; rewrite elem_of_cons; auto.
    + intros (x & -> & [->|Hx]%elem_of_cons); eauto.
Qed.

Lemma getAllComponents_element doc e :
  e ∈ map element (DevtoolsSystem.getAllComponents doc) <->
  hasAllProperties doc e = true.
Proof.
  unfold DevtoolsSystem.getAllComponents.
  rewrite map_map, elem_of_map. split.
  - intros ([[[x f] l] p] & -> & [Hkeep Hin]%list_elem_of_filter). simpl.
    apply elem_of_map in Hin as (y & [= -> -> -> ->] & _).
    unfold hasAllProperties. rewrite !andb_true_iff in Hkeep |- *. tauto.
  - intros Hall.
    exists (e, getFilename doc e, getSourceLine doc e, getSourcePath doc e).
    split; [done|]. apply list_elem_of_filter. split.
    + unfold hasAllProperties in Hall. rewrite !andb_true_iff in Hall |- *. tauto.
    + apply elem_of_map. exists e. split; [done|].
      rewrite getAllComponentsInOrder_spec. apply depthFirstOrder_elem.
      by apply hasAllProperties_hasSourcePath.
Qed.

Lemma findTopLevelComponents_complete doc e :
  hasSourcePath doc e = true -> findParentComponent doc e = None ->
  e ∈ findTopLevelComponents doc.
Proof.
  intros Hsp Hpar. apply depthFirstOrder_elem in Hsp as Hin.
  rewrite split_by_top_level in Hin.
  apply list_elem_of_In, in_flat_map in Hin as (c & Hc & Hec).
  apply list_elem_of_In in Hc. apply list_elem_of_In in Hec.
  unfold childStep in Hec. apply elem_of_cons in Hec as [->|Hec]; [done|].
  exfalso. apply findTopLevelComponents_elem in Hc as [Hcsp _].
  unfold compsBelow, treeWalk in Hec.
  apply list_elem_of_filter in Hec as [_ Hec].
  apply walkKids_shape, belowFrom_below in Hec.
  destruct (parent_below_component doc c e Hcsp) as [p Hp]; [|done|congruence].
  intros ->. by vm_compute in Hcsp.
Qed.

(** The claim C9 as stated fails for the navigator's discovery: an
    element with a source path but no file name and no line is returned by
    [findTopLevelComponents] and by [getAllComponentsInOrder]. *)
Lemma discovery_without_all_properties :
  findTopLevelComponents pathOnlyDocument = [[0]] /\
  getAllComponentsInOrder pathOnlyDocument = [[0]] /\
  hasAllProperties pathOnlyDocument [0] = false.
Proof. vm_compute. done. Qed.

(** C9 (amended): [hasAllProperties] holds exactly when the three
    properties are present and non-empty, and [getAllComponents] returns
    exactly the elements below the body for which it holds; the
    navigator's own discovery returns every element that carries the
    source-path property, with or without the other two. *)
Theorem discovery_characterised (doc : Document) (e : Element) :
  (hasAllProperties doc e = true <->
     exists p f l,
       getSourcePath doc e = Some p /\ p <> EmptyString /\
       getFilename doc e = Some f /\ f <> EmptyString /\
       getSourceLine doc e = Some l /\ l <> EmptyString) /\
  (e ∈ map element (DevtoolsSystem.getAllComponents doc) <->
     hasAllProperties doc e = true) /\
  (e ∈ getAllComponentsInOrder doc <-> hasSourcePath doc e = true) /\
  (e ∈ findTopLevelComponents doc <->
     hasSourcePath doc e = true /\ findParentComponent doc e = None).
Proof.
  split_and!.
  - unfold hasAllProperties. rewrite !andb_true_iff, !truthy_Some. split.
    + intros [[(p & ? & ?) (f & ? & ?)] (l & ? & ?)]. exists p, f, l. done.
    + intros (p & f & l & ? & ? & ? & ? & ? & ?). split_and!; eauto.
  - apply getAllComponents_element.
  - rewrite getAllComponentsInOrder_spec. apply depthFirstOrder_elem.
  - split; [apply findTopLevelComponents_elem|].
    intros [? ?]. by apply findTopLevelComponents_complete.
Qed.

End Traversal.

(* ====================================================================== *)
(** * The hierarchy builder *)
(* ====================================================================== *)

Section ListFacts.

Lemma map_is_fmap {A B} (f : A -> B) (l : list A) : map f l = f <$> l.
Proof. done. Qed.

Lemma alter_id_at {A} (f : A -> A) (l : list A) i x :
  l !! i = Some x -> f x = x -> alter f i l = l.
Proof.
  revert i. induction l as [|a l IH]; intros i Hi Hf; [done|].
  destruct i as [|i]; simpl in *.
  - injection Hi as ->. by rewrite Hf.
  - f_equal. by apply IH.
Qed.

Lemma StronglySorted_filter_any {A} (R : relation A) (P : A -> Prop)
  `{!forall x, Decision (P x)} (l : list A) :
  StronglySorted R l -> StronglySorted R (filter P l).
Proof.
  induction 1 as [|x l Hs IH Hall]; [constructor|].
  rewrite filter_cons. case_decide; [|done].
  constructor; [done|]. rewrite Forall_forall in Hall |- *.
  intros y Hy. apply Hall. by apply list_elem_of_filter in Hy as [_ ?].
Qed.

Lemma seq_sorted j n : StronglySorted lt (seq j n).
Proof.
  revert j. induction n as [|n IH]; intros j; simpl; constructor; [apply IH|].
  apply Forall_forall. intros x Hx%elem_of_seq. lia.
Qed.

Lemma sort_sorted_id {A} (compare : A -> A -> Z) (l : list A) :
  StronglySorted (fun a b => (compare a b <= 0)%Z) l -> sort compare l = l.
Proof.
  induction 1 as [|x l Hs IH Hall]; [done|]. simpl. rewrite IH.
  destruct l as [|y l]; [done|]. simpl.
  apply Forall_cons in Hall as [Hxy _].
  destruct (Z.ltb_spec 0 (compare x y)); [lia|done].
Qed.

End ListFacts.

(** ** The comparator of the sorting pass is consistent *)

Section ComparatorConsistency.
Import ComponentTreeView.

(** [q] is [p] itself, lies inside [p], or comes after [p]. *)
Definition notBefore (r : Relative) : bool :=
  match r with
  | Same | ContainedBy | Following => true
  | Contains | Preceding => false
  end.

Lemma relate_trans p q r :
  notBefore (relate p q) = true -> notBefore (relate q r) = true ->
  notBefore (relate p r) = true.
Proof.
  revert q r. induction p as [|i p IH]; intros [|j q] [|k r]; simpl; try done.
  repeat case_decide; subst; simpl; try done; try lia. apply IH.
Qed.

Lemma relate_total p q :
  notBefore (relate p q) = false -> notBefore (relate q p) = true.
Proof.
  rewrite (relate_converse p q). by destruct (relate p q).
Qed.

Lemma byDOMOrder_relate store a b :
  (byDOMOrder store a b <= 0)%Z <->
  notBefore (relate (rev (elementOf store a)) (rev (elementOf store b))) = true.
Proof.
  unfold byDOMOrder, compareDocumentPosition.
  by destruct (relate _ _); cbv.
Qed.

Lemma byDOMOrder_total store a b :
  (0 < byDOMOrder store a b)%Z -> (byDOMOrder store b a <= 0)%Z.
Proof.
  intros H. apply byDOMOrder_relate, relate_total.
  apply not_true_is_false. intros Hle%byDOMOrder_relate. lia.
Qed.

Lemma byDOMOrder_trans store a b c :
  (byDOMOrder store a b <= 0)%Z -> (byDOMOrder store b c <= 0)%Z ->
  (byDOMOrder store a c <= 0)%Z.
Proof.
  rewrite !byDOMOrder_relate. apply relate_trans.
Qed.

Lemma byDOMOrder_docPrecedes store a b :
  (byDOMOrder store a b <= 0)%Z -> elementOf store a <> elementOf store b ->
  docPrecedes (elementOf store a) (elementOf store b).
Proof.
  intros H%byDOMOrder_relate Hne. apply docPrecedes_relate.
  destruct (relate _ _) eqn:Hr; try done; auto.
  apply relate_Same in Hr. destruct Hne.
  by rewrite <- (rev_involutive (elementOf store a)), Hr, rev_involutive.
Qed.

End ComparatorConsistency.

(** ** Sorting with a consistent comparator *)

Section Sorting.
Context {A : Type} (compare : A -> A -> Z).

Lemma sortInsert_Permutation x l : sortInsert compare x l ≡ₚ x :: l.
Proof.
  induction l as [|y l IH]; simpl; [done|].
  destruct (0 <? compare x y)%Z; [|done].
  rewrite IH. apply Permutation_swap.
Qed.

Lemma sort_Permutation l : sort compare l ≡ₚ l.
Proof.
  induction l as [|x l IH]; simpl; [done|].
  by rewrite sortInsert_Permutation, IH.
Qed.

Hypothesis compare_total : forall a b, (0 < compare a b)%Z -> (compare b a <= 0)%Z.
Hypothesis compare_trans : forall a b c,
  (compare a b <= 0)%Z -> (compare b c <= 0)%Z -> (compare a c <= 0)%Z.

Lemma sortInsert_sorted x l :
  StronglySorted (fun a b => (compare a b <= 0)%Z) l ->
  StronglySorted (fun a b => (compare a b <= 0)%Z) (sortInsert compare x l).
Proof.
  induction 1 as [|y l Hs IH Hall]; simpl.
  - repeat constructor.
  - destruct (Z.ltb_spec 0 (compare x y)) as [Hgt|Hle].
    + constructor; [done|]. rewrite sortInsert_Permutation.
      constructor; [by apply compare_total|done].
    + constructor; [by constructor|]. constructor; [done|].
      eapply Forall_impl; [exact Hall|]. intros z Hz. by eapply compare_trans.
Qed.

Lemma sort_sorted l : StronglySorted (fun a b => (compare a b <= 0)%Z) (sort compare l).
Proof.
  induction l as [|x l IH]; simpl; [constructor|]. by apply sortInsert_sorted.
Qed.

Lemma sort_idempotent l : sort compare (sort compare l) = sort compare l.
Proof. apply sort_sorted_id, sort_sorted. Qed.

End Sorting.

Lemma sortInsert_ext {A} (compare compare' : A -> A -> Z) x l :
  (forall a b, compare a b = compare' a b) ->
  sortInsert compare x l = sortInsert compare' x l.
Proof.
  intros Heq. induction l as [|y l IH]; simpl; [done|]. by rewrite Heq, IH.
Qed.

Lemma sort_ext {A} (compare compare' : A -> A -> Z) l :
  (forall a b, compare a b = compare' a b) -> sort compare l = sort compare' l.
Proof.
  intros Heq. induction l as [|x l IH]; simpl; [done|].
  rewrite IH. by apply sortInsert_ext.
Qed.

Lemma StronglySorted_strengthen {A} (R R' : relation A) (l : list A) :
  StronglySorted R l -> NoDup l ->
  (forall a b, a ∈ l -> b ∈ l -> a <> b -> R a b -> R' a b) ->
  StronglySorted R' l.
Proof.
  induction 1 as [|x l Hs IH Hall]; intros Hnd HR; [constructor|].
  apply NoDup_cons in Hnd as [Hx Hnd].
  constructor.
  - apply IH; [done|]. intros a b Ha Hb. apply HR; apply elem_of_cons; by right.
  - rewrite Forall_forall in Hall |- *. intros y Hy. apply HR.
    + apply elem_of_cons. by left.
    + apply elem_of_cons. by right.
    + intros ->. done.
    + by apply Hall.
Qed.

Section Hierarchy.
Import PropertyAccessor KeyboardNavigator ComponentTreeView.

Variable doc : Document.

(** The ownership rule in the words of the specification: walk up from
    the parent and stop at the first inspectable element. *)
Fixpoint firstInspectable (a : Element) : option Element :=
  match a with
  | [] => None
  | _ :: up => if hasAllProperties doc a then Some a else firstInspectable up
  end.

Definition nearestInspectableAncestor (e : Element) : option Element :=
  match parentElement e with
  | None => None
  | Some a => firstInspectable a
  end.

Definition siblingsInDocumentOrder (t : Tree) (siblings : list nat) : Prop :=
  StronglySorted docPrecedes (elementOf (nodes t) <$> siblings).

(** What the specification asks of the built hierarchy. *)
Record WellFormedHierarchy (components : list ComponentInfo) (t : Tree) : Prop := {
  (* one node per component, in input order *)
  wf_nodes : node_element <$> nodes t = element <$> components;
  (* a non-root node hangs below its nearest inspectable ancestor,
     one level deeper, and is listed among that node's children *)
  wf_parent : forall r nd p,
    nodes t !! r = Some nd -> parent nd = Some p ->
    exists pn, nodes t !! p = Some pn /\
      nearestInspectableAncestor (node_element nd) = Some (node_element pn) /\
      level nd = level pn + 1 /\
      r ∈ children pn;
  (* a node without parent is a root at level 0 *)
  wf_root : forall r nd,
    nodes t !! r = Some nd -> parent nd = None ->
    level nd = 0 /\ r ∈ rootNodes t;
  (* the links are mutually consistent *)
  wf_children : forall p pn c,
    nodes t !! p = Some pn -> c ∈ children pn ->
    exists cn, nodes t !! c = Some cn /\ parent cn = Some p;
  wf_roots : forall r,
    r ∈ rootNodes t -> exists nd, nodes t !! r = Some nd /\ parent nd = None;
  (* siblings are in rendered order, and no node is listed twice *)
  wf_root_order : siblingsInDocumentOrder t (rootNodes t);
  wf_child_order : forall p pn,
    nodes t !! p = Some pn -> siblingsInDocumentOrder t (children pn)
}.

Lemma climb_below a pe : climb doc a = Some pe -> pe = a \/ below pe a.
Proof.
  induction a as [|i up IH]; [done|]. simpl.
  destruct (hasSourcePath doc (i :: up)).
  - intros [= <-]. by left.
  - intros [->|H]%IH; right; [apply below_child|].
    eapply below_trans; [exact H|apply below_child].
Qed.

Lemma findParentComponent_below e pe :
  findParentComponent doc e = Some pe -> below pe e.
Proof.
  unfold findParentComponent. destruct e as [|i up]; [done|]. simpl.
  intros [->|H]%climb_below; [apply below_child|].
  eapply below_trans; [exact H|apply below_child].
Qed.

Lemma climb_firstInspectable a pe :
  climb doc a = Some pe -> hasAllProperties doc pe = true ->
  firstInspectable a = Some pe.
Proof.
  induction a as [|i up IH]; [done|]. simpl.
  destruct (hasSourcePath doc (i :: up)) eqn:Hsp.
  - intros [= <-] Hall. by rewrite Hall.
  - intros Hc Hall. destruct (hasAllProperties doc (i :: up)) eqn:Hall'.
    + apply hasAllProperties_hasSourcePath in Hall'. congruence.
    + by apply IH.
Qed.

Lemma createNodeMap_snoc l c :
  createNodeMap (l ++ [c]) = <[element c := length l]> (createNodeMap l).
Proof.
  unfold createNodeMap. rewrite imap_app, foldl_app. simpl.
  by rewrite Nat.add_0_r.
Qed.

Lemma createNodeMap_lookup components i c :
  NoDup (element <$> components) -> components !! i = Some c ->
  createNodeMap components !! element c = Some i.
Proof.
  induction components as [|x l IH] using rev_ind; [done|].
  rewrite fmap_app. simpl. intros [Hnd [Hx _]]%NoDup_app Hi.
  rewrite createNodeMap_snoc.
  destruct (decide (i < length l)) as [Hlt|Hge].
  - rewrite lookup_app_l in Hi by done.
    rewrite lookup_insert_ne; [by apply IH|].
    intros Heq. apply (Hx (element c)).
    + apply list_elem_of_fmap. exists c. split; [done|].
      by eapply list_elem_of_lookup_2.
    + rewrite Heq. apply elem_of_cons. by left.
  - apply lookup_lt_Some in Hi as Hlen. rewrite length_app in Hlen. simpl in Hlen.
    assert (i = length l) as -> by lia.
    rewrite lookup_app_r, Nat.sub_diag in Hi by lia. injection Hi as ->.
    by rewrite lookup_insert_eq.
Qed.

Lemma createNodeMap_Some components e i :
  createNodeMap components !! e = Some i ->
  exists c, components !! i = Some c /\ element c = e.
Proof.
  induction components as [|x l IH] using rev_ind; [done|].
  rewrite createNodeMap_snoc. destruct (decide (element x = e)) as [<-|Hne].
  - rewrite lookup_insert_eq. intros [= <-]. exists x. split; [|done].
    by rewrite lookup_app_r, Nat.sub_diag by lia.
  - rewrite lookup_insert_ne by done. intros (c & Hc & <-)%IH.
    exists c. split; [|done]. rewrite lookup_app_l; [done|].
    by eapply lookup_lt_Some.
Qed.


(** ** The linking loop *)

Variable components : list ComponentInfo.

(** Every component stands after its parent component, when that one is
    in the list too: the order in which a depth-first discovery lists
    them. *)
Definition parentsFirst : Prop :=
  forall i j pc c,
    components !! i = Some pc -> components !! j = Some c ->
    KeyboardNavigator.findParentComponent doc (element c) = Some (element pc) ->
    i < j.

Hypothesis components_NoDup : NoDup (element <$> components).
Hypothesis components_parentsFirst : parentsFirst.

(** The node the second loop links the node of component [j] to. *)
Definition parentRef (j : nat) : option nat :=
  components !! j ≫= fun c =>
  ComponentTreeView.findParentComponent doc (element c) ≫= fun parentElement =>
  createNodeMap components !! parentElement.

Lemma parentRef_Some j p :
  parentRef j = Some p ->
  exists c pc, components !! j = Some c /\ components !! p = Some pc /\
    KeyboardNavigator.findParentComponent doc (element c) = Some (element pc).
Proof.
  unfold parentRef, ComponentTreeView.findParentComponent.
  destruct (components !! j) as [c|] eqn:Hc; [|done]. simpl.
  destruct (KeyboardNavigator.findParentComponent doc (element c)) as [pe|] eqn:Hpe;
    [|done]. simpl.
  intros (pc & Hpc & <-)%createNodeMap_Some. by exists c, pc.
Qed.

Lemma parentRef_lt j p : parentRef j = Some p -> p < j.
Proof.
  intros (c & pc & Hc & Hpc & Hpar)%parentRef_Some.
  by apply (components_parentsFirst p j pc c).
Qed.

Lemma parentRef_range j p : parentRef j = Some p -> p < length components.
Proof.
  intros (c & pc & _ & Hpc & _)%parentRef_Some. by eapply lookup_lt_Some.
Qed.

Record LinkInv (k : nat) (t : Tree) : Prop := {
  inv_length : length (nodes t) = length components;
  inv_element : forall j nd c,
    nodes t !! j = Some nd -> components !! j = Some c ->
    node_element nd = element c;
  inv_parent : forall j nd,
    nodes t !! j = Some nd ->
    parent nd = if decide (j < k) then parentRef j else None;
  inv_level : forall j nd,
    nodes t !! j = Some nd ->
    level nd = match parent nd with
               | Some p => levelOf (nodes t) p + 1
               | None => 0
               end;
  inv_children : forall j nd,
    nodes t !! j = Some nd ->
    children nd = filter (fun c => parentRef c = Some j) (seq 0 k);
  inv_roots : rootNodes t = filter (fun c => parentRef c = None) (seq 0 k)
}.

Lemma LinkInv_init : LinkInv 0 (mkTree (createNodes components) []).
Proof.
  split; simpl.
  - apply length_imap.
  - intros j nd c Hnd Hc. unfold createNodes in Hnd.
    rewrite list_lookup_imap, Hc in Hnd. by injection Hnd as <-.
  - intros j nd Hnd. unfold createNodes in Hnd. rewrite list_lookup_imap in Hnd.
    destruct (components !! j); [|done]. by injection Hnd as <-.
  - intros j nd Hnd. unfold createNodes in Hnd. rewrite list_lookup_imap in Hnd.
    destruct (components !! j); [|done]. by injection Hnd as <-.
  - intros j nd Hnd. unfold createNodes in Hnd. rewrite list_lookup_imap in Hnd.
    destruct (components !! j); [|done]. by injection Hnd as <-.
  - done.
Qed.

Lemma link_lookup (store : list TreeNode) k p lv j nd' :
  p <> k ->
  alter (fun q => set_children (children q ++ [k]) q) p
        (alter (set_parent_level p lv) k store) !! j = Some nd' ->
  exists nd, store !! j = Some nd /\
    nd' = if decide (j = p) then set_children (children nd ++ [k]) nd
          else if decide (j = k) then set_parent_level p lv nd
          else nd.
Proof.
  intros Hpk. destruct (decide (j = p)) as [->|Hjp].
  - rewrite list_lookup_alter_eq, list_lookup_alter_ne by done.
    destruct (store !! p) as [nd|]; [|done]. intros [= <-]. eauto.
  - rewrite list_lookup_alter_ne by done. destruct (decide (j = k)) as [->|Hjk].
    + rewrite list_lookup_alter_eq. destruct (store !! k) as [nd|]; [|done].
      intros [= <-]. eauto.
    + rewrite list_lookup_alter_ne by done. eauto.
Qed.

Lemma link_levelOf (store : list TreeNode) k p lv q :
  p <> k -> q <> k ->
  levelOf (alter (fun q => set_children (children q ++ [k]) q) p
                 (alter (set_parent_level p lv) k store)) q = levelOf store q.
Proof.
  intros Hpk Hqk. unfold levelOf.
  destruct (alter _ p _ !! q) as [nd'|] eqn:Hq.
  - apply link_lookup in Hq as (nd & Hnd & ->); [|done]. rewrite Hnd.
    rewrite (decide_False (P := q = k)) by done. by case_decide.
  - destruct (store !! q) as [nd|] eqn:Hnd; [|done]. exfalso.
    apply lookup_ge_None in Hq. rewrite !length_alter in Hq.
    apply lookup_lt_Some in Hnd. lia.
Qed.

Lemma filter_seq_S (P : nat -> Prop) `{!forall x, Decision (P x)} k :
  filter P (seq 0 (S k)) = filter P (seq 0 k) ++ (if decide (P k) then [k] else []).
Proof.
  rewrite seq_S, filter_app. simpl. f_equal.
Qed.

Lemma LinkInv_step k t c :
  LinkInv k t -> components !! k = Some c ->
  LinkInv (S k) (linkNode doc (createNodeMap components) t c).
Proof.
  intros [Hlen Hel Hpar Hlev Hch Hroots] Hc.
  unfold linkNode.
  rewrite (createNodeMap_lookup components k c components_NoDup Hc).
  assert (Hpk : ComponentTreeView.findParentComponent doc (element c) ≫=
                  (fun parentElement => createNodeMap components !! parentElement)
                = parentRef k).
  { unfold parentRef. by rewrite Hc. }
  rewrite Hpk. destruct (parentRef k) as [p|] eqn:Hp.
  - pose proof (parentRef_lt _ _ Hp) as Hlt.
    assert (Hne : p <> k) by lia.
    split; cbn [nodes rootNodes].
    + by rewrite !length_alter.
    + intros j nd' c' Hnd' Hc'.
      apply link_lookup in Hnd' as (nd & Hnd & ->); [|done].
      rewrite <- (Hel j nd c' Hnd Hc'). by repeat case_decide.
    + intros j nd' Hnd'.
      apply link_lookup in Hnd' as (nd & Hnd & ->); [|done].
      pose proof (Hpar j nd Hnd) as Hpj.
      destruct (decide (j = p)) as [->|Hjp].
      * simpl. rewrite Hpj. rewrite decide_True by lia. by rewrite decide_True by lia.
      * destruct (decide (j = k)) as [->|Hjk].
        -- simpl. by rewrite decide_True by lia.
        -- rewrite Hpj. repeat case_decide; try done; lia.
    + intros j nd' Hnd'. pose proof Hnd' as Hnd''.
      apply link_lookup in Hnd' as (nd & Hnd & ->); [|done].
      pose proof (Hpar j nd Hnd) as Hpj. pose proof (Hlev j nd Hnd) as Hlj.
      destruct (decide (j = p)) as [->|Hjp].
      * simpl. rewrite Hlj. destruct (parent nd) as [q|] eqn:Hq; [|done].
        rewrite link_levelOf; [done|done|].
        rewrite decide_True in Hpj by lia. symmetry in Hpj.
        apply parentRef_lt in Hpj. lia.
      * destruct (decide (j = k)) as [->|Hjk].
        -- simpl. by rewrite link_levelOf.
        -- rewrite Hlj. destruct (parent nd) as [q|] eqn:Hq; [|done].
           rewrite link_levelOf; [done|done|].
           intros ->. case_decide; [|done]. symmetry in Hpj.
           apply parentRef_lt in Hpj. lia.
    + intros j nd' Hnd'.
      apply link_lookup in Hnd' as (nd & Hnd & ->); [|done].
      rewrite filter_seq_S. pose proof (Hch j nd Hnd) as Hcj.
      destruct (decide (j = p)) as [->|Hjp].
      * simpl. rewrite Hcj. by rewrite decide_True.
      * rewrite (decide_False (P := parentRef k = Some j)) by congruence.
        rewrite app_nil_r. by case_decide.
    + rewrite filter_seq_S, Hroots.
      rewrite (decide_False (P := parentRef k = None)) by congruence.
      by rewrite app_nil_r.
  - split; cbn [nodes rootNodes].
    + done.
    + done.
    + intros j nd Hnd. rewrite (Hpar j nd Hnd).
      destruct (decide (j = k)) as [->|Hjk].
      * rewrite decide_False by lia. rewrite decide_True by lia. done.
      * repeat case_decide; try done; lia.
    + done.
    + intros j nd Hnd. rewrite filter_seq_S, (Hch j nd Hnd).
      rewrite (decide_False (P := parentRef k = Some j)) by congruence.
      by rewrite app_nil_r.
    + rewrite filter_seq_S, Hroots. by rewrite decide_True.
Qed.

Lemma LinkInv_take k :
  k <= length components ->
  LinkInv k (foldl (linkNode doc (createNodeMap components))
                   (mkTree (createNodes components) []) (take k components)).
Proof.
  induction k as [|k IH]; intros Hk.
  - rewrite take_0. apply LinkInv_init.
  - destruct (lookup_lt_is_Some_2 components k ltac:(lia)) as [c Hc].
    rewrite (take_S_r _ _ _ Hc), foldl_app. simpl.
    apply LinkInv_step; [|done]. apply IH. lia.
Qed.

Lemma LinkInv_linked :
  LinkInv (length components)
          (foldl (linkNode doc (createNodeMap components))
                 (mkTree (createNodes components) []) components).
Proof.
  pose proof (LinkInv_take (length components) ltac:(lia)) as H.
  by rewrite take_ge in H by lia.
Qed.


(** ** The sorting pass *)

(** The nodes the second loop has put below node [j], and at the top. *)
Definition childRefs (j : nat) : list nat :=
  filter (fun c => parentRef c = Some j) (seq 0 (length components)).

Definition rootRefs : list nat :=
  filter (fun c => parentRef c = None) (seq 0 (length components)).

(** The node [k] parent links above node [j]. *)
Fixpoint ancestorRef (k j : nat) : option nat :=
  match k with
  | 0 => Some j
  | S k' => ancestorRef k' j ≫= parentRef
  end.

(** Node [j] is in [array] or below one of its nodes. *)
Definition reaches (array : list nat) (j : nat) : Prop :=
  exists k a, ancestorRef k j = Some a /\ a ∈ array.

Lemma parentRef_childRefs c x : parentRef c = Some x <-> c ∈ childRefs x.
Proof.
  unfold childRefs. rewrite list_elem_of_filter, elem_of_seq. split; [|tauto].
  intros Hp. split; [done|].
  destruct (parentRef_Some _ _ Hp) as (cc & _ & Hc%lookup_lt_Some & _). lia.
Qed.

Lemma ancestorRef_shift k j : ancestorRef (S k) j = parentRef j ≫= ancestorRef k.
Proof.
  induction k as [|k IH].
  - simpl. by destruct (parentRef j).
  - change (ancestorRef (S (S k)) j) with (ancestorRef (S k) j ≫= parentRef).
    rewrite IH. by destruct (parentRef j).
Qed.

Lemma reaches_rootRefs j : j < length components -> reaches rootRefs j.
Proof.
  induction j as [j IH] using lt_wf_ind. intros Hj.
  destruct (parentRef j) as [p|] eqn:Hp.
  - pose proof (parentRef_lt _ _ Hp) as Hlt.
    destruct (IH p Hlt ltac:(lia)) as (k & a & Hk & Ha).
    exists (S k), a. split; [|done]. by rewrite ancestorRef_shift, Hp.
  - exists 0, j. split; [done|]. apply list_elem_of_filter. split; [done|].
    apply elem_of_seq. lia.
Qed.

(** One round of the loop over the sorted array. *)
Definition visit (depth : nat) (store : list TreeNode) (node : nat) : list TreeNode :=
  match store !! node with
  | Some n =>
      if decide (0 < length (children n)) then
        let '(store', sortedChildren) :=
          sortNodesByDOMOrder depth store (children n) in
        alter (set_children sortedChildren) node store'
      else store
  | None => store
  end.

Lemma sortNodesByDOMOrder_S depth store array :
  sortNodesByDOMOrder (S depth) store array =
  (foldl (visit depth) store (sort (byDOMOrder store) array),
   sort (byDOMOrder store) array).
Proof. done. Qed.

Lemma set_children_same n : set_children (children n) n = n.
Proof. by destruct n. Qed.

Lemma set_children_twice l l' n :
  set_children l (set_children l' n) = set_children l n.
Proof. by destruct n. Qed.

Section Linked.

Variable t : Tree.
Hypothesis t_inv : LinkInv (length components) t.

Lemma linked_lookup j :
  j < length components ->
  exists nd c, nodes t !! j = Some nd /\ components !! j = Some c /\
    node_element nd = element c.
Proof.
  intros Hj.
  destruct (lookup_lt_is_Some_2 (nodes t) j) as [nd Hnd];
    [by rewrite (inv_length _ _ t_inv)|].
  destruct (lookup_lt_is_Some_2 components j Hj) as [c Hc].
  exists nd, c. split_and!; [done|done|]. by eapply (inv_element _ _ t_inv).
Qed.

Lemma linked_parentRef j nd :
  nodes t !! j = Some nd -> parent nd = parentRef j.
Proof.
  intros Hnd. rewrite (inv_parent _ _ t_inv j nd Hnd).
  rewrite decide_True; [done|].
  rewrite <- (inv_length _ _ t_inv). by eapply lookup_lt_Some.
Qed.

Lemma linked_distinct a b :
  a < length components -> b < length components ->
  elementOf (nodes t) a = elementOf (nodes t) b -> a = b.
Proof.
  intros Ha Hb.
  destruct (linked_lookup a Ha) as (na & ca & Hna & Hca & Hea).
  destruct (linked_lookup b Hb) as (nb & cb & Hnb & Hcb & Heb).
  unfold elementOf. rewrite Hna, Hnb, Hea, Heb. intros Heq.
  apply (NoDup_lookup (element <$> components) a b (element ca) components_NoDup).
  - by rewrite list_lookup_fmap, Hca.
  - by rewrite list_lookup_fmap, Hcb, Heq.
Qed.

(** *** Levels bound the nesting *)

Lemma linked_levelOf j nd :
  nodes t !! j = Some nd ->
  levelOf (nodes t) j = match parentRef j with
                        | Some p => levelOf (nodes t) p + 1
                        | None => 0
                        end.
Proof.
  intros Hnd. unfold levelOf at 1. rewrite Hnd.
  by rewrite (inv_level _ _ t_inv j nd Hnd), (linked_parentRef j nd Hnd).
Qed.

Lemma levelOf_le j : j < length components -> levelOf (nodes t) j <= j.
Proof.
  induction j as [j IH] using lt_wf_ind. intros Hj.
  destruct (linked_lookup j Hj) as (nd & c & Hnd & _ & _).
  rewrite (linked_levelOf j nd Hnd).
  destruct (parentRef j) as [p|] eqn:Hp; [|lia].
  pose proof (parentRef_lt _ _ Hp) as Hlt.
  specialize (IH p Hlt ltac:(lia)). lia.
Qed.

Lemma levelOf_child c x :
  parentRef c = Some x -> levelOf (nodes t) c = levelOf (nodes t) x + 1.
Proof.
  intros Hp. pose proof Hp as [_ Hc%elem_of_seq]%parentRef_childRefs%list_elem_of_filter.
  destruct (linked_lookup c ltac:(lia)) as (nd & _ & Hnd & _ & _).
  by rewrite (linked_levelOf c nd Hnd), Hp.
Qed.

(** *** What the pass keeps and what it establishes *)

Definition childrenSorted (store : list TreeNode) (j : nat) : Prop :=
  forall nd, store !! j = Some nd ->
    children nd = sort (byDOMOrder (nodes t)) (childRefs j).

Record SortInv (store : list TreeNode) : Prop := {
  si_length : length store = length components;
  si_node : forall j nd,
    store !! j = Some nd ->
    exists nd0, nodes t !! j = Some nd0 /\
      nd = set_children (children nd) nd0 /\
      (children nd = childRefs j \/
       children nd = sort (byDOMOrder (nodes t)) (childRefs j))
}.

Lemma SortInv_linked : SortInv (nodes t).
Proof.
  split; [apply (inv_length _ _ t_inv)|].
  intros j nd Hnd. exists nd. split_and!; [done| |].
  - by rewrite set_children_same.
  - left. apply (inv_children _ _ t_inv j nd Hnd).
Qed.

Lemma SortInv_elementOf store a :
  SortInv store -> elementOf store a = elementOf (nodes t) a.
Proof.
  intros [Hlen Hnode]. unfold elementOf.
  destruct (store !! a) as [nd|] eqn:Hnd.
  - destruct (Hnode a nd Hnd) as (nd0 & -> & -> & _). by destruct nd0.
  - apply lookup_ge_None in Hnd.
    rewrite (lookup_ge_None_2 (nodes t)); [done|].
    rewrite (inv_length _ _ t_inv). lia.
Qed.

Lemma SortInv_byDOMOrder store a b :
  SortInv store -> byDOMOrder store a b = byDOMOrder (nodes t) a b.
Proof.
  intros Hinv. unfold byDOMOrder. by rewrite !(SortInv_elementOf store).
Qed.

Lemma SortInv_alter store x :
  SortInv store ->
  SortInv (alter (set_children (sort (byDOMOrder (nodes t)) (childRefs x))) x store).
Proof.
  intros [Hlen Hnode]. split; [by rewrite length_alter|].
  intros j nd'. destruct (decide (j = x)) as [->|Hne].
  - rewrite list_lookup_alter_eq. destruct (store !! x) as [nd|] eqn:Hnd; [|done].
    intros [= <-]. destruct (Hnode x nd Hnd) as (nd0 & Hnd0 & Heq & _).
    exists nd0. split_and!; [done| |by right].
    rewrite Heq. by destruct nd0.
  - rewrite list_lookup_alter_ne by done. apply Hnode.
Qed.

Lemma childrenSorted_alter store x j :
  childrenSorted store j ->
  childrenSorted
    (alter (set_children (sort (byDOMOrder (nodes t)) (childRefs x))) x store) j.
Proof.
  intros Hj nd'. destruct (decide (j = x)) as [->|Hne].
  - rewrite list_lookup_alter_eq. destruct (store !! x) as [nd|]; [|done].
    intros [= <-]. by destruct nd.
  - rewrite list_lookup_alter_ne by done. apply Hj.
Qed.

Lemma childrenSorted_alter_eq store x :
  childrenSorted
    (alter (set_children (sort (byDOMOrder (nodes t)) (childRefs x))) x store) x.
Proof.
  intros nd'. rewrite list_lookup_alter_eq. destruct (store !! x) as [nd|]; [|done].
  intros [= <-]. by destruct nd.
Qed.

(** With nesting bound [depth], a call on an array whose nodes lie at
    most [depth] levels above the deepest possible level returns the
    array sorted and leaves every node of the array, and every node below
    one of them, with a sorted children array. *)
Definition SortSpec (depth : nat) : Prop :=
  forall store array,
    SortInv store ->
    (forall x, x ∈ array ->
       x < length components /\
       length components < depth + levelOf (nodes t) x) ->
    exists store',
      sortNodesByDOMOrder depth store array =
        (store', sort (byDOMOrder (nodes t)) array) /\
      SortInv store' /\
      (forall j, childrenSorted store j -> childrenSorted store' j) /\
      (forall j, reaches array j -> childrenSorted store' j).

Lemma visit_spec depth store x :
  SortSpec depth -> SortInv store ->
  x < length components ->
  length components < S depth + levelOf (nodes t) x ->
  SortInv (visit depth store x) /\
  (forall j, childrenSorted store j -> childrenSorted (visit depth store x) j) /\
  childrenSorted (visit depth store x) x /\
  (forall j, reaches (childRefs x) j -> childrenSorted (visit depth store x) j).
Proof.
  intros IH Hinv Hx Hfuel. unfold visit.
  destruct (store !! x) as [nd|] eqn:Hnd.
  2:{ apply lookup_ge_None in Hnd. rewrite (si_length _ Hinv) in Hnd. lia. }
  destruct (si_node _ Hinv x nd Hnd) as (nd0 & Hnd0 & Hnd_eq & Hch).
  assert (Hperm : children nd ≡ₚ childRefs x).
  { destruct Hch as [->| ->]; [done|apply sort_Permutation]. }
  assert (Hsort : sort (byDOMOrder (nodes t)) (children nd) =
                  sort (byDOMOrder (nodes t)) (childRefs x)).
  { destruct Hch as [->| ->]; [done|].
    apply sort_idempotent; [apply byDOMOrder_total|apply byDOMOrder_trans]. }
  case_decide as Hlen.
  - destruct (IH store (children nd) Hinv) as (store' & Heq & Hinv' & Hkeep & Hreach).
    { intros c Hc. rewrite Hperm in Hc. pose proof Hc as Hp%parentRef_childRefs.
      apply list_elem_of_filter in Hc as [_ Hc%elem_of_seq].
      split; [lia|]. rewrite (levelOf_child c x Hp). lia. }
    rewrite Heq, Hsort. split_and!.
    + by apply SortInv_alter.
    + intros j Hj. by apply childrenSorted_alter, Hkeep.
    + apply childrenSorted_alter_eq.
    + intros j (k & a & Hk & Ha). apply childrenSorted_alter, Hreach.
      exists k, a. split; [done|]. by rewrite Hperm.
  - assert (Hnil : children nd = []).
    { destruct (children nd); [done|simpl in Hlen; lia]. }
    rewrite Hnil in Hperm. symmetry in Hperm. apply Permutation_nil_r in Hperm.
    split_and!; [done|done| |].
    + intros nd' Hnd'. rewrite Hnd in Hnd'. injection Hnd' as <-.
      by rewrite Hnil, Hperm.
    + intros j (k & a & _ & Ha). rewrite Hperm in Ha. by apply elem_of_nil in Ha.
Qed.

Lemma foldl_visit_spec depth array :
  SortSpec depth -> forall store,
  SortInv store ->
  (forall x, x ∈ array ->
     x < length components /\
     length components < S depth + levelOf (nodes t) x) ->
  SortInv (foldl (visit depth) store array) /\
  (forall j, childrenSorted store j ->
     childrenSorted (foldl (visit depth) store array) j) /\
  (forall x, x ∈ array ->
     childrenSorted (foldl (visit depth) store array) x /\
     forall j, reaches (childRefs x) j ->
       childrenSorted (foldl (visit depth) store array) j).
Proof.
  intros IH. induction array as [|x array IHa]; intros store Hinv Hall; simpl.
  - split_and!; [done|done|]. intros x Hx. by apply elem_of_nil in Hx.
  - destruct (Hall x) as [Hx Hfuel]; [apply elem_of_cons; by left|].
    destruct (visit_spec depth store x IH Hinv Hx Hfuel)
      as (Hinv1 & Hkeep1 & Hx1 & Hreach1).
    destruct (IHa (visit depth store x) Hinv1) as (Hinv2 & Hkeep2 & Hall2).
    { intros y Hy. apply Hall. apply elem_of_cons. by right. }
    split_and!; [done|auto|].
    intros y [->|Hy]%elem_of_cons; [|by apply Hall2].
    split; [by apply Hkeep2|]. intros j Hj. by apply Hkeep2, Hreach1.
Qed.

Lemma sortNodesByDOMOrder_spec depth : SortSpec depth.
Proof.
  induction depth as [|depth IH]; intros store array Hinv Hall.
  - destruct array as [|x array].
    + exists store. split_and!; [done|done|done|].
      intros j (k & a & _ & Ha). by apply elem_of_nil in Ha.
    + destruct (Hall x) as [Hx Hfuel]; [apply elem_of_cons; by left|].
      pose proof (levelOf_le x Hx). lia.
  - rewrite sortNodesByDOMOrder_S.
    rewrite (sort_ext _ (byDOMOrder (nodes t)))
      by (intros a b; by apply SortInv_byDOMOrder).
    set (sorted := sort (byDOMOrder (nodes t)) array).
    assert (Hsorted : forall a, a ∈ sorted <-> a ∈ array).
    { intros a. unfold sorted. by rewrite sort_Permutation. }
    destruct (foldl_visit_spec depth sorted IH store Hinv) as (Hinv' & Hkeep & Hdone).
    { intros x Hx. by apply Hall, Hsorted. }
    eexists. split_and!; [done|done|done|].
    intros j (k & a & Hk & Ha%Hsorted).
    destruct k as [|k]; simpl in Hk.
    + injection Hk as ->. by apply Hdone.
    + destruct (ancestorRef k j) as [a'|] eqn:Hk'; [|done]. simpl in Hk.
      apply (Hdone a Ha). exists k, a'. split; [done|]. by apply parentRef_childRefs.
Qed.

(** The pass as [buildHierarchy] runs it: it returns the roots sorted and
    leaves every children array sorted. *)
Lemma linked_sort :
  exists store',
    sortNodesByDOMOrder (S (length (nodes t))) (nodes t) (rootNodes t) =
      (store', sort (byDOMOrder (nodes t)) rootRefs) /\
    SortInv store' /\
    forall j, childrenSorted store' j.
Proof.
  destruct (sortNodesByDOMOrder_spec (S (length (nodes t))) (nodes t) (rootNodes t))
    as (store' & Heq & Hinv & _ & Hreach).
  - apply SortInv_linked.
  - intros x. rewrite (inv_roots _ _ t_inv).
    intros [_ Hx%elem_of_seq]%list_elem_of_filter.
    rewrite (inv_length _ _ t_inv). lia.
  - exists store'. split_and!; [|done|].
    { rewrite Heq. unfold rootRefs. by rewrite (inv_roots _ _ t_inv). }
    intros j. destruct (decide (j < length components)) as [Hj|Hj].
    + apply Hreach. rewrite (inv_roots _ _ t_inv). by apply reaches_rootRefs.
    + intros nd Hnd%lookup_lt_Some. rewrite (si_length _ Hinv) in Hnd. lia.
Qed.

End Linked.

(** ** The result *)

Hypothesis components_inspectable :
  forall c, c ∈ components -> hasAllProperties doc (element c) = true.

Lemma sorted_in_document_order t store' roots
  (P : nat -> Prop) `{!forall x, Decision (P x)} :
  LinkInv (length components) t -> SortInv t store' ->
  siblingsInDocumentOrder (mkTree store' roots)
    (sort (byDOMOrder (nodes t)) (filter P (seq 0 (length components)))).
Proof.
  intros Hinv Hsi. unfold siblingsInDocumentOrder. cbn [nodes].
  set (l := filter P (seq 0 (length components))).
  assert (Hrange : forall a, a ∈ sort (byDOMOrder (nodes t)) l ->
                             a < length components).
  { intros a. rewrite sort_Permutation. unfold l.
    intros [_ Ha%elem_of_seq]%list_elem_of_filter. lia. }
  apply (StronglySorted_fmap _ (fun a b => docPrecedes (elementOf store' a)
                                             (elementOf store' b))).
  { intros a b. done. }
  eapply StronglySorted_strengthen.
  - apply sort_sorted; [apply byDOMOrder_total|apply byDOMOrder_trans].
  - rewrite sort_Permutation. apply NoDup_filter, NoDup_seq.
  - intros a b Ha%Hrange Hb%Hrange Hne Hle. cbv beta in Hle.
    rewrite !(SortInv_elementOf t Hinv store') by done.
    apply byDOMOrder_docPrecedes; [done|].
    intros Heq. by apply Hne, (linked_distinct t Hinv).
Qed.

(** The builder on any duplicate-free list of inspectable components in
    which parents stand before their children. *)
Lemma buildHierarchy_well_formed :
  WellFormedHierarchy components (buildHierarchy doc components).
Proof.
  unfold buildHierarchy.
  set (linked := foldl _ _ components).
  assert (Hinv : LinkInv (length components) linked) by apply LinkInv_linked.
  destruct (linked_sort linked Hinv) as (store' & -> & Hsi & Hsorted).
  assert (Hnode : forall j nd, store' !! j = Some nd ->
            exists nd0 c, nodes linked !! j = Some nd0 /\ components !! j = Some c /\
              node_element nd = element c /\ parent nd = parentRef j /\
              level nd = level nd0 /\ level nd0 = levelOf (nodes linked) j /\
              children nd ≡ₚ childRefs j).
  { intros j nd Hnd.
    destruct (si_node _ _ Hsi j nd Hnd) as (nd0 & Hnd0 & Heq & _).
    pose proof (lookup_lt_Some _ _ _ Hnd0) as Hj. rewrite (inv_length _ _ Hinv) in Hj.
    destruct (lookup_lt_is_Some_2 components j Hj) as [c Hc].
    exists nd0, c. split_and!; [done|done| | | | |].
    - rewrite <- (inv_element _ _ Hinv j nd0 c Hnd0 Hc), Heq. by destruct nd0.
    - rewrite <- (linked_parentRef linked Hinv j nd0 Hnd0), Heq. by destruct nd0.
    - rewrite Heq. by destruct nd0.
    - unfold levelOf. by rewrite Hnd0.
    - rewrite (Hsorted j nd Hnd). apply sort_Permutation. }
  assert (Hlookup : forall j, j < length components -> is_Some (store' !! j)).
  { intros j Hj. apply lookup_lt_is_Some_2. by rewrite (si_length _ _ Hsi). }
  split; cbn [nodes rootNodes].
  - apply list_eq. intros j. rewrite !list_lookup_fmap.
    destruct (store' !! j) as [nd|] eqn:Hnd.
    + destruct (Hnode j nd Hnd) as (_ & c & _ & Hc & Hel & _).
      rewrite Hc. simpl. by rewrite Hel.
    + apply lookup_ge_None in Hnd. rewrite (si_length _ _ Hsi) in Hnd.
      by rewrite (lookup_ge_None_2 components) by lia.
  - intros r nd p Hnd Hpar.
    destruct (Hnode r nd Hnd) as (nd0 & c & Hnd0 & Hc & Hel & Hpr & Hlv & Hlv0 & _).
    rewrite Hpar in Hpr. symmetry in Hpr.
    pose proof (parentRef_range _ _ Hpr) as Hp.
    destruct (parentRef_Some _ _ Hpr) as (c' & pc & Hc' & Hpc & Hfind).
    assert (c' = c) as -> by congruence.
    destruct (Hlookup p Hp) as [pn Hpn].
    destruct (Hnode p pn Hpn) as (pn0 & pc' & Hpn0 & Hpc' & Hpel & _ & Hplv & Hplv0 & Hpch).
    assert (pc' = pc) as -> by congruence.
    exists pn. split_and!; [done| | |].
    + rewrite Hel, Hpel. unfold nearestInspectableAncestor.
      unfold KeyboardNavigator.findParentComponent in Hfind.
      destruct (parentElement (element c)) as [a|]; [|done].
      apply climb_firstInspectable; [done|].
      apply components_inspectable. by eapply list_elem_of_lookup_2.
    + rewrite Hlv, Hlv0, Hplv, Hplv0. by apply levelOf_child.
    + rewrite Hpch. by apply parentRef_childRefs.
  - intros r nd Hnd Hpar.
    destruct (Hnode r nd Hnd) as (nd0 & c & Hnd0 & Hc & _ & Hpr & Hlv & Hlv0 & _).
    rewrite Hpar in Hpr. split.
    + rewrite Hlv, Hlv0, (linked_levelOf linked Hinv r nd0 Hnd0). by rewrite <- Hpr.
    + rewrite sort_Permutation. apply list_elem_of_filter. split; [done|].
      apply elem_of_seq. apply lookup_lt_Some in Hc. lia.
  - intros p pn c Hpn Hc.
    destruct (Hnode p pn Hpn) as (_ & _ & _ & _ & _ & _ & _ & _ & Hpch).
    rewrite Hpch in Hc. pose proof Hc as Hpr%parentRef_childRefs.
    apply list_elem_of_filter in Hc as [_ Hc%elem_of_seq].
    destruct (Hlookup c ltac:(lia)) as [cn Hcn].
    destruct (Hnode c cn Hcn) as (_ & _ & _ & _ & _ & Hcp & _).
    exists cn. split; [done|]. by rewrite Hcp.
  - intros r. rewrite sort_Permutation.
    intros [Hpr Hr%elem_of_seq]%list_elem_of_filter.
    destruct (Hlookup r ltac:(lia)) as [nd Hnd].
    destruct (Hnode r nd Hnd) as (_ & _ & _ & _ & _ & Hp & _).
    exists nd. split; [done|]. by rewrite Hp.
  - by apply sorted_in_document_order.
  - intros p pn Hpn. rewrite (Hsorted p pn Hpn).
    by apply sorted_in_document_order.
Qed.

(** The parent link of the node made for component [r]. *)
Lemma buildHierarchy_parent r nd :
  nodes (buildHierarchy doc components) !! r = Some nd ->
  exists c, components !! r = Some c /\ node_element nd = element c /\
            parent nd = parentRef r.
Proof.
  unfold buildHierarchy.
  set (linked := foldl _ _ components).
  assert (Hinv : LinkInv (length components) linked) by apply LinkInv_linked.
  destruct (linked_sort linked Hinv) as (store' & -> & Hsi & _).
  cbn [nodes]. intros Hnd.
  destruct (si_node _ _ Hsi r nd Hnd) as (nd0 & Hnd0 & Heq & _).
  pose proof (lookup_lt_Some _ _ _ Hnd0) as Hr. rewrite (inv_length _ _ Hinv) in Hr.
  destruct (lookup_lt_is_Some_2 components r Hr) as [c Hc].
  exists c. split_and!; [done| |].
  - rewrite <- (inv_element _ _ Hinv r nd0 c Hnd0 Hc), Heq. by destruct nd0.
  - rewrite <- (linked_parentRef linked Hinv r nd0 Hnd0), Heq. by destruct nd0.
Qed.

End Hierarchy.

Section HierarchyOfDiscovery.
Import PropertyAccessor KeyboardNavigator ComponentTreeView.

Lemma getAllComponents_elements doc :
  element <$> DevtoolsSystem.getAllComponents doc =
  filter (fun e => hasAllProperties doc e = true) (getAllComponentsInOrder doc).
Proof.
  unfold DevtoolsSystem.getAllComponents.
  induction (getAllComponentsInOrder doc) as [|e l IH]; [done|].
  simpl. rewrite !filter_cons. simpl.
  assert (Heq : (truthy (getFilename doc e) && truthy (getSourceLine doc e)
                 && truthy (getSourcePath doc e)) = hasAllProperties doc e).
  { unfold hasAllProperties.
    by destruct (truthy (getFilename doc e)), (truthy (getSourceLine doc e)),
                (truthy (getSourcePath doc e)). }
  repeat case_decide; try congruence.
  simpl. by rewrite <- IH.
Qed.

Lemma getAllComponents_sorted doc :
  StronglySorted docPrecedes (element <$> DevtoolsSystem.getAllComponents doc).
Proof.
  rewrite getAllComponents_elements, getAllComponentsInOrder_spec.
  apply sorted_filter, depthFirstOrder_sorted.
Qed.

Lemma getAllComponents_inspectable doc c :
  c ∈ DevtoolsSystem.getAllComponents doc -> hasAllProperties doc (element c) = true.
Proof.
  intros Hc. apply getAllComponents_element, elem_of_map. eauto.
Qed.

(** A list in rendered document order has every parent before its
    children. *)
Lemma sorted_parentsFirst doc components :
  StronglySorted docPrecedes (element <$> components) -> parentsFirst doc components.
Proof.
  intros Hs i j pc c Hpc Hc Hpar.
  apply findParentComponent_below in Hpar as (l & Hl & Hel).
  apply (sorted_lookup_lt (element <$> components) i j (element pc) (element c)).
  - done.
  - by rewrite list_lookup_fmap, Hpc.
  - by rewrite list_lookup_fmap, Hc.
  - rewrite Hel. by apply docPrecedes_descendant.
Qed.

(** The tree view hands the builder what discovery returns: a list in
    document order, for which the hierarchy is well formed. *)
Lemma getAllComponents_hierarchy doc :
  WellFormedHierarchy doc (DevtoolsSystem.getAllComponents doc)
    (buildHierarchy doc (DevtoolsSystem.getAllComponents doc)).
Proof.
  apply buildHierarchy_well_formed.
  - apply sorted_NoDup, getAllComponents_sorted.
  - apply sorted_parentsFirst, getAllComponents_sorted.
  - apply getAllComponents_inspectable.
Qed.

(** Among the components discovery returns, the node map holds an
    element exactly when it has all three properties. *)
Lemma getAllComponents_nodeMap doc a :
  is_Some (createNodeMap (DevtoolsSystem.getAllComponents doc) !! a) <->
  hasAllProperties doc a = true.
Proof.
  split.
  - intros [p (pc & Hpc & <-)%createNodeMap_Some].
    apply getAllComponents_inspectable. by eapply list_elem_of_lookup_2.
  - intros Hall. apply (getAllComponents_element doc a) in Hall.
    apply elem_of_map in Hall as (pc & -> & Hpc).
    apply list_elem_of_lookup in Hpc as [p Hp]. exists p.
    apply createNodeMap_lookup; [|done]. apply sorted_NoDup, getAllComponents_sorted.
Qed.

End HierarchyOfDiscovery.

(** Scenario A of the specification: A holds B, B holds C. *)
Definition chainDocument : Document :=
  [ Node (tagged "A.scala") [ Node (tagged "B.scala") [ Node (tagged "C.scala") [] ] ] ].

Example scenario_A :
  let t := ComponentTreeView.buildHierarchy chainDocument
             (DevtoolsSystem.getAllComponents chainDocument) in
  rootNodes t = [0] /\
  (children <$> nodes t) = [[1]; [2]; []] /\
  (parent <$> nodes t) = [None; Some 0; Some 1] /\
  (level <$> nodes t) = [0; 1; 2] /\
  (id <$> nodes t) = ["node-0"; "node-1"; "node-2"]%string.
Proof. vm_compute. done. Qed.

(** A component below an element that carries nothing but a source
    path: P has a path but neither file name nor line, so discovery
    leaves it out, and it stands between the components A and C. *)
Definition interruptedDocument : Document :=
  [ Node (tagged "A.scala")
      [ Node (mkAttrs (Some "/src/P.scala"%string) None None)
          [ Node (tagged "C.scala") [] ] ] ].

Section HierarchyClaim.
Import PropertyAccessor KeyboardNavigator ComponentTreeView.

(** The roots as the specification has them (4.2): an element becomes a
    root when it has no inspectable ancestor. *)
Definition rootsHaveNoInspectableAncestor (doc : Document) (t : Tree) : Prop :=
  forall r nd,
    nodes t !! r = Some nd -> parent nd = None ->
    nearestInspectableAncestor doc (node_element nd) = None.

(** The claim as the specification states it: a forest in which the
    parent of a node is the nearest inspectable ancestor of its element,
    and the roots are the nodes of the elements that have none. *)
Definition ClaimedHierarchy (doc : Document) (components : list ComponentInfo)
  (t : Tree) : Prop :=
  WellFormedHierarchy doc components t /\ rootsHaveNoInspectableAncestor doc t.

(** C1, counterexample: on the components discovery returns for
    [interruptedDocument], A and C, the builder makes C a root although
    its nearest inspectable ancestor is A.  [findParentComponent] stops
    at P, the nearest ancestor with a source path; P is no component, so
    the node map has no node for it and C is pushed to the roots. *)
Lemma root_below_path_only_element :
  let components := DevtoolsSystem.getAllComponents interruptedDocument in
  let t := buildHierarchy interruptedDocument components in
  (element <$> components) = [[0]; [0; 0; 0]] /\
  (node_element <$> nodes t) = [[0]; [0; 0; 0]] /\
  KeyboardNavigator.findParentComponent interruptedDocument [0; 0; 0] = Some [0; 0] /\
  hasAllProperties interruptedDocument [0; 0] = false /\
  nearestInspectableAncestor interruptedDocument [0; 0; 0] = Some [0] /\
  rootNodes t = [0; 1] /\
  (parent <$> nodes t) = [None; None] /\
  (level <$> nodes t) = [0; 0] /\
  ~ ClaimedHierarchy interruptedDocument components t.
Proof.
  cbv zeta. split_and!; try by vm_compute.
  intros [_ Hroots].
  specialize (Hroots 1 (mkTreeNode "node-1" [0; 0; 0] "C.scala" "10" "/src/C.scala"
                                   [] None false 0)).
  by vm_compute in Hroots; specialize (Hroots eq_refl eq_refl).
Qed.

(** C1 (amended): for every document, the hierarchy built from the
    components discovery returns is a forest in which a node has a
    parent exactly when the nearest ancestor of its element that carries
    a source path has all three properties: the parent is then the node
    of that ancestor, which is the nearest inspectable ancestor of the
    element, one level above, and lists the node among its children;
    every other node is a root at level 0, also when a farther ancestor
    is inspectable.  The parent and child links agree, and the roots and
    every children array are in rendered document order. *)
Theorem hierarchy_of_discovered_components (doc : Document) :
  let components := DevtoolsSystem.getAllComponents doc in
  let t := buildHierarchy doc components in
  WellFormedHierarchy doc components t /\
  (forall r nd, nodes t !! r = Some nd ->
     match KeyboardNavigator.findParentComponent doc (node_element nd) with
     | Some a =>
         if hasAllProperties doc a
         then exists p pn, parent nd = Some p /\ nodes t !! p = Some pn /\
                           node_element pn = a
         else parent nd = None
     | None => parent nd = None
     end).
Proof.
  cbv zeta. split; [apply getAllComponents_hierarchy|].
  set (components := DevtoolsSystem.getAllComponents doc).
  assert (Hnd : NoDup (element <$> components))
    by apply sorted_NoDup, getAllComponents_sorted.
  assert (Hpf : parentsFirst doc components)
    by apply sorted_parentsFirst, getAllComponents_sorted.
  intros r nd Hr.
  destruct (buildHierarchy_parent doc components Hnd Hpf r nd Hr)
    as (c & Hc & Hel & Hpar).
  rewrite Hpar, Hel. unfold parentRef. rewrite Hc. cbn [mbind option_bind].
  unfold ComponentTreeView.findParentComponent.
  destruct (KeyboardNavigator.findParentComponent doc (element c)) as [a|] eqn:Ha;
    simpl; [|done].
  pose proof (getAllComponents_nodeMap doc a) as Hmap. fold components in Hmap.
  destruct (hasAllProperties doc a) eqn:Hall.
  - destruct (proj2 Hmap eq_refl) as [p Hp]. rewrite Hp.
    destruct (createNodeMap_Some _ _ _ Hp) as (pc & Hpc & Hpel).
    pose proof (getAllComponents_hierarchy doc) as Hwf. fold components in Hwf.
    assert (Hpn : is_Some (nodes (buildHierarchy doc components) !! p)).
    { apply lookup_lt_is_Some_2.
      rewrite <- (length_fmap node_element), (wf_nodes _ _ _ Hwf), length_fmap.
      by eapply lookup_lt_Some. }
    destruct Hpn as [pn Hpn]. exists p, pn. split_and!; [done|done|].
    destruct (buildHierarchy_parent doc components Hnd Hpf p pn Hpn)
      as (pc' & Hpc' & Hpel' & _).
    congruence.
  - destruct (createNodeMap components !! a) as [p|] eqn:Hp; [|done].
    assert (Habs : false = true) by (apply Hmap; eauto). done.
Qed.

End HierarchyClaim.

(* ====================================================================== *)
(** * Change detection *)
(* ====================================================================== *)

Section ChangeDetection.
Import ComponentTreeView.

(** The fingerprint reads nothing but the file name, line and path of
    each component, in order. *)
Lemma generateComponentsHash_metadata (cs1 cs2 : list ComponentInfo) :
  map (fun c => (path c, filename c, line c)) cs1 =
  map (fun c => (path c, filename c, line c)) cs2 ->
  generateComponentsHash cs1 = generateComponentsHash cs2.
Proof.
  intros Heq. unfold generateComponentsHash. f_equal.
  revert cs2 Heq. induction cs1 as [|c1 cs1 IH]; intros [|c2 cs2] Heq; try done.
  simpl in Heq. injection Heq as Hp Hf Hl Hrest. simpl.
  rewrite Hp, Hf, Hl. f_equal. by apply IH.
Qed.

Lemma buildTreeData_cached doc v :
  lastComponentsHash (buildTreeData doc v) =
    Some (generateComponentsHash (DevtoolsSystem.getAllComponents doc)) /\
  is_Some (treeData (buildTreeData doc v)).
Proof.
  unfold buildTreeData.
  destruct (bool_decide (lastComponentsHash v = Some _)) eqn:Hh; simpl.
  - destruct (bool_decide (is_Some (treeData v))) eqn:Ht; simpl.
    + apply bool_decide_eq_true in Hh, Ht. done.
    + eauto.
  - eauto.
Qed.

(** C7: after a build, building again from an element set with the same
    path / file name / line sequence changes nothing: the fingerprint is
    the one remembered, so the tree (with the expanded flags of its
    nodes), the expanded set, the selected node and the render cache all
    stay as they are. *)
Theorem rebuild_is_idempotent (doc doc' : Document) (v : View) :
  map (fun c => (path c, filename c, line c)) (DevtoolsSystem.getAllComponents doc') =
  map (fun c => (path c, filename c, line c)) (DevtoolsSystem.getAllComponents doc) ->
  buildTreeData doc' (buildTreeData doc v) = buildTreeData doc v.
Proof.
  intros Hsame. destruct (buildTreeData_cached doc v) as [Hh Ht].
  unfold buildTreeData at 1.
  rewrite (generateComponentsHash_metadata _ _ Hsame).
  rewrite (bool_decide_eq_true_2 _ Hh), (bool_decide_eq_true_2 _ Ht). done.
Qed.

Lemma rebuild_is_idempotent_witness :
  buildTreeData exampleDocument (buildTreeData exampleDocument initialView) =
  buildTreeData exampleDocument initialView.
Proof. exact (rebuild_is_idempotent exampleDocument exampleDocument initialView eq_refl). Defined.

End ChangeDetection.

(* ====================================================================== *)
(** * Positioning *)
(* ====================================================================== *)

Section Positioning.
Local Open Scope Q_scope.

Lemma Qle_bool_true a b : Qle_bool a b = true -> a <= b.
Proof. apply Qle_bool_iff. Qed.

Lemma overlay_within_viewport (b : Browser) (targetRect : DOMRect) :
  let p := OverlayManager.calculatePosition b targetRect in
  0 <= pos_left p /\ 0 <= pos_top p /\
  pos_left p + pos_width p <= innerWidth b /\
  pos_top p + pos_height p <= innerHeight b.
Proof.
  unfold OverlayManager.calculatePosition. simpl. split_and!.
  - apply Q.le_max_l.
  - apply Q.le_max_l.
  - match goal with |- ?l + Qmin ?w ?r <= _ => pose proof (Q.le_min_r w r) end. lra.
  - match goal with |- ?l + Qmin ?w ?r <= _ => pose proof (Q.le_min_r w r) end. lra.
Qed.

Lemma isPositionWithinViewport_true b position width height margin :
  TooltipManager.isPositionWithinViewport b position width height margin = true ->
  margin <= tip_left position /\ margin <= tip_top position /\
  tip_left position + width <= innerWidth b - margin /\
  tip_top position + height <= innerHeight b - margin.
Proof.
  unfold TooltipManager.isPositionWithinViewport.
  rewrite !andb_true_iff. intros [[[H1 H2] H3] H4].
  split_and!; by apply Qle_bool_true.
Qed.

Lemma clamp_between (lo x hi : Q) : lo <= hi -> lo <= Qmax lo (Qmin x hi) <= hi.
Proof.
  intros H. split; [apply Q.le_max_l|].
  apply Q.max_lub; [done|apply Q.le_min_r].
Qed.

Lemma tooltip_within_margins (b : Browser) (overlayRect : OverlayRect)
  (tooltipWidth tooltipHeight : Q) :
  let margin := inject_Z (orElse (cssTooltipMargin b) 10) in
  let p := TooltipManager.calculateTooltipPosition b overlayRect
             tooltipWidth tooltipHeight in
  tooltipWidth + 2 * margin <= innerWidth b ->
  tooltipHeight + 2 * margin <= innerHeight b ->
  margin <= tip_left p /\ margin <= tip_top p /\
  tip_left p + tooltipWidth <= innerWidth b - margin /\
  tip_top p + tooltipHeight <= innerHeight b - margin.
Proof.
  intros margin p Hw Hh. subst p. unfold TooltipManager.calculateTooltipPosition.
  fold margin.
  destruct (List.find _ _) as [position|] eqn:Hfind.
  - apply find_some in Hfind as [_ Hfits].
    by apply isPositionWithinViewport_true.
  - simpl.
    match goal with
    | |- _ <= Qmax _ (Qmin ?x ?hi) /\ _ <= Qmax _ (Qmin ?y ?hi') /\ _ =>
        destruct (clamp_between margin x hi) as [Hx1 Hx2]; [lra|];
        destruct (clamp_between margin y hi') as [Hy1 Hy2]; [lra|]
    end.
    split_and!; try done; lra.
Qed.

Lemma tooltip_at_least_margin (b : Browser) (overlayRect : OverlayRect)
  (tooltipWidth tooltipHeight : Q) :
  let margin := inject_Z (orElse (cssTooltipMargin b) 10) in
  let p := TooltipManager.calculateTooltipPosition b overlayRect
             tooltipWidth tooltipHeight in
  margin <= tip_left p /\ margin <= tip_top p.
Proof.
  intros margin p. subst p. unfold TooltipManager.calculateTooltipPosition.
  fold margin.
  destruct (List.find _ _) as [position|] eqn:Hfind.
  - apply find_some in Hfind as [_ Hfits].
    apply isPositionWithinViewport_true in Hfits. tauto.
  - simpl. split; apply Q.le_max_l.
Qed.

Lemma tooltip_fits_when_room (b : Browser) (overlayRect : OverlayRect)
  (tooltipWidth tooltipHeight : Q) :
  let margin := inject_Z (orElse (cssTooltipMargin b) 10) in
  let p := TooltipManager.calculateTooltipPosition b overlayRect
             tooltipWidth tooltipHeight in
  0 <= margin ->
  tooltipWidth + margin <= innerWidth b ->
  tooltipHeight + margin <= innerHeight b ->
  tip_left p + tooltipWidth <= innerWidth b /\
  tip_top p + tooltipHeight <= innerHeight b.
Proof.
  intros margin p Hm Hw Hh. subst p. unfold TooltipManager.calculateTooltipPosition.
  fold margin.
  destruct (List.find _ _) as [position|] eqn:Hfind.
  - apply find_some in Hfind as [_ Hfits].
    apply isPositionWithinViewport_true in Hfits. split; lra.
  - simpl.
    match goal with
    | |- Qmax _ (Qmin ?x ?hi) + _ <= _ /\ Qmax _ (Qmin ?y ?hi') + _ <= _ =>
        pose proof (Q.le_min_r x hi) as Hx; pose proof (Q.le_min_r y hi') as Hy;
        destruct (Q.max_spec margin (Qmin x hi)) as [[_ Hx']|[_ Hx']];
        destruct (Q.max_spec margin (Qmin y hi')) as [[_ Hy']|[_ Hy']]
    end;
    rewrite Hx', Hy'; split; lra.
Qed.

(** The fallback placement cannot fit a tooltip wider than the viewport:
    in a 320 x 240 viewport a 400 x 24 tooltip (a long component name) is
    placed at left 10 and ends at 410. *)
Definition smallViewport : Browser :=
  mkBrowser 320 240 (fun _ => mkDOMRect 0 0 0 0) (Some 6%Z) (Some 10%Z).

Lemma tooltip_exceeds_small_viewport :
  let p := TooltipManager.calculateTooltipPosition smallViewport
             (TooltipManager.overlayRectOf smallViewport (mkDOMRect 10 10 50 50))
             400 24 in
  tip_left p == 10 /\ ~ (tip_left p + 400 <= innerWidth smallViewport).
Proof.
  vm_compute. split; [done|]. intros H. by apply H.
Qed.

(** C4 (amended): the overlay rectangle always lies inside the viewport.
    The tooltip is always placed at least a margin from the left and top
    edges; so, for a non-negative margin, its rectangle lies inside the
    viewport exactly when the viewport is at least the tooltip plus one
    margin in each direction. *)
Theorem positions_within_viewport (b : Browser) (targetRect : DOMRect)
  (overlayRect : OverlayRect) (tooltipWidth tooltipHeight : Q) :
  let o := OverlayManager.calculatePosition b targetRect in
  let margin := inject_Z (orElse (cssTooltipMargin b) 10) in
  let p := TooltipManager.calculateTooltipPosition b overlayRect
             tooltipWidth tooltipHeight in
  (0 <= pos_left o /\ 0 <= pos_top o /\
   pos_left o + pos_width o <= innerWidth b /\
   pos_top o + pos_height o <= innerHeight b) /\
  (margin <= tip_left p /\ margin <= tip_top p) /\
  (0 <= margin ->
   (0 <= tip_left p /\ 0 <= tip_top p /\
    tip_left p + tooltipWidth <= innerWidth b /\
    tip_top p + tooltipHeight <= innerHeight b) <->
   (tooltipWidth + margin <= innerWidth b /\
    tooltipHeight + margin <= innerHeight b)).
Proof.
  intros o margin p. split; [apply overlay_within_viewport|].
  destruct (tooltip_at_least_margin b overlayRect tooltipWidth tooltipHeight)
    as [Hl Ht].
  fold margin in Hl, Ht. fold p in Hl, Ht. split; [by split|].
  intros Hm. split.
  - intros (_ & _ & Hw & Hh). split; lra.
  - intros [Hw Hh].
    destruct (tooltip_fits_when_room b overlayRect tooltipWidth tooltipHeight
                Hm Hw Hh) as [Hw' Hh'].
    fold p in Hw', Hh'. split_and!; lra.
Qed.

Definition desktopViewport : Browser :=
  mkBrowser 1280 720 (fun _ => mkDOMRect 0 0 0 0) (Some 6%Z) (Some 10%Z).

Lemma positions_within_viewport_witness :
  let p := TooltipManager.calculateTooltipPosition desktopViewport
             (TooltipManager.overlayRectOf desktopViewport (mkDOMRect 1200 700 100 40))
             120 24 in
  0 <= tip_left p /\ 0 <= tip_top p /\
  tip_left p + 120 <= 1280 /\ tip_top p + 24 <= 720.
Proof.
  refine (proj2 (proj2 (proj2 (positions_within_viewport desktopViewport
            (mkDOMRect 1200 700 100 40)
            (TooltipManager.overlayRectOf desktopViewport (mkDOMRect 1200 700 100 40))
            120 24)) _) _).
  - vm_compute; discriminate.
  - split; vm_compute; discriminate.
Defined.

(** C8: whatever the handle, the pointer position and the viewport, a
    resize step yields a panel at least 300 wide and 400 high. *)
Theorem resize_keeps_minimum_size (b : Browser) (rs : ResizeState)
  (eventX eventY : Q) (panel : PanelStyle) :
  exists style,
    ComponentTreeView.handleResize b (Some rs) eventX eventY (Some panel) = Some style /\
    300 <= style_width style /\ 400 <= style_height style.
Proof.
  unfold ComponentTreeView.handleResize. eexists. split; [reflexivity|].
  simpl. split; apply Q.le_max_l.
Qed.

End Positioning.

(* ====================================================================== *)
(** * Notification *)
(* ====================================================================== *)

Section Notification.
Import DevtoolsState.
Context {X Err : Type}.

(** The errors the callbacks of [l] throw when run one after the other
    from world [w], and the world they leave. *)
Fixpoint thrownBy (c : Change) (l : list (Observer X Err)) (w : World X) : list Err :=
  match l with
  | [] => []
  | o :: l' =>
      match snd (callback o c w) with
      | Some error => [error]
      | None => []
      end ++ thrownBy c l' (fst (callback o c w))
  end.

Definition worldAfter (c : Change) (l : list (Observer X Err)) (w : World X) : World X :=
  foldl (fun w o => fst (callback o c w)) w l.

Definition deliveries (c : Change) (l : list (Observer X Err)) : list (nat * Change) :=
  map (fun o => (observerId o, c)) l.

(** One observer's turn inside [notify]: the callback runs, and an error
    it throws ends up on the console. *)
Definition afterCallback (c : Change) (o : Observer X Err) (s : Sys X Err) : Sys X Err :=
  mkSys (fst (callback o c (world s))) (observers s)
        (console s ++ match snd (callback o c (world s)) with
                      | Some error => [error]
                      | None => []
                      end)
        (notified s) (delivered s ++ [(observerId o, c)]).

Lemma tryCatch_invoke c o (s : Sys X Err) :
  tryCatch (invoke c o) console_error s = (afterCallback c o s, Normal).
Proof.
  unfold tryCatch, invoke, afterCallback, console_error.
  destruct (callback o c (world s)) as [w' [error|]]; simpl; [done|].
  by rewrite app_nil_r.
Qed.

Lemma forEach_tryCatch c l (s : Sys X Err) :
  let r := forEach (fun o => tryCatch (invoke c o) console_error) l s in
  snd r = Normal /\
  world (fst r) = worldAfter c l (world s) /\
  observers (fst r) = observers s /\
  console (fst r) = console s ++ thrownBy c l (world s) /\
  notified (fst r) = notified s /\
  delivered (fst r) = delivered s ++ deliveries c l.
Proof.
  revert s. induction l as [|o l IH]; intros s.
  - simpl. by rewrite !app_nil_r.
  - cbn [forEach]. rewrite tryCatch_invoke.
    destruct (IH (afterCallback c o s)) as (H1 & H2 & H3 & H4 & H5 & H6).
    cbn zeta. split_and!; try done.
    + by rewrite H4; simpl; rewrite <- app_assoc.
    + by rewrite H6; simpl; rewrite <- app_assoc.
Qed.

(** What one call of [notify] does to the store. *)
Lemma notify_outcome (c : Change) (s : Sys X Err) :
  delivered (fst (notify c s)) = delivered s ++ deliveries c (observers s) /\
  world (fst (notify c s)) = worldAfter c (observers s) (world s) /\
  observers (fst (notify c s)) = observers s.
Proof.
  unfold notify.
  match goal with |- context [forEach _ ?l ?s0] =>
    pose proof (forEach_tryCatch c l s0) as H end.
  simpl in H. destruct H as (H1 & H2 & H3 & H4 & H5 & H6).
  split_and!; done.
Qed.

(** C6: [notify] always completes normally; every registered observer is
    invoked, in registration order, whether or not an earlier one threw;
    each thrown error is caught and written to the console. *)
Theorem notify_isolates_observer_failures (c : Change) (s : Sys X Err) :
  snd (notify c s) = Normal /\
  delivered (fst (notify c s)) = delivered s ++ deliveries c (observers s) /\
  console (fst (notify c s)) = console s ++ thrownBy c (observers s) (world s) /\
  world (fst (notify c s)) = worldAfter c (observers s) (world s) /\
  observers (fst (notify c s)) = observers s.
Proof.
  unfold notify.
  match goal with |- context [forEach _ ?l ?s0] =>
    pose proof (forEach_tryCatch c l s0) as H end.
  simpl in H. destruct H as (H1 & H2 & H3 & H4 & H5 & H6).
  split_and!; done.
Qed.

Lemma notify_notified (c : Change) (s : Sys X Err) :
  notified (fst (notify c s)) = notified s ++ [c].
Proof.
  unfold notify.
  match goal with |- context [forEach _ ?l ?s0] =>
    pose proof (forEach_tryCatch c l s0) as H end.
  simpl in H. by destruct H as (H1 & H2 & H3 & H4 & H5 & H6).
Qed.

(** ** Which mutators notify *)

(** The store went from [s] to [s'] calling [notify] with exactly the
    changes [l], each delivered to every observer. *)
Definition notifies (s s' : Sys X Err) (l : list Change) : Prop :=
  notified s' = notified s ++ l /\
  delivered s' = delivered s ++ flat_map (fun c => deliveries c (observers s)) l.

Lemma notifies_nothing (s s' : Sys X Err) :
  notified s' = notified s -> delivered s' = delivered s -> notifies s s' [].
Proof. intros H1 H2. split; simpl; by rewrite app_nil_r. Qed.

Lemma notifies_notify c (s s1 : Sys X Err) :
  notified s1 = notified s -> delivered s1 = delivered s ->
  observers s1 = observers s ->
  notifies s (fst (notify c s1)) [c].
Proof.
  intros H1 H2 H3. split; simpl.
  - by rewrite notify_notified, H1.
  - destruct (notify_outcome c s1) as (Hd & _).
    by rewrite Hd, H2, H3, app_nil_r.
Qed.

Ltac settle_mutator :=
  unfold skip; cbv zeta;
  repeat match goal with
         | |- context [if ?b then _ else _] => destruct b
         end;
  first [ apply notifies_notify; reflexivity
        | apply notifies_nothing; reflexivity ].

(** C5 (amended): the setters of the tree selection, the keyboard
    selection, the modifier keys, the target element and the tooltip
    visibility call [notify] exactly when the new value differs from the
    stored one; [updateMousePosition] calls it on every call, and
    [setKeyboardNavigationActive] on none. *)
Theorem mutators_notify_on_change (s : Sys X Err) :
  (forall active,
     notifies s (fst (setTreeSelectionActive active s))
       (if bool_decide (treeSelectionActive (state s) <> active)
        then [treeSelectionActiveChanged active] else [])) /\
  (forall element,
     notifies s (fst (setTreeSelectedElement element s))
       (if bool_decide (treeSelectedElement (state s) <> element)
        then [treeSelectionChanged element] else [])) /\
  (forall element,
     notifies s (fst (setKeyboardSelectedElement element s))
       (if bool_decide (keyboardSelectedElement (state s) <> element)
        then [keyboardSelectionChanged element (keyboardSelectedElement (state s))]
        else [])) /\
  (forall pressed,
     notifies s (fst (setAltPressed pressed s))
       (if bool_decide (altPressed (state s) <> pressed)
        then [altKeyChanged pressed] else [])) /\
  (forall pressed,
     notifies s (fst (setShiftPressed pressed s))
       (if bool_decide (shiftPressed (state s) <> pressed)
        then [shiftKeyChanged pressed] else [])) /\
  (forall element,
     notifies s (fst (setCurrentTargetElement element s))
       (if bool_decide (currentTargetElement (state s) <> element)
        then [targetElementChanged element (currentTargetElement (state s))]
        else [])) /\
  (forall visible,
     notifies s (fst (setHierarchicalTooltipVisible visible s))
       (if bool_decide (hierarchicalTooltipVisible (state s) <> visible)
        then [hierarchicalTooltipVisibilityChanged visible] else [])) /\
  (forall x y,
     notifies s (fst (updateMousePosition x y s)) [mousePositionChanged x y]) /\
  (forall active,
     notifies s (fst (setKeyboardNavigationActive active s)) []).
Proof.
  split_and!; intros.
  - unfold setTreeSelectionActive. settle_mutator.
  - unfold setTreeSelectedElement. settle_mutator.
  - unfold setKeyboardSelectedElement. settle_mutator.
  - unfold setAltPressed. settle_mutator.
  - unfold setShiftPressed. settle_mutator.
  - unfold setCurrentTargetElement. settle_mutator.
  - unfold setHierarchicalTooltipVisible. settle_mutator.
  - unfold updateMousePosition. settle_mutator.
  - unfold setKeyboardNavigationActive. settle_mutator.
Qed.

End Notification.

(** The claim C5 as stated fails in both directions: with the pointer
    already at (0, 0), [updateMousePosition 0 0] still invokes the
    observer; and [setKeyboardNavigationActive true] changes the flag
    without invoking it. *)
Definition listeningStore : DevtoolsState.Sys unit unit :=
  DevtoolsState.mkSys (initialState, tt)
    [DevtoolsState.mkObserver 1 (fun _ w => (w, None))] [] [] [].

Lemma mutators_that_do_not_compare :
  currentMousePosition (DevtoolsState.state listeningStore) = mkMousePosition 0 0 /\
  DevtoolsState.delivered (fst (DevtoolsState.updateMousePosition 0 0 listeningStore)) =
    [(1, mousePositionChanged 0 0)] /\
  keyboardNavigationActive (DevtoolsState.state listeningStore) = false /\
  keyboardNavigationActive
    (DevtoolsState.state
       (fst (DevtoolsState.setKeyboardNavigationActive true listeningStore))) = true /\
  DevtoolsState.delivered
    (fst (DevtoolsState.setKeyboardNavigationActive true listeningStore)) = [].
Proof. vm_compute. done. Qed.

(* ====================================================================== *)
(** * Selection precedence *)
(* ====================================================================== *)

Section Precedence.
Import PropertyAccessor DevtoolsState OverlayManager.
Context {Err : Type}.
Variable b : Browser.
Variable doc : Document.

Definition overlayOf (s : Sys Overlay Err) : Overlay := snd (world s).

(** The pointer moving to [target] (or off every component, [None]). *)
Definition hover (s : Sys Overlay Err) (target : option Element) : Sys Overlay Err :=
  fst (setCurrentTargetElement target s).

(** While tree selection is active, a target change to another element
    leaves the overlay as it is. *)
Lemma handleStateChange_hover_ignored st ov t h prev :
  treeSelectionActive st = true -> treeSelectedElement st = Some t -> h <> Some t ->
  handleStateChange b doc st (targetElementChanged h prev) ov = ov.
Proof.
  intros Hact Hsel Hne. unfold handleStateChange. rewrite Hact, Hsel. simpl.
  destruct h as [el|]; [|done].
  rewrite bool_decide_eq_false_2; [done|]. congruence.
Qed.

Lemma state_set_currentTargetElement h st :
  treeSelectionActive (set_currentTargetElement h st) = treeSelectionActive st /\
  treeSelectedElement (set_currentTargetElement h st) = treeSelectedElement st /\
  currentTargetElement (set_currentTargetElement h st) = h.
Proof. by destruct st. Qed.

Lemma hover_step (s : Sys Overlay Err) t h :
  observers s = [observer b doc] ->
  treeSelectionActive (state s) = true ->
  treeSelectedElement (state s) = Some t ->
  h <> Some t ->
  overlayOf (hover s h) = overlayOf s /\
  observers (hover s h) = observers s /\
  treeSelectionActive (state (hover s h)) = true /\
  treeSelectedElement (state (hover s h)) = Some t /\
  currentTargetElement (state (hover s h)) = h.
Proof.
  intros Hobs Hact Hsel Hne. unfold hover, setCurrentTargetElement.
  destruct (state_set_currentTargetElement h (state s)) as (Ha & Hs & Hc).
  destruct (bool_decide (currentTargetElement (state s) <> h)).
  - destruct (notify_outcome
                (targetElementChanged h (currentTargetElement (state s)))
                (updState (set_currentTargetElement h) s)) as (_ & Hw & Ho).
    set (n := notify _ _) in *. unfold overlayOf at 1. unfold state at 1 2 3.
    rewrite Hw, Ho. cbn [updState observers world]. rewrite Hobs.
    unfold worldAfter, observer. cbn [foldl callback fst snd].
    unfold overlayOf, state in *. rewrite Ha, Hs, Hc.
    split_and!; try done.
    apply (handleStateChange_hover_ignored _ _ t); congruence.
  - unfold skip. cbn [fst]. unfold overlayOf at 1. unfold state at 1 2 3.
    cbn [fst snd updState world observers].
    unfold overlayOf, state in *. by rewrite Ha, Hs, Hc.
Qed.

(** In the store: with the overlay subscribed, the target changes made
    through [setCurrentTargetElement] while tree selection is active on
    [t] leave the overlay, and the tree selection, as they are. *)
Lemma hovers_in_store (s : Sys Overlay Err) (t : Element)
  (hovered : list (option Element)) :
  observers s = [observer b doc] ->
  treeSelectionActive (state s) = true ->
  treeSelectedElement (state s) = Some t ->
  Forall (fun h => h <> Some t) hovered ->
  let s' := foldl hover s hovered in
  overlayOf s' = overlayOf s /\
  treeSelectionActive (state s') = true /\
  treeSelectedElement (state s') = Some t /\
  observers s' = [observer b doc] /\
  (forall h, last hovered = Some h -> currentTargetElement (state s') = h).
Proof.
  intros Hobs Hact Hsel Hall s'. subst s'. revert Hall.
  induction hovered as [|h l IH] using rev_ind; intros Hall.
  - done.
  - apply Forall_app in Hall as [Hl Hh]. apply Forall_cons in Hh as [Hh _].
    destruct (IH Hl) as (I1 & I2 & I3 & I4 & _).
    rewrite foldl_app. simpl.
    destruct (hover_step (foldl hover s l) t h I4 I2 I3 Hh) as (S1 & S2 & S3 & S4 & S5).
    rewrite S1, S2, S5. split_and!; try done.
    intros h'. rewrite last_snoc. by intros [= ->].
Qed.






End Precedence.







(* ====================================================================== *)
(** * Further facts about discovery and keyboard navigation *)
(* ====================================================================== *)

Section NavigatorFacts.
Import PropertyAccessor KeyboardNavigator.

Variable doc : Document.

Lemma hasSourcePath_not_body e : hasSourcePath doc e = true -> e <> [].
Proof. by intros H ->. Qed.

Lemma below_cons_inv x j up : below x (j :: up) -> x = up \/ below x up.
Proof.
  intros (l & Hl & Heq). destruct l as [|i l]; [done|].
  injection Heq as -> ->. destruct l as [|i' l]; [by left|right].
  by exists (i' :: l).
Qed.

Lemma below_asym a b : below a b -> below b a -> False.
Proof. intros H1%below_length H2%below_length. lia. Qed.

Lemma climb_hasSourcePath a q : climb doc a = Some q -> hasSourcePath doc q = true.
Proof.
  induction a as [|i up IH]; [done|]. simpl.
  destruct (hasSourcePath doc (i :: up)) eqn:Hsp; [|done]. by intros [= <-].
Qed.

(** The loop stops at the lowest tagged element at or above its start. *)
Lemma climb_nearest a q x :
  climb doc a = Some q -> hasSourcePath doc x = true -> x = a \/ below x a ->
  x = q \/ below x q.
Proof.
  induction a as [|i up IH]; [done|]. simpl.
  destruct (hasSourcePath doc (i :: up)) eqn:Hsp.
  - by intros [= <-].
  - intros Hq Hx [->|Hb]; [congruence|].
    apply IH; [done|done|]. by apply below_cons_inv in Hb.
Qed.

Lemma climb_finds a x :
  hasSourcePath doc x = true -> x = a \/ below x a -> is_Some (climb doc a).
Proof.
  induction a as [|i up IH]; intros Hx Hb.
  - destruct Hb as [->|Hb]; [done|]. apply below_length in Hb. simpl in Hb. lia.
  - simpl. destruct (hasSourcePath doc (i :: up)) eqn:Hsp; [eauto|].
    destruct Hb as [->|Hb]; [congruence|].
    apply IH; [done|]. by apply below_cons_inv in Hb.
Qed.

Lemma climb_direct p a :
  noComponentUntil doc p a = true -> a = p \/ below p a ->
  hasSourcePath doc p = true -> climb doc a = Some p.
Proof.
  intros Hno Hb Hp. induction a as [|i up IH].
  - destruct Hb as [<-|Hb]; [by apply hasSourcePath_not_body in Hp|].
    apply below_length in Hb. simpl in Hb. lia.
  - rewrite noComponentUntil_unfold in Hno. cbn [climb].
    destruct (decide (i :: up = p)) as [<-|Hne]; [by rewrite Hp|].
    destruct (hasSourcePath doc (i :: up)); [done|].
    destruct Hb as [Heq|Hb]; [done|].
    apply IH; [done|]. apply below_cons_inv in Hb as [->|Hb]; auto.
Qed.

Lemma treeWalk_complete e n x m :
  nodeAt doc e = Some n -> below e x -> nodeAt doc x = Some m ->
  x ∈ treeWalk doc e acceptAll.
Proof.
  intros Hn (l & Hl & ->) Hm.
  destruct l as [|j0 l0] using rev_ind; [done|]. clear IHl0.
  rewrite <- app_assoc in Hm |- *. simpl in Hm |- *.
  destruct (nodeAt_ancestor doc l0 (j0 :: e) m Hm ltac:(done)) as [k Hk].
  unfold treeWalk. apply (walkNode_in_walkKids _ _ 0 j0 k); [done|]. simpl.
  by apply (walkNode_complete doc k (j0 :: e) l0 m).
Qed.

Lemma findChildComponents_parent p c :
  hasSourcePath doc p = true -> c ∈ findChildComponents doc p ->
  findParentComponent doc c = Some p.
Proof.
  intros Hp Hc. pose proof (findChildComponents_elem doc p c Hc) as [Hb _].
  unfold findChildComponents in Hc. apply list_elem_of_filter in Hc as [Hdirect _].
  destruct c as [|j up]; [apply below_length in Hb; simpl in Hb; lia|].
  unfold isDirectChild in Hdirect. unfold findParentComponent. simpl in *.
  apply climb_direct; [done| |done]. apply below_cons_inv in Hb as [->|Hb]; auto.
Qed.

Lemma findParentComponent_child p c :
  hasSourcePath doc c = true -> findParentComponent doc c = Some p ->
  c ∈ findChildComponents doc p.
Proof.
  intros Hc Hpar.
  pose proof (findParentComponent_below doc c p Hpar) as Hb.
  assert (Hp : hasSourcePath doc p = true).
  { unfold findParentComponent in Hpar. destruct (parentElement c); [|done].
    by eapply climb_hasSourcePath. }
  destruct (hasSourcePath_nodeAt doc p Hp) as [n Hn].
  destruct (hasSourcePath_nodeAt doc c Hc) as [m Hm].
  assert (Hin : c ∈ compsBelow doc p).
  { apply list_elem_of_filter. split; [done|]. by eapply treeWalk_complete. }
  rewrite (split_by_children doc p n Hn) in Hin.
  apply list_elem_of_In, in_flat_map in Hin as (c' & Hc' & Hcc').
  apply list_elem_of_In in Hc'. apply list_elem_of_In in Hcc'.
  apply elem_of_cons in Hcc' as [->|Hbelow]; [done|exfalso].
  pose proof (findChildComponents_elem doc p c' Hc') as [Hpc' Hc'sp].
  apply list_elem_of_filter in Hbelow as [_ Hbelow].
  apply walkKids_shape, belowFrom_below in Hbelow.
  destruct c as [|j up]; [done|].
  unfold findParentComponent in Hpar. simpl in Hpar.
  destruct (climb_nearest up p c' Hpar Hc'sp) as [->|Hb'].
  - by apply below_cons_inv in Hbelow.
  - by apply (below_ne p p).
  - by apply (below_asym p c').
Qed.

End NavigatorFacts.


(** [KeyboardNavigator.navigate], [updateSelection] and
    [handleStateChange]. *)
Module KeyboardNavigation.
Import PropertyAccessor KeyboardNavigator.

(** [a || b] for two element-or-null values. *)
Definition orElement (a b : option Element) : option Element :=
  match a with
  | Some _ => a
  | None => b
  end.

(** The element [navigate(direction)] decides to select; [None] when it
    returns without selecting. *)
Definition navigationTarget (doc : Document) (st : State) (direction : string)
  : option Element :=
  match orElement (keyboardSelectedElement st) (currentTargetElement st) with
  | None =>
      let topLevel := findTopLevelComponents doc in
      if decide (0 < length topLevel) then topLevel !! 0 else None
  | Some currentElement =>
      if String.eqb direction "up" then navigateToParent doc currentElement
      else if String.eqb direction "down" then navigateToFirstChild doc currentElement
      else if String.eqb direction "left"
           then navigateToPreviousSibling doc currentElement
      else if String.eqb direction "right"
           then navigateToNextSibling doc currentElement
      else None
  end.

Definition navigate {X Err : Type} (doc : Document) (direction : string)
  (s : DevtoolsState.Sys X Err) : DevtoolsState.Sys X Err * Completion Err :=
  match navigationTarget doc (DevtoolsState.state s) direction with
  | Some targetElement =>
      DevtoolsState.andThen
        (DevtoolsState.setKeyboardSelectedElement (Some targetElement))
        (DevtoolsState.setCurrentTargetElement (Some targetElement)) s
  | None => (s, Normal)
  end.

End KeyboardNavigation.

Section NavigationTheorems.
Import PropertyAccessor KeyboardNavigator KeyboardNavigation.

Lemma filter_filter_impl {A} (P Q : A -> Prop)
  `{!forall x, Decision (P x)} `{!forall x, Decision (Q x)} (l : list A) :
  (forall x, P x -> Q x) -> filter P (filter Q l) = filter P l.
Proof.
  intros HPQ. induction l as [|x l IH]; [done|].
  rewrite !filter_cons. destruct (decide (Q x)) as [HQ|HQ].
  - rewrite filter_cons. by rewrite IH.
  - rewrite IH. rewrite decide_False; [done|]. intros HP. by apply HQ, HPQ.
Qed.

(** X1: [getAllComponentsInOrder] returns the elements below the body
    that carry a source path, in document order, each once: its nested
    traversal over [findTopLevelComponents] and [findChildComponents]
    agrees with one walk over the whole document. *)
Theorem components_in_document_order (doc : Document) :
  getAllComponentsInOrder doc =
    filter (fun x => hasSourcePath doc x = true) (documentOrder doc) /\
  StronglySorted docPrecedes (getAllComponentsInOrder doc) /\
  NoDup (getAllComponentsInOrder doc).
Proof.
  rewrite getAllComponentsInOrder_spec. split_and!.
  - done.
  - apply depthFirstOrder_sorted.
  - apply sorted_NoDup, depthFirstOrder_sorted.
Qed.

Lemma getAllComponents_metadata doc c :
  c ∈ DevtoolsSystem.getAllComponents doc ->
  getFilename doc (element c) = Some (filename c) /\
  getSourceLine doc (element c) = Some (line c) /\
  getSourcePath doc (element c) = Some (path c).
Proof.
  unfold DevtoolsSystem.getAllComponents.
  induction (getAllComponentsInOrder doc) as [|e l IH]; [by intros ?%elem_of_nil|].
  simpl. rewrite filter_cons. simpl. case_decide as Hkeep; [|done].
  simpl. intros [->|Hc]%elem_of_cons; [|by apply IH]. simpl.
  destruct (getFilename doc e), (getSourceLine doc e), (getSourcePath doc e);
    simpl in Hkeep; try done.
  all: by rewrite ?andb_false_r in Hkeep.
Qed.

(** X2: [getAllComponents] returns the inspectable elements below the
    body in document order, each once, and every entry carries the file
    name, line and path read from its element. *)
Theorem components_with_metadata (doc : Document) :
  element <$> DevtoolsSystem.getAllComponents doc =
    filter (fun e => hasAllProperties doc e = true) (documentOrder doc) /\
  (forall c, c ∈ DevtoolsSystem.getAllComponents doc ->
     getFilename doc (element c) = Some (filename c) /\
     getSourceLine doc (element c) = Some (line c) /\
     getSourcePath doc (element c) = Some (path c)).
Proof.
  split; [|apply getAllComponents_metadata].
  rewrite getAllComponents_elements, getAllComponentsInOrder_spec.
  apply filter_filter_impl. intros x. apply hasAllProperties_hasSourcePath.
Qed.

(** X3: child and parent components are inverse to each other: [c] is
    among the child components of a component [p] exactly when [c] is a
    component whose parent component is [p]. *)
Theorem children_and_parent_agree (doc : Document) (p c : Element) :
  hasSourcePath doc p = true /\ c ∈ findChildComponents doc p <->
  hasSourcePath doc c = true /\ findParentComponent doc c = Some p.
Proof.
  split.
  - intros [Hp Hc]. split.
    + by apply (findChildComponents_elem doc p c).
    + by apply findChildComponents_parent.
  - intros [Hc Hpar]. split.
    + unfold findParentComponent in Hpar. destruct (parentElement c); [|done].
      by eapply climb_hasSourcePath.
    + by apply findParentComponent_child.
Qed.

Lemma siblings_include_current doc c :
  hasSourcePath doc c = true -> c ∈ getAllSiblingsIncludingCurrent doc c.
Proof.
  intros Hc. unfold getAllSiblingsIncludingCurrent.
  destruct (findParentComponent doc c) as [p|] eqn:Hpar.
  - by apply findParentComponent_child.
  - by apply findTopLevelComponents_complete.
Qed.

Lemma siblings_of_sibling doc c n :
  n ∈ getAllSiblingsIncludingCurrent doc c ->
  getAllSiblingsIncludingCurrent doc n = getAllSiblingsIncludingCurrent doc c.
Proof.
  unfold getAllSiblingsIncludingCurrent.
  destruct (findParentComponent doc c) as [p|] eqn:Hpar; intros Hn.
  - rewrite (findChildComponents_parent doc p n); [done| |done].
    unfold findParentComponent in Hpar. destruct (parentElement c); [|done].
    by eapply climb_hasSourcePath.
  - by apply findTopLevelComponents_elem in Hn as [_ ->].
Qed.

Lemma mod_succ_pred i n : i < n -> ((i + 1) mod n + n - 1) mod n = i.
Proof.
  intros Hi. destruct (decide (i + 1 = n)) as [Heq|Hne].
  - rewrite Heq, Nat.Div0.mod_same. simpl. rewrite Nat.mod_small by lia. lia.
  - rewrite (Nat.mod_small (i + 1)) by lia.
    replace (i + 1 + n - 1) with (i + 1 * n) by lia.
    rewrite Nat.Div0.mod_add. apply Nat.mod_small. lia.
Qed.

Lemma mod_pred_succ i n : i < n -> ((i + n - 1) mod n + 1) mod n = i.
Proof.
  intros Hi. destruct (decide (i = 0)) as [->|Hne].
  - simpl. rewrite (Nat.mod_small (n - 1)) by lia.
    replace (n - 1 + 1) with n by lia. apply Nat.Div0.mod_same.
  - replace (i + n - 1) with (i - 1 + 1 * n) by lia.
    rewrite Nat.Div0.mod_add, (Nat.mod_small (i - 1)) by lia.
    replace (i - 1 + 1) with i by lia. apply Nat.mod_small. lia.
Qed.

(** X4: a component is always found in its own sibling list, so the
    index -1 never arises for a rendered component, and the two sibling
    moves undo each other: Right then Left, and Left then Right, lead
    back to where they started. *)
Theorem sibling_moves_are_inverse (doc : Document) (c : Element) :
  hasSourcePath doc c = true ->
  c ∈ getAllSiblingsIncludingCurrent doc c /\
  (exists n, navigateToNextSibling doc c = Some n /\
             navigateToPreviousSibling doc n = Some c) /\
  (exists m, navigateToPreviousSibling doc c = Some m /\
             navigateToNextSibling doc m = Some c).
Proof.
  intros Hc. pose proof (siblings_include_current doc c Hc) as Hin.
  split; [done|].
  pose proof (getAllSiblingsIncludingCurrent_NoDup doc c) as Hnd.
  apply list_elem_of_lookup in Hin as [i Hi].
  pose proof (lookup_lt_Some _ _ _ Hi) as Hlt.
  set (siblings := getAllSiblingsIncludingCurrent doc c) in *.
  unfold navigateToNextSibling, navigateToPreviousSibling. fold siblings.
  split.
  - rewrite (getNextSibling_at siblings i c Hnd Hi).
    destruct (lookup_lt_is_Some_2 siblings ((i + 1) mod length siblings)) as [n Hn].
    { apply Nat.mod_upper_bound. lia. }
    exists n. split; [done|].
    rewrite (siblings_of_sibling doc c n) by by eapply list_elem_of_lookup_2.
    fold siblings. rewrite (getPreviousSibling_at siblings _ n Hnd Hn).
    by rewrite mod_succ_pred.
  - rewrite (getPreviousSibling_at siblings i c Hnd Hi).
    destruct (lookup_lt_is_Some_2 siblings ((i + length siblings - 1) mod length siblings))
      as [m Hm].
    { apply Nat.mod_upper_bound. lia. }
    exists m. split; [done|].
    rewrite (siblings_of_sibling doc c m) by by eapply list_elem_of_lookup_2.
    fold siblings. rewrite (getNextSibling_at siblings _ m Hnd Hm).
    by rewrite mod_pred_succ.
Qed.

Lemma sibling_moves_are_inverse_witness :
  [0; 0; 0; 0] ∈ getAllSiblingsIncludingCurrent exampleDocument [0; 0; 0; 0] /\
  (exists n, navigateToNextSibling exampleDocument [0; 0; 0; 0] = Some n /\
             navigateToPreviousSibling exampleDocument n = Some [0; 0; 0; 0]) /\
  (exists m, navigateToPreviousSibling exampleDocument [0; 0; 0; 0] = Some m /\
             navigateToNextSibling exampleDocument m = Some [0; 0; 0; 0]).
Proof.
  apply (sibling_moves_are_inverse exampleDocument [0; 0; 0; 0]).
  vm_compute. reflexivity.
Defined.

Lemma getNextSibling_elem c (siblings : list Element) n :
  getNextSibling c siblings = Some n -> n ∈ siblings.
Proof.
  unfold getNextSibling, at_index. case_decide; [done|].
  case_decide; simpl.
  - apply list_elem_of_lookup_2.
  - destruct (Z.ltb_spec (Z.rem (indexOf siblings c + 1) (Z.of_nat (length siblings))) 0);
      [done|apply list_elem_of_lookup_2].
Qed.

Lemma getPreviousSibling_elem c (siblings : list Element) n :
  getPreviousSibling c siblings = Some n -> n ∈ siblings.
Proof.
  unfold getPreviousSibling, at_index. case_decide; [done|].
  case_decide.
  - destruct (Z.ltb_spec (Z.of_nat (length siblings) - 1) 0);
      [done|apply list_elem_of_lookup_2].
  - destruct (Z.ltb_spec (Z.rem (indexOf siblings c - 1 + Z.of_nat (length siblings))
                                (Z.of_nat (length siblings))) 0);
      [done|apply list_elem_of_lookup_2].
Qed.

Lemma siblings_are_components doc c n :
  n ∈ getAllSiblingsIncludingCurrent doc c -> hasSourcePath doc n = true.
Proof.
  unfold getAllSiblingsIncludingCurrent. destruct (findParentComponent doc c).
  - by intros [_ ?]%findChildComponents_elem.
  - by intros [? _]%findTopLevelComponents_elem.
Qed.

Lemma getAllComponentsInOrder_component doc e :
  e ∈ getAllComponentsInOrder doc <-> hasSourcePath doc e = true.
Proof. rewrite getAllComponentsInOrder_spec. apply depthFirstOrder_elem. Qed.

Lemma last_elem {A} (l : list A) x : last l = Some x -> x ∈ l.
Proof.
  induction l as [|y l IH]; [done|]. destruct l as [|z l].
  - intros [= ->]. apply elem_of_cons. by left.
  - intros H. apply elem_of_cons. right. by apply IH.
Qed.

Lemma head_elem {A} (l : list A) x : head l = Some x -> x ∈ l.
Proof. destruct l; [done|]. intros [= ->]. apply elem_of_cons. by left. Qed.

Lemma navigationTarget_component doc st direction e :
  navigationTarget doc st direction = Some e -> hasSourcePath doc e = true.
Proof.
  unfold navigationTarget.
  destruct (orElement _ _) as [c|].
  - repeat (destruct (String.eqb direction _)); [| | | |done].
    + unfold navigateToParent.
      destruct (findParentComponent doc c) as [p|] eqn:Hpar.
      * intros [= <-]. unfold findParentComponent in Hpar.
        destruct (parentElement c); [|done]. by eapply climb_hasSourcePath.
      * intros H%last_elem. by apply getAllComponentsInOrder_component.
    + unfold navigateToFirstChild. case_decide as Hlen.
      * intros H%list_elem_of_lookup_2. by apply findChildComponents_elem in H as [_ ?].
      * intros H%head_elem. by apply getAllComponentsInOrder_component.
    + intros H%getPreviousSibling_elem. by eapply siblings_are_components.
    + intros H%getNextSibling_elem. by eapply siblings_are_components.
  - case_decide as Hlen; [|done].
    intros H%list_elem_of_lookup_2. by apply findTopLevelComponents_elem in H as [? _].
Qed.

Lemma sibling_moves_defined doc c :
  hasSourcePath doc c = true ->
  is_Some (navigateToNextSibling doc c) /\ is_Some (navigateToPreviousSibling doc c).
Proof.
  intros Hc. pose proof (siblings_include_current doc c Hc) as Hin.
  pose proof (getAllSiblingsIncludingCurrent_NoDup doc c) as Hnd.
  apply list_elem_of_lookup in Hin as [i Hi].
  pose proof (lookup_lt_Some _ _ _ Hi) as Hlt.
  unfold navigateToNextSibling, navigateToPreviousSibling.
  rewrite (getNextSibling_at _ i c Hnd Hi), (getPreviousSibling_at _ i c Hnd Hi).
  split; apply lookup_lt_is_Some_2, Nat.mod_upper_bound; lia.
Qed.

(** X5: whatever the state and the direction, [navigate] selects nothing
    but components; from a component each of the four directions leads to
    a component; and with nothing selected or hovered it starts at the
    first top-level component, selecting nothing only when the document
    has none (then it returns with the store untouched). *)
Theorem navigate_selects_components (doc : Document) (st : State) (direction : string) :
  (forall e, navigationTarget doc st direction = Some e ->
     hasSourcePath doc e = true) /\
  (forall c, orElement (keyboardSelectedElement st) (currentTargetElement st) = Some c ->
     hasSourcePath doc c = true ->
     direction ∈ ["up"; "down"; "left"; "right"]%string ->
     is_Some (navigationTarget doc st direction)) /\
  (orElement (keyboardSelectedElement st) (currentTargetElement st) = None ->
     navigationTarget doc st direction = head (findTopLevelComponents doc) /\
     (findTopLevelComponents doc = [] ->
      forall (X Err : Type) (s : DevtoolsState.Sys X Err),
        DevtoolsState.state s = st -> navigate doc direction s = (s, Normal))).
Proof.
  split_and!.
  - apply navigationTarget_component.
  - intros c Hcur Hc Hdir. unfold navigationTarget. rewrite Hcur.
    assert (Hall : c ∈ getAllComponentsInOrder doc)
      by by apply getAllComponentsInOrder_component.
    destruct (sibling_moves_defined doc c Hc) as [Hn Hm].
    repeat (apply elem_of_cons in Hdir as [->|Hdir]); [| | | |by apply elem_of_nil in Hdir];
      simpl.
    + unfold navigateToParent. destruct (findParentComponent doc c); [eauto|].
      unfold findDeepestComponent. destruct (getAllComponentsInOrder doc) as [|x l] using rev_ind;
        [by apply elem_of_nil in Hall|]. rewrite last_snoc. eauto.
    + unfold navigateToFirstChild. case_decide as Hlen.
      * by apply lookup_lt_is_Some_2.
      * unfold findFirstComponent. destruct (getAllComponentsInOrder doc);
          [by apply elem_of_nil in Hall|]. simpl. eauto.
    + done.
    + done.
  - intros Hcur. unfold navigationTarget. rewrite Hcur. split.
    + by destruct (findTopLevelComponents doc) as [|x l].
    + intros Hnone X Err s Hs. unfold navigate. rewrite Hs.
      unfold navigationTarget. rewrite Hcur, Hnone. done.
Qed.

End NavigationTheorems.


(* ====================================================================== *)
(** * Utility functions *)
(* ====================================================================== *)

(** An entry of the list [findParentComponents] returns. *)
Record ParentComponentInfo := mkParentComponentInfo {
  parent_element : Element;
  parent_filename : string;
  parent_line : string;
  parent_path : string;
  parent_level : nat
}.

Module Utilities.
Import PropertyAccessor.

(** [findDevtoolsElement(startElement)]: upwards from the start element
    itself, the first element with a source path, stopping at the body. *)
Fixpoint findDevtoolsElement (doc : Document) (startElement : Element) : option Element :=
  match startElement with
  | [] => None
  | _ :: up =>
      if hasSourcePath doc startElement then Some startElement
      else findDevtoolsElement doc up
  end.

(** The loop of [findParentComponents]: [element] climbs, [parents] and
    [level] are its two variables. *)
Fixpoint findParentComponentsLoop (doc : Document) (maxCount : Z) (element : Element)
  (parents : list ParentComponentInfo) (level : nat) : list ParentComponentInfo :=
  match element with
  | [] => parents
  | _ :: up =>
      if (Z.of_nat (length parents) <? maxCount)%Z then
        if hasSourcePath doc element then
          let filename := getFilename doc element in
          let line := getSourceLine doc element in
          let path := getSourcePath doc element in
          if truthy filename && truthy line && truthy path then
            findParentComponentsLoop doc maxCount up
              (parents ++ [mkParentComponentInfo element (default EmptyString filename)
                             (default EmptyString line) (default EmptyString path)
                             level])
              (S level)
          else findParentComponentsLoop doc maxCount up parents level
        else findParentComponentsLoop doc maxCount up parents level
      else parents
  end.

Definition findParentComponents (doc : Document) (currentElement : Element)
  (maxCount : Z) : list ParentComponentInfo :=
  match parentElement currentElement with
  | Some element => findParentComponentsLoop doc maxCount element [] 1
  | None => []
  end.

(** The function [throttle(fn, delay)] returns, called at time [now]
    ([Date.now()]) while its variable holds [lastCall]: the new value of
    the variable, and whether [fn] is called. *)
Definition throttled (delay lastCall now : Z) : Z * bool :=
  if (delay <=? now - lastCall)%Z then (now, true) else (lastCall, false).

(** The times at which [fn] runs when the throttled function is called
    at the given times, one after the other. *)
Fixpoint throttledRuns (delay lastCall : Z) (times : list Z) : list Z :=
  match times with
  | [] => []
  | now :: rest =>
      let '(lastCall', ran) := throttled delay lastCall now in
      (if ran then [now] else []) ++ throttledRuns delay lastCall' rest
  end.

End Utilities.

Section UtilityTheorems.
Import PropertyAccessor KeyboardNavigator Utilities.

Lemma findDevtoolsElement_climb doc e : findDevtoolsElement doc e = climb doc e.
Proof. induction e as [|i up IH]; [done|]. simpl. by rewrite IH. Qed.

(** X6: [findDevtoolsElement] returns the nearest component at or above
    its start element: an element with a source path that is the start
    or one of its ancestors below the body, with every other such element
    above it; it returns null exactly when there is none.  The parent
    component of the keyboard navigator is this search started at the
    parent element. *)
Theorem findDevtoolsElement_nearest (doc : Document) (e : Element) :
  (forall a, findDevtoolsElement doc e = Some a <->
     (a = e \/ below a e) /\ hasSourcePath doc a = true /\
     (forall x, x = e \/ below x e -> hasSourcePath doc x = true ->
        x = a \/ below x a)) /\
  (findDevtoolsElement doc e = None <->
     forall x, x = e \/ below x e -> hasSourcePath doc x = false) /\
  findParentComponent doc e = parentElement e ≫= findDevtoolsElement doc.
Proof.
  rewrite findDevtoolsElement_climb. split_and!.
  - intros a. split.
    + intros Ha. split_and!.
      * by apply (climb_below doc).
      * by eapply climb_hasSourcePath.
      * intros x Hx Hsp. by eapply climb_nearest.
    + intros (Hae & Hsp & Hnear).
      destruct (climb_finds doc e a Hsp Hae) as [q Hq]. rewrite Hq. f_equal.
      destruct (climb_nearest doc e q a Hq Hsp Hae) as [->|Haq]; [done|].
      destruct (Hnear q (climb_below doc e q Hq) (climb_hasSourcePath doc e q Hq))
        as [->|Hqa]; [done|].
      destruct (below_asym a q Haq Hqa).
  - split.
    + intros Hnone x Hx. destruct (hasSourcePath doc x) eqn:Hsp; [|done].
      destruct (climb_finds doc e x Hsp Hx) as [q Hq]. congruence.
    + intros Hall. destruct (climb doc e) as [q|] eqn:Hq; [|done].
      pose proof (climb_hasSourcePath doc e q Hq) as Hsp.
      by rewrite (Hall q (climb_below doc e q Hq)) in Hsp.
  - unfold findParentComponent. destruct (parentElement e) as [a|]; simpl; [|done].
    symmetry. apply findDevtoolsElement_climb.
Qed.

(** The ancestors of an element below the body, nearest first. *)
Fixpoint ancestorsFrom (e : Element) : list Element :=
  match e with
  | [] => []
  | _ :: up => e :: ancestorsFrom up
  end.

Definition properAncestors (e : Element) : list Element :=
  match parentElement e with
  | Some a => ancestorsFrom a
  | None => []
  end.

Lemma inspectable_condition doc e :
  (if hasSourcePath doc e
   then truthy (getFilename doc e) && truthy (getSourceLine doc e) &&
        truthy (getSourcePath doc e)
   else false) = hasAllProperties doc e.
Proof.
  unfold hasAllProperties, hasSourcePath, getSourcePath.
  destruct (scalasourcepath (attrsOf doc e)) as [p|]; simpl.
  - by destruct (truthy (getFilename doc e)), (truthy (getSourceLine doc e)),
               (negb (String.eqb p EmptyString)).
  - done.
Qed.

Lemma findParentComponentsLoop_spec doc maxCount element :
  forall parents level,
    let result := findParentComponentsLoop doc maxCount element parents level in
    parent_element <$> result =
      (parent_element <$> parents) ++
      take (Z.to_nat maxCount - length parents)
           (filter (fun a => hasAllProperties doc a = true) (ancestorsFrom element)) /\
    parent_level <$> result =
      (parent_level <$> parents) ++ seq level (length result - length parents) /\
    (Forall (fun p =>
       getFilename doc (parent_element p) = Some (parent_filename p) /\
       getSourceLine doc (parent_element p) = Some (parent_line p) /\
       getSourcePath doc (parent_element p) = Some (parent_path p)) parents ->
     Forall (fun p =>
       getFilename doc (parent_element p) = Some (parent_filename p) /\
       getSourceLine doc (parent_element p) = Some (parent_line p) /\
       getSourcePath doc (parent_element p) = Some (parent_path p)) result) /\
    length parents <= length result.
Proof.
  induction element as [|i up IH]; intros parents level; cbn zeta.
  - simpl. rewrite filter_nil, take_nil, Nat.sub_diag, !app_nil_r. done.
  - cbn [findParentComponentsLoop ancestorsFrom]. rewrite filter_cons.
    destruct (Z.ltb_spec (Z.of_nat (length parents)) maxCount) as [Hlt|Hge].
    2:{ replace (Z.to_nat maxCount - length parents) with 0 by lia.
        rewrite take_0, Nat.sub_diag, !app_nil_r. done. }
    pose proof (inspectable_condition doc (i :: up)) as Hcond.
    destruct (hasSourcePath doc (i :: up)).
    + destruct (truthy (getFilename doc (i :: up)) && truthy (getSourceLine doc (i :: up))
                && truthy (getSourcePath doc (i :: up))) eqn:Hall.
      * rewrite decide_True by done.
        destruct (IH (parents ++ [mkParentComponentInfo (i :: up)
                        (default EmptyString (getFilename doc (i :: up)))
                        (default EmptyString (getSourceLine doc (i :: up)))
                        (default EmptyString (getSourcePath doc (i :: up))) level])
                     (S level)) as (He & Hl & Hm & Hlen).
        rewrite length_app in He, Hl, Hlen. simpl in He, Hl, Hlen.
        split_and!.
        -- rewrite He, fmap_app, <- app_assoc. simpl. f_equal.
           replace (Z.to_nat maxCount - length parents)
             with (S (Z.to_nat maxCount - (length parents + 1))) by lia.
           done.
        -- rewrite Hl, fmap_app, <- app_assoc. simpl. f_equal.
           match goal with |- _ = seq level ?n =>
             replace n with (S (n - 1)) by lia end.
           simpl. do 2 f_equal. lia.
        -- intros Hparents. apply Hm. apply Forall_app. split; [done|].
           apply Forall_singleton. simpl.
           destruct (getFilename doc (i :: up)), (getSourceLine doc (i :: up)),
                    (getSourcePath doc (i :: up)); simpl in Hall; try done.
           all: by rewrite ?andb_false_r in Hall.
        -- lia.
      * rewrite decide_False by congruence. apply IH.
    + rewrite decide_False by congruence. apply IH.
Qed.

(** X7: [findParentComponents] returns the inspectable ancestors of the
    element below the body, nearest first, cut off after [maxCount]
    entries; their levels count 1, 2, 3, ...; each entry carries the
    three values read from its element; and the first entry is the
    nearest inspectable ancestor, the element's parent in the component
    tree. *)
Theorem findParentComponents_lists_ancestors (doc : Document) (e : Element)
  (maxCount : Z) :
  let parents := findParentComponents doc e maxCount in
  parent_element <$> parents =
    take (Z.to_nat maxCount)
         (filter (fun a => hasAllProperties doc a = true) (properAncestors e)) /\
  parent_level <$> parents = seq 1 (length parents) /\
  Forall (fun p =>
    getFilename doc (parent_element p) = Some (parent_filename p) /\
    getSourceLine doc (parent_element p) = Some (parent_line p) /\
    getSourcePath doc (parent_element p) = Some (parent_path p)) parents /\
  ((0 < maxCount)%Z ->
   head (parent_element <$> parents) = nearestInspectableAncestor doc e).
Proof.
  cbn zeta. unfold findParentComponents, properAncestors, nearestInspectableAncestor.
  destruct (parentElement e) as [a|]; simpl.
  2:{ rewrite filter_nil, take_nil. done. }
  destruct (findParentComponentsLoop_spec doc maxCount a [] 1) as (He & Hl & Hm & _).
  simpl in He, Hl. rewrite Nat.sub_0_r in He, Hl.
  split_and!; [done|done|by apply Hm|].
  intros Hpos. rewrite He.
  replace (Z.to_nat maxCount) with (S (Z.to_nat maxCount - 1)) by lia.
  clear. induction a as [|i up IH]; [done|].
  cbn [ancestorsFrom firstInspectable]. rewrite filter_cons.
  destruct (hasAllProperties doc (i :: up)) eqn:Hall.
  - by rewrite decide_True.
  - by rewrite decide_False by congruence.
Qed.

Lemma throttledRuns_spaced delay lastCall times :
  let runs := throttledRuns delay lastCall times in
  sublist runs times /\
  Forall (fun t => (delay <= t - lastCall)%Z) (take 1 runs) /\
  (forall i a b, runs !! i = Some a -> runs !! S i = Some b -> (delay <= b - a)%Z).
Proof.
  cbn zeta. revert lastCall. induction times as [|now rest IH]; intros lastCall.
  - simpl. split_and!; [done|done|]. intros i a b Ha. by rewrite lookup_nil in Ha.
  - simpl. unfold throttled.
    destruct (Z.leb_spec delay (now - lastCall)) as [Hrun|Hdrop]; simpl.
    + destruct (IH now) as (Hsub & Hfirst & Hgaps). split_and!.
      * by constructor.
      * rewrite take_0. by apply Forall_singleton.
      * intros [|i] a b Ha Hb; simpl in Ha, Hb.
        -- injection Ha as <-.
           destruct (throttledRuns delay now rest) as [|r runs']; [done|].
           simpl in Hb. injection Hb as <-.
           by apply Forall_cons in Hfirst as [? _].
        -- by eapply Hgaps.
    + destruct (IH lastCall) as (Hsub & Hfirst & Hgaps). split_and!.
      * by constructor.
      * done.
      * done.
Qed.

(** X8: the function [throttle] returns runs [fn] only at times of its
    own calls, in their order and immediately (it defers nothing); any
    two successive runs are at least [delay] apart, the first one at
    least [delay] after time 0; and when the calls themselves are that
    far apart, every one of them runs. *)
Theorem throttle_spaces_runs (delay : Z) (times : list Z) :
  let runs := throttledRuns delay 0 times in
  sublist runs times /\
  (forall a, head runs = Some a -> (delay <= a)%Z) /\
  (forall i a b, runs !! i = Some a -> runs !! S i = Some b -> (delay <= b - a)%Z) /\
  ((forall a, head times = Some a -> (delay <= a)%Z) ->
   (forall i a b, times !! i = Some a -> times !! S i = Some b -> (delay <= b - a)%Z) ->
   runs = times).
Proof.
  cbn zeta. destruct (throttledRuns_spaced delay 0 times) as (Hsub & Hfirst & Hgaps).
  split_and!; [done| |done|].
  - intros a Ha. destruct (throttledRuns delay 0 times) as [|r l]; [done|].
    injection Ha as ->. apply Forall_cons in Hfirst as [H _]. lia.
  - clear. assert (Hgen : forall lastCall,
      (forall a, head times = Some a -> (delay <= a - lastCall)%Z) ->
      (forall i a b, times !! i = Some a -> times !! S i = Some b -> (delay <= b - a)%Z) ->
      throttledRuns delay lastCall times = times).
    { induction times as [|now rest IH]; intros lastCall Hhead Hgap; [done|].
      simpl. unfold throttled.
      destruct (Z.leb_spec delay (now - lastCall)) as [_|Hdrop].
      - simpl. f_equal. apply IH.
        + intros a Ha. apply (Hgap 0 now a); [done|]. by destruct rest.
        + intros i a b Ha Hb. by apply (Hgap (S i) a b).
      - specialize (Hhead now eq_refl). lia. }
    intros Hhead Hgap. apply Hgen; [|done].
    intros a Ha. specialize (Hhead a Ha). lia.
Qed.

End UtilityTheorems.


(* ====================================================================== *)
(** * The hierarchical tooltip *)
(* ====================================================================== *)

(** The value [getChildComponents] returns. *)
Record ChildComponents := mkChildComponents {
  components : list ComponentInfo;
  totalCount : nat
}.

(** [array.slice(0, end)] for an integer [end]: a negative [end] counts
    from the end of the array. *)
Definition slice0 {A} (l : list A) (end_ : Z) : list A :=
  if (end_ <? 0)%Z then take (Z.to_nat (Z.of_nat (length l) + end_)) l
  else take (Z.to_nat end_) l.

(** The leftmost match of [/\.(scala|js|ts)$/] replaced by the empty
    string: scanning from the left, the first position at which the rest
    of the string is one of the three extensions. *)
Fixpoint replaceExtension (filename : string) : string :=
  if String.eqb filename ".scala" || String.eqb filename ".js"
     || String.eqb filename ".ts"
  then EmptyString
  else match filename with
       | EmptyString => EmptyString
       | String c rest => String c (replaceExtension rest)
       end.

Module HierarchicalTooltip.
Import PropertyAccessor.
Local Open Scope Q_scope.

(** [TooltipManager.getChildComponents(element, maxCount)]: its walker
    and its inner loop are those of the keyboard navigator's
    [findChildComponents]; only elements with all three values enter
    the list. *)
Definition getChildComponents (doc : Document) (element : Element) (maxCount : Z)
  : ChildComponents :=
  let allChildren :=
    flat_map
      (fun elementNode =>
         if KeyboardNavigator.isDirectChild doc element elementNode then
           let filename := getFilename doc elementNode in
           let line := getSourceLine doc elementNode in
           let path := getSourcePath doc elementNode in
           if truthy filename && truthy line && truthy path then
             [mkComponentInfo elementNode (default EmptyString filename)
                              (default EmptyString line) (default EmptyString path)]
           else []
         else [])
      (treeWalk doc element (KeyboardNavigator.acceptChild doc element)) in
  mkChildComponents (slice0 allChildren maxCount) (length allChildren).

Definition calculateHierarchicalTooltipPosition (b : Browser) (mainRect : DOMRect)
  (width height : Q) : TooltipPosition :=
  let margin := inject_Z (orElse (cssTooltipMargin b) 10) in
  let viewportWidth := innerWidth b in
  let viewportHeight := innerHeight b in
  let positions :=
    [ (* right of the main tooltip *)
      mkTooltipPosition (rect_right mainRect + margin) (rect_top mainRect);
      (* left of it *)
      mkTooltipPosition (rect_left mainRect - width - margin) (rect_top mainRect);
      (* below it *)
      mkTooltipPosition (rect_left mainRect) (rect_bottom mainRect + margin);
      (* above it *)
      mkTooltipPosition (rect_left mainRect) (rect_top mainRect - height - margin) ] in
  match List.find (fun position =>
           TooltipManager.isPositionWithinViewport b position width height margin)
         positions with
  | Some position => position
  | None =>
      mkTooltipPosition
        (Qmin (rect_right mainRect + margin) (viewportWidth - width - margin))
        (Qmin (Qmax (rect_top mainRect) margin) (viewportHeight - height - margin))
  end.

(** [TooltipManager.getComponentDisplayName(filename)] *)
Definition getComponentDisplayName (filename : option string) : string :=
  if negb (truthy filename) then "Unknown"%string
  else replaceExtension (default EmptyString filename).

End HierarchicalTooltip.

Section HierarchicalTooltipTheorems.
Import PropertyAccessor KeyboardNavigator HierarchicalTooltip.

Lemma flat_map_filter_map {A B} (P : A -> bool) (f : A -> B) (l : list A) :
  flat_map (fun x => if P x then [f x] else []) l =
  f <$> filter (fun x => P x = true) l.
Proof.
  induction l as [|x l IH]; [done|]. simpl. rewrite filter_cons.
  destruct (P x) eqn:HP.
  - rewrite decide_True by done. simpl. by rewrite IH.
  - rewrite decide_False by congruence. done.
Qed.

Lemma direct_inspectable_children doc e :
  element <$>
    flat_map
      (fun elementNode =>
         if isDirectChild doc e elementNode then
           if truthy (getFilename doc elementNode) && truthy (getSourceLine doc elementNode)
              && truthy (getSourcePath doc elementNode) then
             [mkComponentInfo elementNode
                (default EmptyString (getFilename doc elementNode))
                (default EmptyString (getSourceLine doc elementNode))
                (default EmptyString (getSourcePath doc elementNode))]
           else []
         else [])
      (treeWalk doc e (acceptChild doc e)) =
  filter (fun c => hasAllProperties doc c = true) (findChildComponents doc e).
Proof.
  unfold findChildComponents.
  induction (treeWalk doc e (acceptChild doc e)) as [|x l IH]; [done|].
  simpl. rewrite fmap_app, IH, !filter_cons. clear IH.
  assert (Hall : (truthy (getFilename doc x) && truthy (getSourceLine doc x)
                  && truthy (getSourcePath doc x)) = hasAllProperties doc x).
  { unfold hasAllProperties.
    by destruct (truthy (getFilename doc x)), (truthy (getSourceLine doc x)),
                (truthy (getSourcePath doc x)). }
  rewrite Hall. destruct (isDirectChild doc e x).
  - rewrite decide_True by done. rewrite filter_cons.
    destruct (hasAllProperties doc x).
    + by rewrite decide_True.
    + by rewrite decide_False.
  - by rewrite decide_False.
Qed.

Lemma slice0_fmap {A B} (f : A -> B) (l : list A) n :
  f <$> slice0 l n = slice0 (f <$> l) n.
Proof.
  unfold slice0. rewrite length_fmap. by destruct (n <? 0)%Z; rewrite fmap_take.
Qed.

(** X9: the child components the hierarchical tooltip lists for a
    component are the inspectable ones among the keyboard navigator's
    child components, in document order: [components] holds the first
    [maxCount] of them, [totalCount] counts them all, and each of them
    has the given component as its parent component. *)
Theorem tooltip_children_are_inspectable_children (doc : Document) (e : Element)
  (maxCount : Z) :
  let inspectable :=
    filter (fun c => hasAllProperties doc c = true) (findChildComponents doc e) in
  let r := getChildComponents doc e maxCount in
  element <$> components r = slice0 inspectable maxCount /\
  totalCount r = length inspectable /\
  length (components r) <= totalCount r /\
  ((0 <= maxCount)%Z -> length (components r) = Nat.min (Z.to_nat maxCount) (totalCount r)) /\
  (hasSourcePath doc e = true ->
   forall c, c ∈ components r -> findParentComponent doc (element c) = Some e).
Proof.
  cbn zeta. unfold getChildComponents. cbn [components totalCount].
  pose proof (direct_inspectable_children doc e) as Heq.
  set (allChildren := flat_map _ _) in *.
  assert (Hlen : length allChildren =
                 length (filter (fun c => hasAllProperties doc c = true)
                                (findChildComponents doc e))).
  { by rewrite <- Heq, length_fmap. }
  split_and!.
  - by rewrite slice0_fmap, Heq.
  - done.
  - unfold slice0. destruct (maxCount <? 0)%Z; rewrite length_take; lia.
  - intros Hpos. unfold slice0.
    destruct (Z.ltb_spec maxCount 0); [lia|]. by rewrite length_take.
  - intros He c Hc.
    assert (Hin : element c ∈ element <$> allChildren).
    { apply list_elem_of_fmap. exists c. split; [done|].
      unfold slice0 in Hc. destruct (maxCount <? 0)%Z;
        apply elem_of_take in Hc as (i & Hi & _); by eapply list_elem_of_lookup_2. }
    rewrite Heq in Hin. apply list_elem_of_filter in Hin as [_ Hin].
    by apply findChildComponents_parent.
Qed.

Local Open Scope Q_scope.

(** X10: the hierarchical tooltip never crosses the right or the bottom
    margin of the viewport, whatever the main tooltip's rectangle, its
    own size and the viewport; and when one of the four preferred places
    fits, it keeps the margin on all four sides. *)
Theorem hierarchical_tooltip_position (b : Browser) (mainRect : DOMRect)
  (width height : Q) :
  let margin := inject_Z (orElse (cssTooltipMargin b) 10) in
  let p := calculateHierarchicalTooltipPosition b mainRect width height in
  tip_left p + width <= innerWidth b - margin /\
  tip_top p + height <= innerHeight b - margin /\
  (TooltipManager.isPositionWithinViewport b p width height margin = false ->
   tip_left p == Qmin (rect_right mainRect + margin) (innerWidth b - width - margin) /\
   tip_top p == Qmin (Qmax (rect_top mainRect) margin)
                     (innerHeight b - height - margin)).
Proof.
  intros margin p. subst p. unfold calculateHierarchicalTooltipPosition.
  fold margin.
  destruct (List.find _ _) as [position|] eqn:Hfind.
  - apply find_some in Hfind as [_ Hfits].
    pose proof (isPositionWithinViewport_true _ _ _ _ _ Hfits) as (_ & _ & Hr & Hb).
    split_and!; [done|done|]. intros Hno. congruence.
  - simpl. split_and!.
    + match goal with |- Qmin ?x ?hi + _ <= _ => pose proof (Q.le_min_r x hi) end. lra.
    + match goal with |- Qmin ?x ?hi + _ <= _ => pose proof (Q.le_min_r x hi) end. lra.
    + intros _. split; reflexivity.
Qed.

Local Close Scope Q_scope.

Lemma replaceExtension_unfold filename :
  replaceExtension filename =
  if String.eqb filename ".scala" || String.eqb filename ".js"
     || String.eqb filename ".ts"
  then EmptyString
  else match filename with
       | EmptyString => EmptyString
       | String c rest => String c (replaceExtension rest)
       end.
Proof. by destruct filename. Qed.

Lemma append_length (s t : string) :
  String.length (s +:+ t) = String.length s + String.length t.
Proof. induction s as [|c s IH]; simpl; [done|]. by rewrite IH. Qed.

Definition isExtension (s : string) : bool :=
  String.eqb s ".scala" || String.eqb s ".js" || String.eqb s ".ts".

Lemma isExtension_length s : isExtension s = true -> String.length s = 6 \/ String.length s = 3.
Proof.
  unfold isExtension. rewrite !orb_true_iff.
  intros [[H|H]|H]; apply String.eqb_eq in H; subst; auto.
Qed.

(** The last three characters of a string with at least three. *)
Fixpoint lastThree (s : string) : string :=
  if (String.length s <=? 3)%nat then s
  else match s with
       | EmptyString => EmptyString
       | String _ rest => lastThree rest
       end.

Lemma lastThree_unfold s :
  lastThree s =
  if (String.length s <=? 3)%nat then s
  else match s with
       | EmptyString => EmptyString
       | String _ rest => lastThree rest
       end.
Proof. by destruct s. Qed.

Lemma lastThree_append s ext :
  String.length ext = 3 -> lastThree (s +:+ ext) = ext.
Proof.
  intros Hext. induction s as [|c s IH].
  - change (EmptyString +:+ ext) with ext. rewrite lastThree_unfold, Hext. done.
  - rewrite lastThree_unfold.
    destruct (Nat.leb_spec (String.length (String c s +:+ ext)) 3) as [Hle|_]; [|done].
    rewrite append_length in Hle. simpl in Hle. lia.
Qed.

Lemma no_extension_inside s ext :
  isExtension ext = true -> s <> EmptyString -> isExtension (s +:+ ext) = false.
Proof.
  intros Hext Hs. destruct (isExtension (s +:+ ext)) eqn:Hfull; [exfalso|done].
  assert (0 < String.length s) by (destruct s; [done|simpl; lia]).
  pose proof (append_length s ext) as Hlen.
  apply isExtension_length in Hfull as Hl1. apply isExtension_length in Hext as Hl2.
  destruct Hl2 as [Hl2|Hl2]; [lia|].
  destruct Hl1 as [Hl1|Hl1]; [|lia].
  pose proof (lastThree_append s ext Hl2) as Hlast.
  unfold isExtension in Hfull, Hext. rewrite !orb_true_iff in Hfull, Hext.
  destruct Hfull as [[Hf|Hf]|Hf]; apply String.eqb_eq in Hf; rewrite Hf in *;
    try (simpl in Hl1; lia).
  destruct Hext as [[He|He]|He]; apply String.eqb_eq in He; subst ext;
    by vm_compute in Hlast.
Qed.

Lemma replaceExtension_append name ext :
  isExtension ext = true -> replaceExtension (name +:+ ext) = name.
Proof.
  intros Hext. induction name as [|c name IH].
  - change (EmptyString +:+ ext) with ext. rewrite replaceExtension_unfold.
    fold (isExtension ext). by rewrite Hext.
  - rewrite replaceExtension_unfold. fold (isExtension (String c name +:+ ext)).
    rewrite (no_extension_inside (String c name) ext) by done.
    change (String c name +:+ ext) with (String c (name +:+ ext)).
    cbv iota. by rewrite IH.
Qed.

Lemma replaceExtension_none filename :
  (forall name ext, isExtension ext = true -> filename <> name +:+ ext) ->
  replaceExtension filename = filename.
Proof.
  induction filename as [|c rest IH]; intros Hno.
  - rewrite replaceExtension_unfold. fold (isExtension EmptyString). done.
  - rewrite replaceExtension_unfold. fold (isExtension (String c rest)).
    destruct (isExtension (String c rest)) eqn:Hext.
    { destruct (Hno EmptyString (String c rest) Hext). done. }
    f_equal. apply IH. intros name ext Hext' ->.
    by apply (Hno (String c name) ext).
Qed.

(** X11: the display name of a component is its file name without one
    trailing [.scala], [.js] or [.ts]: adding an extension to any name
    and taking the display name gives the name back; a file name without
    such an ending is shown as it is; a missing or empty file name is
    shown as Unknown. *)
Theorem display_name_drops_extension (name : string) :
  (getComponentDisplayName (Some (name +:+ ".scala")) = name /\
   getComponentDisplayName (Some (name +:+ ".js")) = name /\
   getComponentDisplayName (Some (name +:+ ".ts")) = name) /\
  ((forall base ext, ext ∈ [".scala"; ".js"; ".ts"]%string -> name <> base +:+ ext) ->
   name <> EmptyString ->
   getComponentDisplayName (Some name) = name) /\
  getComponentDisplayName None = "Unknown"%string /\
  getComponentDisplayName (Some EmptyString) = "Unknown"%string.
Proof.
  assert (Htruthy : forall s ext, ext <> EmptyString ->
            truthy (Some (s +:+ ext)) = true).
  { intros s ext Hext. simpl. apply negb_true_iff, String.eqb_neq.
    destruct s; [done|]. done. }
  split; [|split; [|done]].
  - unfold getComponentDisplayName.
    rewrite !Htruthy by done. simpl negb. cbn [default]. unfold Datatypes.id.
    by rewrite !replaceExtension_append.
  - intros Hno Hname. unfold getComponentDisplayName.
    assert (truthy (Some name) = true) as ->.
    { simpl. by apply negb_true_iff, String.eqb_neq. }
    simpl. apply replaceExtension_none. intros base ext Hext.
    apply Hno. unfold isExtension in Hext. rewrite !orb_true_iff in Hext.
    destruct Hext as [[H|H]|H]; apply String.eqb_eq in H; subst ext;
      repeat constructor.
Qed.

End HierarchicalTooltipTheorems.


(* ====================================================================== *)
(** * The panel of the tree view: dragging and repositioning *)
(* ====================================================================== *)

Record DragState := mkDragState {
  drag_startX : Q;
  drag_startY : Q;
  drag_startLeft : Q;
  drag_startTop : Q
}.

Module TreePanel.
Local Open Scope Q_scope.

(** [handleDrag(event)]: the [left] and [top] it writes to the panel's
    style, for a panel with bounding rectangle [rect]; nothing without a
    panel or a drag gesture. *)
Definition handleDrag (b : Browser) (dragState : option DragState)
  (eventX eventY : Q) (panel : option DOMRect) : option (Q * Q) :=
  match panel, dragState with
  | Some rect, Some ds =>
      let deltaX := eventX - drag_startX ds in
      let deltaY := eventY - drag_startY ds in
      let newLeft := drag_startLeft ds + deltaX in
      let newTop := drag_startTop ds + deltaY in
      let maxLeft := innerWidth b - rect_width rect in
      let maxTop := innerHeight b - rect_height rect in
      let newLeft := Qmax 0 (Qmin newLeft maxLeft) in
      let newTop := Qmax 0 (Qmin newTop maxTop) in
      Some (newLeft, newTop)
  | _, _ => None
  end.

(** [a < b] on numbers *)
Definition Qlt_bool (a b : Q) : bool := negb (Qle_bool b a).

(** [positionPanel()]: the style it writes (and saves) for a panel with
    bounding rectangle [rect]; [None] when it finds nothing to adjust or
    there is no panel. *)
Definition positionPanel (b : Browser) (panel : option DOMRect) : option PanelStyle :=
  match panel with
  | None => None
  | Some rect =>
      let viewportWidth := innerWidth b in
      let viewportHeight := innerHeight b in
      let needsAdjustment := false in
      let newLeft := rect_left rect in
      let newTop := rect_top rect in
      let newWidth := rect_width rect in
      let newHeight := rect_height rect in
      let '(newLeft, needsAdjustment) :=
        if Qlt_bool viewportWidth (rect_right rect)
        then (viewportWidth - rect_width rect, true) else (newLeft, needsAdjustment) in
      let '(newTop, needsAdjustment) :=
        if Qlt_bool viewportHeight (rect_bottom rect)
        then (viewportHeight - rect_height rect, true) else (newTop, needsAdjustment) in
      let '(newLeft, needsAdjustment) :=
        if Qlt_bool (rect_left rect) 0 then (0, true) else (newLeft, needsAdjustment) in
      let '(newTop, needsAdjustment) :=
        if Qlt_bool (rect_top rect) 0 then (0, true) else (newTop, needsAdjustment) in
      let minWidth := 300 in
      let minHeight := 400 in
      let '(newWidth, needsAdjustment) :=
        if Qlt_bool (rect_width rect) minWidth
        then (minWidth, true) else (newWidth, needsAdjustment) in
      let '(newHeight, needsAdjustment) :=
        if Qlt_bool (rect_height rect) minHeight
        then (minHeight, true) else (newHeight, needsAdjustment) in
      if needsAdjustment then Some (mkPanelStyle newWidth newHeight newLeft newTop)
      else None
  end.

End TreePanel.

Section TreePanelTheorems.
Import TreePanel.
Local Open Scope Q_scope.

Lemma Qlt_bool_true a b : Qlt_bool a b = true <-> a < b.
Proof.
  unfold Qlt_bool. rewrite negb_true_iff. split.
  - intros H. apply Qnot_le_lt. intros Hle. apply Qle_bool_iff in Hle. congruence.
  - intros H. destruct (Qle_bool b a) eqn:Hle; [|done].
    apply Qle_bool_iff in Hle. lra.
Qed.

Lemma Qlt_bool_false a b : Qlt_bool a b = false <-> b <= a.
Proof.
  unfold Qlt_bool. rewrite negb_false_iff. apply Qle_bool_iff.
Qed.

(** X12: while the panel is dragged it never leaves the viewport by the
    left or the top edge, and a panel no larger than the viewport stays
    inside it entirely, wherever the pointer goes; without a panel or a
    drag gesture nothing is written. *)
Theorem drag_keeps_panel_in_viewport (b : Browser) (ds : DragState)
  (eventX eventY : Q) (rect : DOMRect) :
  (exists newLeft newTop,
     handleDrag b (Some ds) eventX eventY (Some rect) = Some (newLeft, newTop) /\
     0 <= newLeft /\ 0 <= newTop /\
     (rect_width rect <= innerWidth b -> newLeft + rect_width rect <= innerWidth b) /\
     (rect_height rect <= innerHeight b -> newTop + rect_height rect <= innerHeight b)) /\
  handleDrag b None eventX eventY (Some rect) = None /\
  handleDrag b (Some ds) eventX eventY None = None.
Proof.
  split; [|done]. unfold handleDrag. do 2 eexists. split; [reflexivity|].
  cbv zeta. split_and!.
  - apply Q.le_max_l.
  - apply Q.le_max_l.
  - intros Hfit.
    match goal with |- Qmax _ (Qmin ?x ?hi) + _ <= _ =>
      destruct (clamp_between 0 x hi) as [_ H]; [lra|] end. lra.
  - intros Hfit.
    match goal with |- Qmax _ (Qmin ?x ?hi) + _ <= _ =>
      destruct (clamp_between 0 x hi) as [_ H]; [lra|] end. lra.
Qed.

(** X13: a resize step keeps the panel inside a viewport of at least
    300 x 400: the new width and height do not exceed the viewport, and
    the new left and top place the panel entirely within it. *)
Theorem resize_keeps_panel_in_viewport (b : Browser) (rs : ResizeState)
  (eventX eventY : Q) (panel : PanelStyle) :
  300 <= innerWidth b -> 400 <= innerHeight b ->
  exists style,
    ComponentTreeView.handleResize b (Some rs) eventX eventY (Some panel) = Some style /\
    style_width style <= innerWidth b /\ style_height style <= innerHeight b /\
    0 <= style_left style /\ 0 <= style_top style /\
    style_left style + style_width style <= innerWidth b /\
    style_top style + style_height style <= innerHeight b.
Proof.
  intros Hw Hh. unfold ComponentTreeView.handleResize. eexists. split; [reflexivity|].
  cbv zeta. cbn [style_width style_height style_left style_top].
  set (newWidth := Qmax 300 (Qmin _ (innerWidth b))).
  set (newHeight := Qmax 400 (Qmin _ (innerHeight b))).
  assert (Hnw : newWidth <= innerWidth b).
  { apply Q.max_lub; [done|apply Q.le_min_r]. }
  assert (Hnh : newHeight <= innerHeight b).
  { apply Q.max_lub; [done|apply Q.le_min_r]. }
  split_and!; [done|done|apply Q.le_max_l|apply Q.le_max_l| |].
  - match goal with |- Qmax _ (Qmin ?x ?hi) + _ <= _ =>
      destruct (clamp_between 0 x hi) as [_ H]; [lra|] end. lra.
  - match goal with |- Qmax _ (Qmin ?x ?hi) + _ <= _ =>
      destruct (clamp_between 0 x hi) as [_ H]; [lra|] end. lra.
Qed.

Lemma resize_keeps_panel_in_viewport_witness :
  exists style,
    ComponentTreeView.handleResize desktopViewport
      (Some (mkResizeState 900 500 400 600 500 100 "bottom-right")) 2000 90
      (Some (mkPanelStyle 400 600 500 100)) = Some style /\
    style_width style <= 1280 /\ style_height style <= 720 /\
    0 <= style_left style /\ 0 <= style_top style /\
    style_left style + style_width style <= 1280 /\
    style_top style + style_height style <= 720.
Proof.
  apply (resize_keeps_panel_in_viewport desktopViewport
           (mkResizeState 900 500 400 600 500 100 "bottom-right") 2000 90
           (mkPanelStyle 400 600 500 100)).
  - vm_compute; discriminate.
  - vm_compute; discriminate.
Defined.

(** X14: [positionPanel] writes nothing exactly when the panel lies
    inside the viewport and is at least 300 x 400; and a panel of at
    least that size that fits the viewport is moved, not resized, to lie
    entirely inside it. *)
Theorem positionPanel_moves_panel_inside (b : Browser) (rect : DOMRect) :
  (positionPanel b (Some rect) = None <->
     rect_right rect <= innerWidth b /\ rect_bottom rect <= innerHeight b /\
     0 <= rect_left rect /\ 0 <= rect_top rect /\
     300 <= rect_width rect /\ 400 <= rect_height rect) /\
  (300 <= rect_width rect <= innerWidth b ->
   400 <= rect_height rect <= innerHeight b ->
   forall style, positionPanel b (Some rect) = Some style ->
     style_width style == rect_width rect /\ style_height style == rect_height rect /\
     0 <= style_left style /\ 0 <= style_top style /\
     style_left style + style_width style <= innerWidth b /\
     style_top style + style_height style <= innerHeight b).
Proof.
  unfold positionPanel, rect_right, rect_bottom. cbv zeta.
  destruct (Qlt_bool (innerWidth b) (rect_left rect + rect_width rect)) eqn:H1;
  destruct (Qlt_bool (innerHeight b) (rect_top rect + rect_height rect)) eqn:H2;
  destruct (Qlt_bool (rect_left rect) 0) eqn:H3;
  destruct (Qlt_bool (rect_top rect) 0) eqn:H4;
  destruct (Qlt_bool (rect_width rect) 300) eqn:H5;
  destruct (Qlt_bool (rect_height rect) 400) eqn:H6;
  rewrite ?Qlt_bool_true, ?Qlt_bool_false in *;
  (split;
   [ split; [try discriminate; intros _; split_and!; lra
            | try reflexivity; intros (? & ? & ? & ? & ? & ?); exfalso; lra]
   | intros [? ?] [? ?] style; try discriminate; intros [= <-];
     cbn [style_width style_height style_left style_top];
     split_and!; try reflexivity; lra ]).
Qed.

Example positionPanel_example :
  positionPanel desktopViewport (Some (mkDOMRect 1000 (-20) 400 600)) =
    Some (mkPanelStyle 400 600 880 0) /\
  positionPanel desktopViewport (Some (mkDOMRect 100 20 400 600)) = None.
Proof. by vm_compute. Qed.

End TreePanelTheorems.


(* ====================================================================== *)
(** * Subscriptions, reset, and what the overlay may highlight *)
(* ====================================================================== *)

Section SubscriptionTheorems.
Import DevtoolsState.
Context {X Err : Type}.

Lemma filter_other_ids (o : Observer X Err) (l : list (Observer X Err)) :
  observerId o ∉ map observerId l ->
  filter (fun o' => observerId o' <> observerId o) l = l.
Proof.
  induction l as [|a l IH]; [done|]. simpl. intros Hnot%not_elem_of_cons.
  destruct Hnot as [Hne Hnot]. rewrite filter_cons, decide_True by done.
  by rewrite IH.
Qed.

(** X15: the observer set behaves as a set of callbacks kept in
    registration order.  Subscribing a new callback puts it last: one
    notification invokes the earlier observers and then it, once;
    subscribing it again changes nothing; the returned unsubscribe
    function restores the set; and a callback that is not subscribed
    (any more) is not invoked by any notification. *)
Theorem subscribe_and_unsubscribe (o : Observer X Err) (s : Sys X Err) (c : Change) :
  (observerId o ∉ map observerId (observers s) ->
   delivered (fst (notify c (subscribe o s))) =
     delivered s ++ deliveries c (observers s) ++ [(observerId o, c)] /\
   subscribe o (subscribe o s) = subscribe o s /\
   unsubscribe o (subscribe o s) = s) /\
  Forall (fun d => fst d <> observerId o)
         (drop (length (delivered s)) (delivered (fst (notify c (unsubscribe o s))))).
Proof.
  split.
  - intros Hnew.
    assert (Hsub : subscribe o s =
                   mkSys (world s) (observers s ++ [o]) (console s) (notified s)
                         (delivered s)).
    { unfold subscribe. by rewrite bool_decide_eq_false_2. }
    split_and!.
    + destruct (notify_outcome c (subscribe o s)) as (-> & _). rewrite Hsub. simpl.
      unfold deliveries. by rewrite map_app.
    + rewrite Hsub. unfold subscribe. simpl. rewrite bool_decide_eq_true_2; [done|].
      rewrite map_app. apply elem_of_app. right. simpl. apply elem_of_cons. by left.
    + rewrite Hsub. unfold unsubscribe. simpl. rewrite filter_app, filter_other_ids by done.
      rewrite filter_cons, decide_False by (intros H; by apply H).
      rewrite filter_nil, app_nil_r. by destruct s.
  - destruct (notify_outcome c (unsubscribe o s)) as (-> & _).
    cbn [unsubscribe delivered observers]. rewrite drop_app_length.
    unfold deliveries. rewrite map_is_fmap, Forall_fmap.
    apply Forall_forall. by intros o' [Hne _]%list_elem_of_filter.
Qed.

(** X16: [reset] puts every field of the store back to its initial
    value, clears the cursor, and then notifies the observers of a
    reset once, whether or not anything had changed; the observers run
    on the initial state. *)
Theorem reset_restores_and_notifies (s : Sys X Err) :
  snd (resetState s) = Normal /\
  notified (fst (resetState s)) = notified s ++ [reset] /\
  delivered (fst (resetState s)) = delivered s ++ deliveries reset (observers s) /\
  world (fst (resetState s)) =
    worldAfter reset (observers s) (initialState, snd (world s)) /\
  (observers s = [] -> state (fst (resetState s)) = initialState).
Proof.
  unfold resetState.
  set (s1 := resetCursor _).
  assert (Hs1 : world s1 = (initialState, snd (world s)) /\ observers s1 = observers s /\
                notified s1 = notified s /\ delivered s1 = delivered s) by done.
  destruct Hs1 as (Hw & Ho & Hn & Hd).
  destruct (notify_outcome reset s1) as (Hd' & Hw' & _).
  rewrite Hw, Ho in Hw'. rewrite Ho, Hd in Hd'.
  split_and!.
  - unfold notify.
    match goal with |- context [forEach _ ?l ?s0] =>
      pose proof (forEach_tryCatch reset l s0) as H end.
    by destruct H as (H & _).
  - by rewrite notify_notified, Hn.
  - done.
  - done.
  - intros Hnone. unfold state. rewrite Hw', Hnone. done.
Qed.

End SubscriptionTheorems.

(** The calls that reach the overlay: a state change it observes, or a
    direct call of [show] or [hide] by the event handlers. *)
Inductive OverlayCall :=
  | StateChanged (st : State) (type : Change)
  | ShowCalled (st : State) (targetElement : option Element)
  | HideCalled.

Definition overlayCall (b : Browser) (doc : Document)
  (ov : OverlayManager.Overlay) (call : OverlayCall) : OverlayManager.Overlay :=
  match call with
  | StateChanged st type => OverlayManager.handleStateChange b doc st type ov
  | ShowCalled st (Some targetElement) => OverlayManager.show b doc st targetElement ov
  | ShowCalled st None => OverlayManager.hide ov
  | HideCalled => OverlayManager.hide ov
  end.

Section OverlayTheorems.
Import PropertyAccessor OverlayManager.
Local Open Scope Q_scope.

Variable b : Browser.
Variable doc : Document.

(** What holds of the overlay whenever it is visible. *)
Definition overlayShown (ov : Overlay) : Prop :=
  (isVisible ov = true -> created ov = true) /\
  forall e, highlight ov = Some e ->
    hasAllProperties doc e = true /\
    exists p, position ov = Some p /\
      0 <= pos_left p /\ 0 <= pos_top p /\
      pos_left p + pos_width p <= innerWidth b /\
      pos_top p + pos_height p <= innerHeight b.

Lemma overlayShown_hide ov : overlayShown ov -> overlayShown (hide ov).
Proof.
  unfold hide. destruct (negb (created ov) || negb (isVisible ov)); [done|].
  intros _. split; [done|]. intros e. unfold highlight. simpl. done.
Qed.

Lemma overlayShown_show st e ov : overlayShown ov -> overlayShown (show b doc st e ov).
Proof.
  intros Hov. unfold show. destruct (hasAllProperties doc e) eqn:Hall; simpl.
  - split; [done|]. intros e'. unfold highlight. simpl. intros [= <-]. split; [done|].
    eexists. split; [reflexivity|]. apply overlay_within_viewport.
  - by apply overlayShown_hide.
Qed.

Lemma overlayShown_call ov call : overlayShown ov -> overlayShown (overlayCall b doc ov call).
Proof.
  intros Hov. destruct call as [st type|st [e|]|]; simpl.
  - unfold handleStateChange.
    destruct type; try done; repeat case_match;
      auto using overlayShown_hide, overlayShown_show.
  - by apply overlayShown_show.
  - by apply overlayShown_hide.
  - by apply overlayShown_hide.
Qed.

Lemma overlayShown_hidden ov : overlayShown ov -> highlight (hide ov) = None.
Proof.
  intros [Hcreated _]. unfold hide, highlight.
  destruct (isVisible ov) eqn:Hv; simpl.
  - by rewrite Hcreated.
  - rewrite orb_true_r. by rewrite Hv.
Qed.

End OverlayTheorems.

(** X17: from its creation on, through every sequence of observed
    state changes and of direct [show] and [hide] calls, the overlay is
    visible only on an element that has all three properties, and its
    rectangle lies within the viewport; after a reset or a [hide] it is
    not visible. *)
Theorem overlay_highlights_inspectable (b : Browser) (doc : Document)
  (calls : list OverlayCall) :
  let ov := foldl (overlayCall b doc) OverlayManager.initialOverlay calls in
  overlayShown b doc ov /\
  (forall st, OverlayManager.highlight (overlayCall b doc ov (StateChanged st reset)) = None) /\
  OverlayManager.highlight (overlayCall b doc ov HideCalled) = None.
Proof.
  cbn zeta.
  assert (Hinv : overlayShown b doc
                   (foldl (overlayCall b doc) OverlayManager.initialOverlay calls)).
  { induction calls as [|call calls IH] using rev_ind.
    - split; [done|]. intros e. by unfold OverlayManager.highlight.
    - rewrite foldl_app. simpl. by apply overlayShown_call. }
  split_and!; [done| |].
  - intros st. by apply (overlayShown_hidden b doc).
  - by apply (overlayShown_hidden b doc).
Qed.

(* ====================================================================== *)
(** * The tree panel: expansion, lookup and the visible rows *)
(* ====================================================================== *)

Definition set_expanded (v : bool) (n : TreeNode) : TreeNode :=
  mkTreeNode (id n) (node_element n) (node_filename n) (node_line n) (node_path n)
             (children n) (parent n) v (level n).

(** The methods of [ComponentTreeView] that read and update the node
    objects of the tree.  A node is named by its reference into the
    store; rendering is not modelled. *)
Module TreeOperations.
Import ComponentTreeView.

(** [forEachNode(nodes, fn)].  The callback updates the node objects and
    the variables it closes over ([X]); [depth] bounds the nesting of the
    recursive calls. *)
Fixpoint forEachNode {X : Type} (depth : nat) (array : list nat)
  (fn : nat -> list TreeNode * X -> list TreeNode * X) (s : list TreeNode * X)
  : list TreeNode * X :=
  match depth with
  | 0 => s
  | S depth' =>
      foldl (fun s node =>
               let s := fn node s in
               match fst s !! node with
               | Some n =>
                   if decide (0 < length (children n))
                   then forEachNode depth' (children n) fn s
                   else s
               | None => s
               end)
            s array
  end.

(** [flattenVisibleNodes(nodes, result)] *)
Fixpoint flattenVisibleNodes (depth : nat) (store : list TreeNode) (array : list nat)
  (result : list nat) : list nat :=
  match depth with
  | 0 => result
  | S depth' =>
      foldl (fun result node =>
               let result := result ++ [node] in
               match store !! node with
               | Some n =>
                   if expanded n && bool_decide (0 < length (children n))
                   then flattenVisibleNodes depth' store (children n) result
                   else result
               | None => result
               end)
            result array
  end.

(** [flattenVisibleNodes()] with its default arguments. *)
Definition visibleNodes (v : View) : list nat :=
  match treeData v with
  | Some t => flattenVisibleNodes (S (length (nodes t))) (nodes t) (rootNodes t) []
  | None => []
  end.

Definition setTree (store : list TreeNode) (roots : list nat)
  (expandedNodes : gset string) (v : View) : View :=
  mkView (Some (mkTree store roots)) expandedNodes (selectedNodeId v)
         (renderCache v) (lastComponentsHash v).

(** The callback of [expandAll] and of [initializeTreeState]. *)
Definition expandParent (node : nat) (s : list TreeNode * gset string)
  : list TreeNode * gset string :=
  match fst s !! node with
  | Some n =>
      if decide (0 < length (children n))
      then (alter (set_expanded true) node (fst s), {[id n]} ∪ snd s)
      else s
  | None => s
  end.

Definition expandAll (v : View) : View :=
  match treeData v with
  | Some t =>
      let '(store, expandedNodes) :=
        forEachNode (S (length (nodes t))) (rootNodes t) expandParent
                    (nodes t, expandedNodes v) in
      setTree store (rootNodes t) expandedNodes v
  | None => v
  end.

(** The callback of [collapseAll]. *)
Definition collapseNode (node : nat) (s : list TreeNode * gset string)
  : list TreeNode * gset string :=
  match fst s !! node with
  | Some n => (alter (set_expanded false) node (fst s), snd s ∖ {[id n]})
  | None => s
  end.

Definition collapseAll (v : View) : View :=
  match treeData v with
  | Some t =>
      let '(store, expandedNodes) :=
        forEachNode (S (length (nodes t))) (rootNodes t) collapseNode
                    (nodes t, expandedNodes v) in
      setTree store (rootNodes t) expandedNodes v
  | None => v
  end.

(** The callback of [findNodeById] and [findNodeByElement]: [found] is
    overwritten at every node that matches. *)
Definition findBy (matches : TreeNode -> bool) (node : nat)
  (s : list TreeNode * option nat) : list TreeNode * option nat :=
  match fst s !! node with
  | Some n => if matches n then (fst s, Some node) else s
  | None => s
  end.

Definition findNodeById (nodeId : string) (v : View) : option nat :=
  match treeData v with
  | Some t =>
      snd (forEachNode (S (length (nodes t))) (rootNodes t)
                       (findBy (fun n => String.eqb (id n) nodeId)) (nodes t, None))
  | None => None
  end.

Definition findNodeByElement (element : Element) (v : View) : option nat :=
  match treeData v with
  | Some t =>
      snd (forEachNode (S (length (nodes t))) (rootNodes t)
                       (findBy (fun n => bool_decide (node_element n = element)))
                       (nodes t, None))
  | None => None
  end.

(** [toggleNodeExpansion(node)] *)
Definition toggleNodeExpansion (node : nat) (v : View) : View :=
  match treeData v with
  | Some t =>
      match nodes t !! node with
      | Some n =>
          if decide (length (children n) = 0) then v
          else
            let store := alter (set_expanded (negb (expanded n))) node (nodes t) in
            let expandedNodes :=
              if negb (expanded n) then {[id n]} ∪ expandedNodes v
              else expandedNodes v ∖ {[id n]} in
            setTree store (rootNodes t) expandedNodes v
      | None => v
      end
  | None => v
  end.

(** The loop of [expandPathToNode]; [fuel] bounds its iterations. *)
Fixpoint expandPathLoop (fuel : nat) (currentNode : option nat)
  (s : list TreeNode * gset string) : list TreeNode * gset string :=
  match fuel, currentNode with
  | S fuel', Some node =>
      match fst s !! node with
      | Some n =>
          expandPathLoop fuel' (parent n)
            (if negb (expanded n)
             then (alter (set_expanded true) node (fst s), {[id n]} ∪ snd s)
             else s)
      | None => s
      end
  | _, _ => s
  end.

Definition expandPathToNode (targetNode : nat) (v : View) : View :=
  match treeData v with
  | Some t =>
      match nodes t !! targetNode with
      | Some target =>
          let '(store, expandedNodes) :=
            expandPathLoop (length (nodes t)) (parent target)
                           (nodes t, expandedNodes v) in
          setTree store (rootNodes t) expandedNodes v
      | None => v
      end
  | None => v
  end.

(** [initializeTreeState()]: the roots that have children are expanded. *)
Definition initializeTreeState (v : View) : View :=
  match treeData v with
  | Some t =>
      if decide (0 < length (rootNodes t)) then
        let '(store, expandedNodes) :=
          foldl (fun s node => expandParent node s) (nodes t, expandedNodes v)
                (rootNodes t) in
        setTree store (rootNodes t) expandedNodes v
      else v
  | None => v
  end.

(** The callback of [refreshTree]. *)
Definition restoreExpanded (wasExpanded : gset string) (node : nat)
  (s : list TreeNode * gset string) : list TreeNode * gset string :=
  match fst s !! node with
  | Some n =>
      if bool_decide (id n ∈ wasExpanded)
      then (alter (set_expanded true) node (fst s), {[id n]} ∪ snd s)
      else s
  | None => s
  end.

(** [refreshTree()]; [isVisible] is the flag of the panel. *)
Definition refreshTree (doc : Document) (isVisible : bool) (v : View) : View :=
  if negb isVisible then v
  else
    let wasExpanded := expandedNodes v in
    let selectedId := selectedNodeId v in
    let v := buildTreeData doc v in
    let v :=
      match treeData v with
      | Some t =>
          let '(store, expandedNodes) :=
            forEachNode (S (length (nodes t))) (rootNodes t)
                        (restoreExpanded wasExpanded) (nodes t, expandedNodes v) in
          setTree store (rootNodes t) expandedNodes v
      | None => v
      end in
    match selectedId with
    | Some selected =>
        if truthy selectedId && bool_decide (is_Some (findNodeById selected v))
        then mkView (treeData v) (expandedNodes v) selectedId (renderCache v)
                    (lastComponentsHash v)
        else v
    | None => v
    end.

(** [refreshTreeIfNeeded()] *)
Definition refreshTreeIfNeeded (doc : Document) (isVisible : bool) (v : View) : View :=
  if negb isVisible then v
  else
    let components := DevtoolsSystem.getAllComponents doc in
    let currentHash := generateComponentsHash components in
    if bool_decide (lastComponentsHash v <> Some currentHash)
    then refreshTree doc isVisible
           (mkView (treeData v) (expandedNodes v) (selectedNodeId v) (renderCache v)
                   (Some currentHash))
    else v.

End TreeOperations.

(** Two trees with the same nodes and links, whatever is expanded. *)
Definition sameTree (t t0 : Tree) : Prop :=
  rootNodes t = rootNodes t0 /\
  (set_expanded false <$> nodes t) = (set_expanded false <$> nodes t0).

(** ** Forests in a node store *)

(** [n] nodes; [par], [kids] and [roots] are the links between them and
    [lev] their levels. *)
Record IsForest (n : nat) (par : nat -> option nat) (kids : nat -> list nat)
  (roots : list nat) (lev : nat -> nat) : Prop := {
  forest_par_range : forall c p, par c = Some p -> c < n;
  forest_par_lt : forall c p, par c = Some p -> p < c;
  forest_lev_child : forall c p, par c = Some p -> lev c = lev p + 1;
  forest_lev_root : forall c, par c = None -> lev c = 0;
  forest_kids : forall j c, c ∈ kids j <-> par c = Some j;
  forest_kids_NoDup : forall j, NoDup (kids j);
  forest_roots : forall c, c ∈ roots <-> c < n /\ par c = None;
  forest_roots_NoDup : NoDup roots
}.

Section Forest.
Import TreeOperations.

Variable n : nat.
Variable par : nat -> option nat.
Variable kids : nat -> list nat.
Variable roots : list nat.
Variable lev : nat -> nat.
Hypothesis forest : IsForest n par kids roots lev.

Lemma par_range c p : par c = Some p -> c < n.
Proof. apply forest. Qed.

Lemma par_lt c p : par c = Some p -> p < c.
Proof. apply forest. Qed.

Lemma lev_child c p : par c = Some p -> lev c = lev p + 1.
Proof. apply forest. Qed.

Lemma lev_root c : par c = None -> lev c = 0.
Proof. apply forest. Qed.

Lemma kids_spec j c : c ∈ kids j <-> par c = Some j.
Proof. apply forest. Qed.

Lemma kids_NoDup j : NoDup (kids j).
Proof. apply forest. Qed.

Lemma roots_spec c : c ∈ roots <-> c < n /\ par c = None.
Proof. apply forest. Qed.

Lemma roots_NoDup : NoDup roots.
Proof. apply forest. Qed.

(** A store that holds this forest. *)
Definition Shaped (store : list TreeNode) : Prop :=
  length store = n /\
  forall j nd, store !! j = Some nd -> children nd = kids j /\ parent nd = par j.

Fixpoint anc (k j : nat) : option nat :=
  match k with
  | 0 => Some j
  | S k' => par j ≫= anc k'
  end.

(** The nodes in the order [forEachNode] calls its callback on them. *)
Fixpoint preorder (depth : nat) (array : list nat) : list nat :=
  match depth with
  | 0 => []
  | S depth' => array ≫= fun node => node :: preorder depth' (kids node)
  end.

Lemma preorder_nil depth : preorder depth [] = [].
Proof. by destruct depth. Qed.

Lemma lev_le j : lev j <= j.
Proof.
  induction j as [j IH] using lt_wf_ind.
  destruct (par j) as [p|] eqn:Hp.
  - rewrite (lev_child _ _ Hp). pose proof (par_lt _ _ Hp). pose proof (IH p). lia.
  - rewrite (lev_root _ Hp). lia.
Qed.

Lemma anc_lev k : forall j a, anc k j = Some a -> lev j = lev a + k.
Proof.
  induction k as [|k IH]; intros j a; simpl.
  - intros [= ->]. lia.
  - destruct (par j) as [p|] eqn:Hp; [|done]. simpl. intros Ha.
    rewrite (lev_child _ _ Hp), (IH _ _ Ha). lia.
Qed.

Lemma anc_top k : forall j a,
  anc (S k) j = Some a <-> exists c, anc k j = Some c /\ par c = Some a.
Proof.
  induction k as [|k IH]; intros j a.
  - simpl. destruct (par j) as [p|] eqn:Hp; simpl.
    + split; [intros [= ->]; eauto|]. intros (c & [= <-] & Hc). congruence.
    + split; [done|]. intros (c & [= <-] & Hc). congruence.
  - change (anc (S (S k)) j) with (par j ≫= anc (S k)).
    change (anc (S k) j) with (par j ≫= anc k).
    destruct (par j) as [p|]; simpl; [apply IH|].
    split; [done|]. by intros (c & ? & _).
Qed.

Lemma anc_range k j a : anc k j = Some a -> j < n -> a < n.
Proof.
  revert j. induction k as [|k IH]; intros j; simpl.
  - by intros [= ->].
  - destruct (par j) as [p|] eqn:Hp; [|done]. simpl. intros Ha Hj.
    apply (IH p); [done|]. pose proof (par_lt _ _ Hp). lia.
Qed.

Lemma kids_range j c : c ∈ kids j -> c < n.
Proof. intros Hc%kids_spec. by eapply par_range. Qed.

Lemma preorder_elem depth : forall array j,
  j ∈ preorder depth array <->
  exists k a, k < depth /\ anc k j = Some a /\ a ∈ array.
Proof.
  induction depth as [|depth IH]; intros array j.
  - simpl. split; [by intros ?%elem_of_nil|]. intros (k & _ & ? & _). lia.
  - cbn [preorder]. rewrite list_elem_of_bind. split.
    + intros (a & [->|Hj]%elem_of_cons & Ha).
      * exists 0, a. split; [lia|done].
      * apply IH in Hj as (k & c & Hk & Hc & Hin).
        exists (S k), a. split; [lia|]. split; [|done].
        apply anc_top. exists c. split; [done|]. by apply kids_spec.
    + intros ([|k] & a & Hk & Ha & Hin).
      * injection Ha as ->. exists a. split; [|done]. apply elem_of_cons. by left.
      * apply anc_top in Ha as (c & Hc & Hpar).
        exists a. split; [|done]. apply elem_of_cons. right.
        apply IH. exists k, c. split; [lia|]. split; [done|]. by apply kids_spec.
Qed.

Lemma reach_root j : j < n -> exists k a, anc k j = Some a /\ a ∈ roots.
Proof.
  induction j as [j IH] using lt_wf_ind. intros Hj.
  destruct (par j) as [p|] eqn:Hp.
  - pose proof (par_lt _ _ Hp) as Hlt.
    destruct (IH p Hlt) as (k & a & Ha & Hin); [lia|].
    exists (S k), a. split; [|done]. simpl. by rewrite Hp.
  - exists 0, j. split; [done|]. by apply roots_spec.
Qed.

Lemma roots_range a : a ∈ roots -> a < n.
Proof. by intros [? _]%roots_spec. Qed.

Lemma anc_source_range k j a : anc k j = Some a -> a < n -> j < n.
Proof.
  destruct k as [|k]; simpl.
  - by intros [= ->].
  - destruct (par j) as [p|] eqn:Hp; [|done]. intros _ _. by eapply par_range.
Qed.

(** With room for every level, the walk from the roots meets exactly the
    nodes of the store. *)
Lemma preorder_all_elem j : j ∈ preorder (S n) roots <-> j < n.
Proof.
  rewrite preorder_elem. split.
  - intros (k & a & _ & Ha & Hin%roots_range). by eapply anc_source_range.
  - intros Hj. destruct (reach_root j Hj) as (k & a & Ha & Hin).
    exists k, a. split; [|done].
    pose proof (anc_lev _ _ _ Ha). pose proof (lev_le j). lia.
Qed.

Lemma preorder_NoDup depth : forall array,
  NoDup array -> (forall x y, x ∈ array -> y ∈ array -> lev x = lev y) ->
  NoDup (preorder depth array).
Proof.
  induction depth as [|depth IH]; intros array Hnd Hlev; [constructor|].
  cbn [preorder]. apply NoDup_bind; [| |done].
  - intros x1 x2 y Hx1 Hx2 Hy1 Hy2.
    assert (Hup : forall x, y ∈ x :: preorder depth (kids x) ->
                            exists k, anc k y = Some x).
    { intros x [->|Hy]%elem_of_cons; [by exists 0|].
      apply preorder_elem in Hy as (k & c & _ & Hc & Hin%kids_spec).
      exists (S k). apply anc_top. eauto. }
    destruct (Hup _ Hy1) as [k1 H1]. destruct (Hup _ Hy2) as [k2 H2].
    pose proof (anc_lev _ _ _ H1). pose proof (anc_lev _ _ _ H2).
    pose proof (Hlev _ _ Hx1 Hx2).
    assert (k1 = k2) as -> by lia. congruence.
  - intros x _. apply NoDup_cons. split.
    + intros (k & c & _ & Hc & Hin%kids_spec)%preorder_elem.
      pose proof (anc_lev _ _ _ Hc). pose proof (lev_child _ _ Hin). lia.
    + apply IH; [apply kids_NoDup|].
      intros a b Ha%kids_spec Hb%kids_spec.
      by rewrite (lev_child _ _ Ha), (lev_child _ _ Hb).
Qed.

Lemma preorder_all : preorder (S n) roots ≡ₚ seq 0 n.
Proof.
  apply NoDup_Permutation.
  - apply preorder_NoDup; [apply roots_NoDup|].
    intros x y [_ Hx]%roots_spec [_ Hy]%roots_spec.
    by rewrite (lev_root _ Hx), (lev_root _ Hy).
  - apply NoDup_seq.
  - intros j. rewrite preorder_all_elem, elem_of_seq. lia.
Qed.

(** *** [forEachNode] calls the callback along the walk *)

Section Callback.
Context {X : Type}.
Variable fn : nat -> list TreeNode * X -> list TreeNode * X.
Hypothesis fn_Shaped : forall node s, Shaped (fst s) -> Shaped (fst (fn node s)).

Lemma foldl_Shaped (l : list nat) : forall s,
  Shaped (fst s) -> Shaped (fst (foldl (fun s node => fn node s) s l)).
Proof. induction l as [|a l IH]; intros s Hs; [done|]. simpl. by apply IH, fn_Shaped. Qed.

Lemma forEachNode_preorder depth : forall array s,
  Shaped (fst s) -> (forall x, x ∈ array -> x < n) ->
  forEachNode depth array fn s = foldl (fun s node => fn node s) s (preorder depth array).
Proof.
  induction depth as [|depth IH]; intros array s Hs Hrange; [done|].
  cbn [forEachNode preorder].
  revert s Hs. induction array as [|a array IHa]; intros s Hs; [done|].
  rewrite bind_cons. cbn [foldl app]. rewrite foldl_app.
  assert (Ha : a < n) by (apply Hrange, elem_of_cons; by left).
  pose proof (fn_Shaped a s Hs) as Hs1.
  destruct Hs1 as [Hlen Hnode].
  destruct (lookup_lt_is_Some_2 (fst (fn a s)) a) as [nd Hnd]; [lia|].
  rewrite Hnd. destruct (Hnode a nd Hnd) as [Hkids _]. rewrite Hkids.
  assert (Hstep : (if decide (0 < length (kids a))
                   then forEachNode depth (kids a) fn (fn a s) else fn a s) =
                  foldl (fun s node => fn node s) (fn a s) (preorder depth (kids a))).
  { case_decide as Hk.
    - apply IH; [by split|]. intros x. apply kids_range.
    - destruct (kids a); [|simpl in Hk; lia]. by rewrite preorder_nil. }
  rewrite Hstep. apply IHa.
  - intros x Hx. apply Hrange, elem_of_cons. by right.
  - apply foldl_Shaped. by split.
Qed.

End Callback.


(** *** The visible rows *)

Lemma flattenVisibleNodes_app depth store : forall array result,
  flattenVisibleNodes depth store array result =
  result ++ flattenVisibleNodes depth store array [].
Proof.
  induction depth as [|depth IH]; intros array result; [by rewrite app_nil_r|].
  cbn [flattenVisibleNodes].
  revert result. induction array as [|a array IHa]; intros result;
    [by rewrite app_nil_r|].
  cbn [foldl]. rewrite IHa. symmetry. rewrite IHa. symmetry.
  rewrite app_assoc. f_equal.
  destruct (store !! a) as [nd|]; [|done].
  destruct (expanded nd && _); [|done].
  rewrite IH. rewrite (IH (children nd) ([] ++ [a])). by rewrite app_assoc.
Qed.

Lemma flattenVisibleNodes_cons depth store a array :
  flattenVisibleNodes (S depth) store (a :: array) [] =
  a :: match store !! a with
       | Some nd =>
           if expanded nd && bool_decide (0 < length (children nd))
           then flattenVisibleNodes depth store (children nd) []
           else []
       | None => []
       end ++ flattenVisibleNodes (S depth) store array [].
Proof.
  cbn [flattenVisibleNodes foldl].
  change (foldl _ ?r array) with (flattenVisibleNodes (S depth) store array r).
  rewrite flattenVisibleNodes_app. rewrite app_nil_l.
  destruct (store !! a) as [nd|]; [|done].
  destruct (expanded nd && _); [|done].
  by rewrite (flattenVisibleNodes_app depth store (children nd) [a]).
Qed.

Lemma flattenVisibleNodes_nil depth store : flattenVisibleNodes depth store [] [] = [].
Proof. by destruct depth. Qed.

(** Every parent expanded: the visible rows are the whole walk. *)
Lemma flattenVisibleNodes_expanded store :
  Shaped store ->
  (forall j nd, store !! j = Some nd -> kids j <> [] -> expanded nd = true) ->
  forall depth array, (forall x, x ∈ array -> x < n) ->
  flattenVisibleNodes depth store array [] = preorder depth array.
Proof.
  intros [Hlen Hnode] Hexp. induction depth as [|depth IH]; intros array Hrange; [done|].
  induction array as [|a array IHa]; [done|].
  rewrite flattenVisibleNodes_cons. cbn [preorder]. rewrite bind_cons.
  cbn [app]. f_equal. f_equal.
  - assert (Ha : a < n) by (apply Hrange, elem_of_cons; by left).
    destruct (lookup_lt_is_Some_2 store a) as [nd Hnd]; [lia|].
    rewrite Hnd. destruct (Hnode a nd Hnd) as [Hkids _]. rewrite Hkids.
    destruct (kids a) as [|c l] eqn:Hk.
    + rewrite andb_false_r. by rewrite preorder_nil.
    + rewrite (Hexp a nd Hnd) by by rewrite Hk.
      rewrite bool_decide_eq_true_2 by (simpl; lia). simpl.
      rewrite <- Hk. apply IH. intros x. apply kids_range.
  - apply IHa. intros x Hx. apply Hrange, elem_of_cons. by right.
Qed.

(** The visible rows are rows of the walk, in its order. *)
Lemma flattenVisibleNodes_sublist store :
  Shaped store ->
  forall depth array, (forall x, x ∈ array -> x < n) ->
  flattenVisibleNodes depth store array [] `sublist_of` preorder depth array.
Proof.
  intros [Hlen Hnode]. induction depth as [|depth IH]; intros array Hrange; [done|].
  induction array as [|a array IHa]; [done|].
  rewrite flattenVisibleNodes_cons. cbn [preorder]. rewrite bind_cons. cbn [app].
  apply sublist_skip, sublist_app.
  - assert (Ha : a < n) by (apply Hrange, elem_of_cons; by left).
    destruct (lookup_lt_is_Some_2 store a) as [nd Hnd]; [lia|].
    rewrite Hnd. destruct (Hnode a nd Hnd) as [Hk _].
    destruct (expanded nd && _); [|apply sublist_nil_l].
    rewrite Hk. apply IH. intros x. apply kids_range.
  - apply IHa. intros x Hx. apply Hrange, elem_of_cons. by right.
Qed.

Lemma flattenVisibleNodes_NoDup store :
  Shaped store -> NoDup (flattenVisibleNodes (S n) store roots []).
Proof.
  intros Hs.
  assert (Hnd : NoDup (preorder (S n) roots)) by (rewrite preorder_all; apply NoDup_seq).
  eapply sublist_NoDup; [exact Hnd|].
  apply flattenVisibleNodes_sublist; [done|]. intros x. apply roots_range.
Qed.

Lemma flattenVisibleNodes_range store x :
  Shaped store -> x ∈ flattenVisibleNodes (S n) store roots [] -> x < n.
Proof.
  intros Hs Hx. apply preorder_all_elem.
  eapply elem_of_sublist; [done|].
  apply flattenVisibleNodes_sublist; [done|]. intros y. apply roots_range.
Qed.

Definition expandedAt (store : list TreeNode) (j : nat) : Prop :=
  exists nd, store !! j = Some nd /\ expanded nd = true.

(** A node is visible when the nodes above it are expanded. *)
Lemma flattenVisibleNodes_elem store :
  Shaped store ->
  forall depth k j a array,
    k < depth -> anc k j = Some a -> a ∈ array ->
    (forall i b, 1 <= i <= k -> anc i j = Some b -> expandedAt store b) ->
    j ∈ flattenVisibleNodes depth store array [].
Proof.
  intros [Hlen Hnode]. induction depth as [|depth IH]; intros k j a array Hk Ha Hin Hexp;
    [lia|].
  induction array as [|x array IHa]; [by apply elem_of_nil in Hin|].
  rewrite flattenVisibleNodes_cons.
  apply elem_of_cons in Hin as [<-|Hin].
  2:{ apply elem_of_cons. right. apply elem_of_app. right. by apply IHa. }
  destruct k as [|k].
  { injection Ha as ->. apply elem_of_cons. by left. }
  apply elem_of_cons. right. apply elem_of_app. left.
  pose proof Ha as Htop. apply anc_top in Htop as (c & Hc & Hpar).
  destruct (Hexp (S k) a) as (nd & Hnd & Hx); [lia|done|].
  rewrite Hnd, Hx. destruct (Hnode a nd Hnd) as [Hkids _]. rewrite Hkids.
  assert (Hcin : c ∈ kids a) by by apply kids_spec.
  rewrite bool_decide_eq_true_2.
  2:{ destruct (kids a); [by apply elem_of_nil in Hcin|simpl; lia]. }
  simpl. apply (IH k j c); [lia|done|done|].
  intros i b Hi. apply Hexp. lia.
Qed.

(** *** Expanding *)

Definition expandsOnly (store store' : list TreeNode) : Prop :=
  (set_expanded false <$> store') = (set_expanded false <$> store) /\
  forall j, expandedAt store j -> expandedAt store' j.

Lemma expandsOnly_refl store : expandsOnly store store.
Proof. by split. Qed.

Lemma expandsOnly_trans s1 s2 s3 :
  expandsOnly s1 s2 -> expandsOnly s2 s3 -> expandsOnly s1 s3.
Proof. intros [H1 H1'] [H2 H2']. split; [congruence|auto]. Qed.

Lemma set_expanded_alter v (node : nat) (store : list TreeNode) :
  (set_expanded false <$> alter (set_expanded v) node store) =
  (set_expanded false <$> store).
Proof.
  apply list_eq. intros i. rewrite !list_lookup_fmap.
  destruct (decide (i = node)) as [->|Hne].
  - rewrite list_lookup_alter_eq. by destruct (store !! node).
  - by rewrite list_lookup_alter_ne.
Qed.

Lemma expandsOnly_alter (node : nat) (store : list TreeNode) :
  expandsOnly store (alter (set_expanded true) node store).
Proof.
  split; [apply set_expanded_alter|].
  intros j (nd & Hnd & Hx). destruct (decide (j = node)) as [->|Hne].
  - exists (set_expanded true nd). by rewrite list_lookup_alter_eq, Hnd.
  - exists nd. by rewrite list_lookup_alter_ne.
Qed.

Lemma expandedAt_alter (node : nat) (store : list TreeNode) :
  node < length store -> expandedAt (alter (set_expanded true) node store) node.
Proof.
  intros [nd Hnd]%lookup_lt_is_Some_2.
  exists (set_expanded true nd). by rewrite list_lookup_alter_eq, Hnd.
Qed.

Lemma sameNodes_Shaped store store' :
  (set_expanded false <$> store') = (set_expanded false <$> store) ->
  Shaped store -> Shaped store'.
Proof.
  intros Heq [Hlen Hnode]. split.
  - rewrite <- Hlen. rewrite <- (length_fmap (set_expanded false) store'), Heq.
    apply length_fmap.
  - intros j nd Hnd.
    assert (Hj : (set_expanded false <$> store) !! j = Some (set_expanded false nd))
      by by rewrite <- Heq, list_lookup_fmap, Hnd.
    rewrite list_lookup_fmap in Hj.
    destruct (store !! j) as [nd0|] eqn:Hnd0; [|done].
    injection Hj as _ _ _ _ _ Hc Hp' _. destruct (Hnode j nd0 Hnd0) as [Hk Hp].
    split; congruence.
Qed.

Lemma expandParent_expandsOnly node s : expandsOnly (fst s) (fst (expandParent node s)).
Proof.
  unfold expandParent. destruct (fst s !! node) as [nd|]; [|apply expandsOnly_refl].
  case_decide; [apply expandsOnly_alter|apply expandsOnly_refl].
Qed.

Lemma foldl_expandParent l : forall s,
  Shaped (fst s) ->
  let s' := foldl (fun s node => expandParent node s) s l in
  expandsOnly (fst s) (fst s') /\
  forall j, j ∈ l -> j < n -> kids j <> [] -> expandedAt (fst s') j.
Proof.
  induction l as [|a l IH]; intros s Hs; simpl.
  - split; [apply expandsOnly_refl|]. by intros j ?%elem_of_nil.
  - pose proof (expandParent_expandsOnly a s) as Hstep.
    assert (Hs1 : Shaped (fst (expandParent a s)))
      by (eapply sameNodes_Shaped; [apply Hstep|done]).
    destruct (IH _ Hs1) as [Hrest Hdone]. split.
    + by eapply expandsOnly_trans.
    + intros j [->|Hj]%elem_of_cons Hrange Hk; [|by apply Hdone].
      apply Hrest. destruct Hs as [Hlen Hnode].
      unfold expandParent.
      destruct (lookup_lt_is_Some_2 (fst s) a) as [nd Hnd]; [lia|].
      rewrite Hnd. destruct (Hnode a nd Hnd) as [Hkids _].
      rewrite decide_True.
      * apply expandedAt_alter. lia.
      * rewrite Hkids. destruct (kids a); [done|simpl; lia].
Qed.

(** The loop of [expandPathToNode] expands every node above the
    target. *)
Lemma expandPathLoop_spec fuel : forall j s,
  Shaped (fst s) -> j < n -> lev j <= fuel ->
  let s' := expandPathLoop fuel (par j) s in
  expandsOnly (fst s) (fst s') /\
  forall i b, 1 <= i -> anc i j = Some b -> expandedAt (fst s') b.
Proof.
  assert (Hroot : forall fuel' j s, par j = None ->
            let s' := expandPathLoop fuel' (par j) s in
            expandsOnly (fst s) (fst s') /\
            forall i b, 1 <= i -> anc i j = Some b -> expandedAt (fst s') b).
  { intros fuel' j s Hp. rewrite Hp. replace (expandPathLoop fuel' None s) with s
      by by destruct fuel'.
    split; [apply expandsOnly_refl|]. intros [|i] b Hi; [lia|]. simpl. by rewrite Hp. }
  induction fuel as [|fuel IH]; intros j s Hs Hj Hfuel;
    (destruct (par j) as [p|] eqn:Hp; [|rewrite <- Hp; by apply Hroot]).
  { pose proof (lev_child _ _ Hp). lia. }
  cbn [expandPathLoop].
  pose proof (par_lt _ _ Hp) as Hlt. pose proof (lev_child _ _ Hp) as Hlev.
  pose proof Hs as [Hlen Hnode].
  destruct (lookup_lt_is_Some_2 (fst s) p) as [nd Hnd]; [lia|].
  rewrite Hnd. destruct (Hnode p nd Hnd) as [_ Hpar]. rewrite Hpar.
  set (s1 := if negb (expanded nd) then _ else s).
  assert (Hstep : expandsOnly (fst s) (fst s1) /\ expandedAt (fst s1) p).
  { unfold s1. destruct (expanded nd) eqn:Hx; simpl.
    - split; [apply expandsOnly_refl|]. by exists nd.
    - split; [apply expandsOnly_alter|]. apply expandedAt_alter. lia. }
  destruct Hstep as [Hstep Hat].
  assert (Hs1 : Shaped (fst s1)) by (eapply sameNodes_Shaped; [apply Hstep|done]).
  destruct (IH p s1 Hs1) as [Hrest Hdone]; [lia|lia|].
  split; [by eapply expandsOnly_trans|].
  intros [|[|i]] b Hi; [lia| |].
  - simpl. rewrite Hp. simpl. intros [= <-]. by apply Hrest.
  - change (anc (S (S i)) j) with (par j ≫= anc (S i)). rewrite Hp.
    apply (Hdone (S i)). lia.
Qed.

End Forest.

(** ** Callbacks that only change what is expanded *)

Section SameNodes.
Import TreeOperations.
Context {X : Type}.
Variable fn : nat -> list TreeNode * X -> list TreeNode * X.
Hypothesis fn_sameNodes : forall node s,
  (set_expanded false <$> fst (fn node s)) = (set_expanded false <$> fst s).

Lemma forEachNode_sameNodes depth : forall array s,
  (set_expanded false <$> fst (forEachNode depth array fn s)) =
  (set_expanded false <$> fst s).
Proof.
  induction depth as [|depth IH]; intros array s; [done|].
  cbn [forEachNode]. revert s. induction array as [|a array IHa]; intros s; [done|].
  cbn [foldl]. rewrite IHa.
  destruct (fst (fn a s) !! a) as [nd|]; [|apply fn_sameNodes].
  case_decide; [|apply fn_sameNodes]. by rewrite IH.
Qed.

End SameNodes.

Section Collapse.
Import TreeOperations.

Definition collapsedAt (store : list TreeNode) (j : nat) : Prop :=
  forall nd, store !! j = Some nd -> expanded nd = false.

Lemma collapseNode_keeps node s j :
  collapsedAt (fst s) j -> collapsedAt (fst (collapseNode node s)) j.
Proof.
  unfold collapseNode. destruct (fst s !! node) as [nd|] eqn:Hnd; [|done].
  intros Hj nd'. cbn [fst]. destruct (decide (j = node)) as [->|Hne].
  - rewrite list_lookup_alter_eq, Hnd. by intros [= <-].
  - rewrite list_lookup_alter_ne by done. apply Hj.
Qed.

Lemma collapseNode_collapses node s : collapsedAt (fst (collapseNode node s)) node.
Proof.
  unfold collapseNode. destruct (fst s !! node) as [nd|] eqn:Hnd.
  - intros nd'. cbn [fst]. rewrite list_lookup_alter_eq, Hnd. by intros [= <-].
  - intros nd'. by rewrite Hnd.
Qed.

Lemma forEachNode_collapse depth : forall array s,
  (forall j, collapsedAt (fst s) j ->
             collapsedAt (fst (forEachNode depth array collapseNode s)) j) /\
  (0 < depth -> forall j, j ∈ array ->
             collapsedAt (fst (forEachNode depth array collapseNode s)) j).
Proof.
  induction depth as [|depth IH]; intros array s.
  { split; [done|lia]. }
  cbn [forEachNode]. revert s. induction array as [|a array IHa]; intros s.
  { split; [done|]. by intros _ j ?%elem_of_nil. }
  cbn [foldl].
  set (s1 := match fst (collapseNode a s) !! a with
             | Some nd => if decide (0 < length (children nd))
                          then forEachNode depth (children nd) collapseNode
                                           (collapseNode a s)
                          else collapseNode a s
             | None => collapseNode a s
             end).
  assert (Hkeep : forall j, collapsedAt (fst (collapseNode a s)) j ->
                            collapsedAt (fst s1) j).
  { intros j Hj. unfold s1. destruct (fst (collapseNode a s) !! a) as [nd|]; [|done].
    case_decide; [|done].
    destruct (IH (children nd) (collapseNode a s)) as [Hk _]. by apply Hk. }
  destruct (IHa s1) as [Hrest Hall]. split.
  - intros j Hj. by apply Hrest, Hkeep, collapseNode_keeps.
  - intros _ j [->|Hj]%elem_of_cons.
    + apply Hrest, Hkeep, collapseNode_collapses.
    + apply Hall; [lia|done].
Qed.

Lemma flattenVisibleNodes_collapsed depth store array :
  (forall j, j ∈ array -> collapsedAt store j) ->
  flattenVisibleNodes (S depth) store array [] = array.
Proof.
  induction array as [|a array IH]; intros Hall; [done|].
  rewrite flattenVisibleNodes_cons. f_equal.
  rewrite IH by (intros j Hj; apply Hall, elem_of_cons; by right).
  destruct (store !! a) as [nd|] eqn:Hnd; [|done].
  assert (Ha : a ∈ a :: array) by (apply elem_of_cons; by left).
  by rewrite (Hall a Ha nd Hnd).
Qed.

Lemma collapseNode_sameNodes node s :
  (set_expanded false <$> fst (collapseNode node s)) = (set_expanded false <$> fst s).
Proof.
  unfold collapseNode. destruct (fst s !! node); [|done]. apply set_expanded_alter.
Qed.

End Collapse.

(** ** The tree of a component list *)

Lemma sameNodes_lookup (store store' : list TreeNode) j nd :
  (set_expanded false <$> store') = (set_expanded false <$> store) ->
  store' !! j = Some nd ->
  exists nd0, store !! j = Some nd0 /\ set_expanded false nd = set_expanded false nd0.
Proof.
  intros Heq Hnd.
  assert (Hj : (set_expanded false <$> store) !! j = Some (set_expanded false nd))
    by by rewrite <- Heq, list_lookup_fmap, Hnd.
  rewrite list_lookup_fmap in Hj.
  destruct (store !! j) as [nd0|]; [|done].
  exists nd0. split; [done|]. simpl in Hj. congruence.
Qed.

(** The second loop of [buildHierarchy] writes the links and the level
    of a node and nothing else. *)
Lemma linkNode_field {B} (f : TreeNode -> B) doc nodeMap acc comp :
  (forall p l nd, f (set_parent_level p l nd) = f nd) ->
  (forall c nd, f (set_children c nd) = f nd) ->
  (f <$> nodes (ComponentTreeView.linkNode doc nodeMap acc comp)) = (f <$> nodes acc).
Proof.
  intros Hp Hc.
  unfold ComponentTreeView.linkNode. destruct (nodeMap !! element comp) as [node|]; [|done].
  destruct (_ ≫= _) as [parentNode|]; [|done]. cbn [nodes].
  apply list_eq. intros i. rewrite !list_lookup_fmap.
  destruct (decide (i = parentNode)) as [->|Hi].
  - rewrite list_lookup_alter_eq.
    destruct (decide (parentNode = node)) as [->|Hn].
    + rewrite list_lookup_alter_eq. destruct (nodes acc !! node); [|done].
      simpl. by rewrite Hc, Hp.
    + rewrite list_lookup_alter_ne by done. destruct (nodes acc !! parentNode); [|done].
      simpl. by rewrite Hc.
  - rewrite list_lookup_alter_ne by done.
    destruct (decide (i = node)) as [->|Hn].
    + rewrite list_lookup_alter_eq. destruct (nodes acc !! node); [|done].
      simpl. by rewrite Hp.
    + by rewrite list_lookup_alter_ne.
Qed.

Lemma foldl_linkNode_field {B} (f : TreeNode -> B) doc nodeMap (l : list ComponentInfo) :
  (forall p l nd, f (set_parent_level p l nd) = f nd) ->
  (forall c nd, f (set_children c nd) = f nd) ->
  forall acc,
    (f <$> nodes (foldl (ComponentTreeView.linkNode doc nodeMap) acc l)) = (f <$> nodes acc).
Proof.
  intros Hp Hc. induction l as [|c l IH]; intros acc; [done|].
  simpl. by rewrite IH, linkNode_field.
Qed.

Section BuiltTree.
Import ComponentTreeView TreeOperations.

Variable doc : Document.
Variable components : list ComponentInfo.
Hypothesis components_NoDup : NoDup (element <$> components).
Hypothesis components_parentsFirst : parentsFirst doc components.

(** The links the builder makes, as [IsForest] has them. *)
Definition linkedNodes : list TreeNode :=
  nodes (foldl (linkNode doc (createNodeMap components))
               (mkTree (createNodes components) []) components).

Definition sortedChildren (j : nat) : list nat :=
  sort (byDOMOrder linkedNodes) (childRefs doc components j).

Definition sortedRoots : list nat :=
  sort (byDOMOrder linkedNodes) (rootRefs doc components).

Lemma built_forest :
  IsForest (length components) (parentRef doc components) sortedChildren sortedRoots
           (levelOf linkedNodes).
Proof.
  pose proof (LinkInv_linked doc components components_NoDup components_parentsFirst)
    as Hinv.
  split.
  - intros c p (cc & _ & Hc & _)%parentRef_Some. by eapply lookup_lt_Some.
  - intros c p. by apply parentRef_lt.
  - intros c p. by apply (levelOf_child doc components _ Hinv).
  - intros c Hc. unfold levelOf, linkedNodes.
    destruct (nodes _ !! c) as [nd|] eqn:Hnd; [|done].
    rewrite (inv_level _ _ _ _ Hinv c nd Hnd), (inv_parent _ _ _ _ Hinv c nd Hnd).
    pose proof (lookup_lt_Some _ _ _ Hnd) as Hlt.
    rewrite (inv_length _ _ _ _ Hinv) in Hlt.
    rewrite decide_True by done. by rewrite Hc.
  - intros j c. unfold sortedChildren. rewrite sort_Permutation.
    symmetry. apply parentRef_childRefs.
  - intros j. unfold sortedChildren. rewrite sort_Permutation.
    apply NoDup_filter, NoDup_seq.
  - intros c. unfold sortedRoots. rewrite sort_Permutation. unfold rootRefs.
    rewrite list_elem_of_filter, elem_of_seq. split; [intros [? ?]|intros [? ?]]; split;
      try done; lia.
  - unfold sortedRoots. rewrite sort_Permutation. apply NoDup_filter, NoDup_seq.
Qed.

(** What every node of the tree carries. *)
Definition nodeFacts (store : list TreeNode) : Prop :=
  forall j nd, store !! j = Some nd ->
    id nd = ("node-" +:+ pretty j)%string /\
    exists c, components !! j = Some c /\ node_element nd = element c.

Lemma built_tree :
  exists store,
    buildHierarchy doc components = mkTree store sortedRoots /\
    Shaped (length components) (parentRef doc components) sortedChildren store /\
    nodeFacts store.
Proof.
  pose proof (LinkInv_linked doc components components_NoDup components_parentsFirst)
    as Hinv.
  unfold buildHierarchy.
  destruct (linked_sort doc components components_parentsFirst _ Hinv)
    as (store & -> & Hsi & Hsorted).
  exists store. split; [done|]. split; [split|].
  - apply (si_length _ _ _ _ Hsi).
  - intros j nd Hnd. split; [by apply Hsorted|].
    destruct (si_node _ _ _ _ Hsi j nd Hnd) as (nd0 & Hnd0 & Heq & _).
    rewrite <- (linked_parentRef doc components _ Hinv j nd0 Hnd0), Heq. done.
  - intros j nd Hnd.
    destruct (si_node _ _ _ _ Hsi j nd Hnd) as (nd0 & Hnd0 & Heq & _).
    pose proof (lookup_lt_Some _ _ _ Hnd0) as Hj.
    rewrite (inv_length _ _ _ _ Hinv) in Hj.
    destruct (lookup_lt_is_Some_2 components j Hj) as [c Hc]. split.
    + assert (Hid : (id <$> createNodes components) !! j = Some (id nd0)).
      { pose proof (foldl_linkNode_field id doc (createNodeMap components) components
                      ltac:(done) ltac:(done) (mkTree (createNodes components) []))
          as Hids.
        cbn [nodes] in Hids. rewrite <- Hids.
        by rewrite list_lookup_fmap, Hnd0. }
      unfold createNodes in Hid. rewrite list_lookup_fmap, list_lookup_imap, Hc in Hid.
      simpl in Hid. injection Hid as Hid. rewrite Heq. simpl. done.
    + exists c. split; [done|].
      rewrite Heq. simpl. by apply (inv_element _ _ _ _ Hinv j nd0 c).
Qed.

(** The builder leaves every node collapsed. *)
Lemma built_tree_collapsed j :
  collapsedAt (nodes (buildHierarchy doc components)) j.
Proof.
  pose proof (LinkInv_linked doc components components_NoDup components_parentsFirst)
    as Hinv.
  unfold buildHierarchy.
  destruct (linked_sort doc components components_parentsFirst _ Hinv)
    as (store & -> & Hsi & _).
  intros nd Hnd. cbn [nodes] in Hnd.
  destruct (si_node _ _ _ _ Hsi j nd Hnd) as (nd0 & Hnd0 & Heq & _).
  pose proof (lookup_lt_Some _ _ _ Hnd0) as Hj.
  rewrite (inv_length _ _ _ _ Hinv) in Hj.
  destruct (lookup_lt_is_Some_2 components j Hj) as [c Hc].
  pose proof (foldl_linkNode_field expanded doc (createNodeMap components) components
                ltac:(done) ltac:(done) (mkTree (createNodes components) [])) as Hex.
  cbn [nodes] in Hex.
  assert (Hx : (expanded <$> createNodes components) !! j = Some (expanded nd0))
    by by rewrite <- Hex, list_lookup_fmap, Hnd0.
  unfold createNodes in Hx. rewrite list_lookup_fmap, list_lookup_imap, Hc in Hx.
  simpl in Hx. injection Hx as Hx. rewrite Heq. simpl. done.
Qed.

(** The panel holds the tree of [components], whatever is expanded. *)
Definition showsTree (v : View) : Prop :=
  exists t, treeData v = Some t /\ sameTree t (buildHierarchy doc components).

Lemma showsTree_facts v :
  showsTree v ->
  exists t, treeData v = Some t /\ rootNodes t = sortedRoots /\
    Shaped (length components) (parentRef doc components) sortedChildren (nodes t) /\
    nodeFacts (nodes t).
Proof.
  intros (t & Ht & Hroots & Hnodes).
  destruct built_tree as (store & Hb & Hshaped & Hfacts).
  rewrite Hb in Hroots, Hnodes. cbn [rootNodes nodes] in Hroots, Hnodes.
  exists t. split; [done|]. split; [done|]. split.
  - by eapply sameNodes_Shaped.
  - intros j nd Hnd.
    destruct (sameNodes_lookup _ _ _ _ Hnodes Hnd) as (nd0 & Hnd0 & Heq).
    destruct (Hfacts j nd0 Hnd0) as (Hid & c & Hc & Hel).
    injection Heq as Hi He _ _ _ _ _ _. split; [congruence|].
    exists c. split; [done|congruence].
Qed.

Lemma showsTree_setTree v t store expandedNodes :
  treeData v = Some t -> sameTree t (buildHierarchy doc components) ->
  (set_expanded false <$> store) = (set_expanded false <$> nodes t) ->
  showsTree (setTree store (rootNodes t) expandedNodes v).
Proof.
  intros Ht [Hroots Hnodes] Heq. eexists. split; [done|].
  split; [done|]. cbn [nodes]. congruence.
Qed.

End BuiltTree.

(** ** The panel's operations on the tree of a component list *)

Section TreeTheorems.
Import ComponentTreeView TreeOperations.

Lemma expandParent_Shaped n par kids node (s : list TreeNode * gset string) :
  Shaped n par kids (fst s) -> Shaped n par kids (fst (expandParent node s)).
Proof. apply sameNodes_Shaped, expandParent_expandsOnly. Qed.

Lemma getAllComponents_NoDup doc :
  NoDup (element <$> DevtoolsSystem.getAllComponents doc).
Proof. apply sorted_NoDup, getAllComponents_sorted. Qed.

Lemma getAllComponents_parentsFirst doc :
  parentsFirst doc (DevtoolsSystem.getAllComponents doc).
Proof. apply sorted_parentsFirst, getAllComponents_sorted. Qed.

(** The first build shows the tree of the components discovered. *)
Lemma buildTreeData_showsTree doc :
  showsTree doc (DevtoolsSystem.getAllComponents doc) (buildTreeData doc initialView).
Proof. eexists. split; [done|]. by split. Qed.

(** X18: on the tree of a component list, [expandAll] leaves every node
    among the visible rows, each exactly once, and the panel still holds
    the same tree. *)
Theorem expandAll_shows_every_node (doc : Document) (components : list ComponentInfo)
  (v : View) :
  NoDup (element <$> components) ->
  parentsFirst doc components ->
  showsTree doc components v ->
  visibleNodes (expandAll v) ≡ₚ seq 0 (length components) /\
  showsTree doc components (expandAll v).
Proof.
  intros Hnd Hpf Hv.
  destruct (showsTree_facts doc components Hnd Hpf v Hv)
    as (t & Ht & Hroots & Hshaped & _).
  destruct Hv as (t' & Ht' & Hsame). assert (t' = t) as -> by congruence.
  pose proof (built_forest doc components Hnd Hpf) as Hforest.
  pose proof Hshaped as [Hlen _].
  unfold expandAll, visibleNodes. rewrite Ht.
  rewrite (forEachNode_preorder _ _ _ _ _ Hforest expandParent
             (expandParent_Shaped _ _ _));
    [|done|intros x; rewrite Hroots; by eapply roots_range].
  rewrite Hlen, Hroots.
  destruct (foldl_expandParent _ _ _ (preorder (sortedChildren doc components)
              (S (length components)) (sortedRoots doc components))
              (nodes t, expandedNodes v) Hshaped) as [[Hnodes _] Hall].
  destruct (foldl _ _ _) as [store expandedNodes'].
  cbn [fst] in Hnodes, Hall. cbn [setTree treeData nodes rootNodes].
  assert (Hshaped' : Shaped (length components) (parentRef doc components)
                            (sortedChildren doc components) store)
    by by eapply sameNodes_Shaped.
  split.
  - pose proof Hshaped' as [Hlen' _]. rewrite Hlen'.
    rewrite (flattenVisibleNodes_expanded _ _ _ _ _ Hforest store).
    + by eapply preorder_all.
    + done.
    + intros j nd Hj Hk.
      pose proof (lookup_lt_Some _ _ _ Hj) as Hlt.
      destruct (Hall j) as (nd' & Hnd' & Hx); [|lia|done|congruence].
      eapply preorder_all_elem; [done|lia].
    + intros x. by eapply roots_range.
  - rewrite <- Hroots. by eapply showsTree_setTree.
Qed.

Lemma expandAll_shows_every_node_witness :
  visibleNodes (expandAll (buildTreeData exampleDocument initialView)) ≡ₚ
    seq 0 (length (DevtoolsSystem.getAllComponents exampleDocument)) /\
  showsTree exampleDocument (DevtoolsSystem.getAllComponents exampleDocument)
            (expandAll (buildTreeData exampleDocument initialView)).
Proof.
  apply (expandAll_shows_every_node exampleDocument
           (DevtoolsSystem.getAllComponents exampleDocument)).
  - apply (bool_decide_unpack _); by vm_compute.
  - apply getAllComponents_parentsFirst.
  - apply buildTreeData_showsTree.
Defined.


(** X19: after [collapseAll] the visible rows are the root nodes and
    nothing else, for any tree the panel may hold; the nodes and their
    links are as before. *)
Theorem collapseAll_shows_roots (v : View) :
  visibleNodes (collapseAll v) = from_option rootNodes [] (treeData v) /\
  (forall t, treeData v = Some t ->
     exists t', treeData (collapseAll v) = Some t' /\ sameTree t' t).
Proof.
  unfold collapseAll, visibleNodes. destruct (treeData v) as [t|] eqn:Ht.
  2:{ rewrite Ht. split; [done|]. by intros t. }
  pose proof (forEachNode_collapse (S (length (nodes t))) (rootNodes t)
                (nodes t, expandedNodes v)) as [_ Hall].
  pose proof (forEachNode_sameNodes collapseNode collapseNode_sameNodes
                (S (length (nodes t))) (rootNodes t) (nodes t, expandedNodes v))
    as Hsame.
  destruct (forEachNode _ _ _ _) as [store expandedNodes'].
  cbn [fst] in Hall, Hsame. cbn [setTree treeData nodes rootNodes from_option]. split.
  - apply flattenVisibleNodes_collapsed. intros j Hj. apply Hall; [lia|done].
  - intros t0 [= <-]. eexists. split; [done|]. by split.
Qed.

Lemma findBy_store m node s : fst (findBy m node s) = fst s.
Proof.
  unfold findBy. destruct (fst s !! node) as [nd|]; [|done]. by destruct (m nd).
Qed.

Lemma findBy_Shaped n par kids m node (s : list TreeNode * option nat) :
  Shaped n par kids (fst s) -> Shaped n par kids (fst (findBy m node s)).
Proof. by rewrite findBy_store. Qed.

(** The node the search returns, when at most one node of the walk
    matches. *)
Lemma foldl_findBy m (store : list TreeNode) (l : list nat) :
  let M j := exists nd, store !! j = Some nd /\ m nd = true in
  (forall a b, M a -> M b -> a = b) ->
  forall found j,
    snd (foldl (fun s node => findBy m node s) (store, found) l) = Some j <->
    (j ∈ l /\ M j) \/ (found = Some j /\ forall k, k ∈ l -> ~ M k).
Proof.
  intros M Huniq. induction l as [|a l IH]; intros found j.
  - simpl. split; [intros ->; right; split; [done|]; by intros k ?%elem_of_nil|].
    intros [[?%elem_of_nil _]|[-> _]]; done.
  - cbn [foldl]. unfold findBy at 2. cbn [fst].
    destruct (store !! a) as [nd|] eqn:Hnd; [destruct (m nd) eqn:Hm|].
    + assert (Ma : M a) by (exists nd; by split).
      rewrite IH. split.
      * intros [[Hj HM]|[[= <-] _]]; left; (split; [|done]).
        -- apply elem_of_cons. by right.
        -- apply elem_of_cons. by left.
      * intros [[Hj HM]|[_ Hno]].
        -- assert (j = a) as -> by by apply Huniq.
           destruct (decide (a ∈ l)) as [Hin|Hnin]; [left; by split|].
           right. split; [done|]. intros k Hk Mk.
           apply Hnin. by rewrite <- (Huniq k a).
        -- exfalso. apply (Hno a); [apply elem_of_cons; by left|done].
    + assert (Ma : ~ M a) by (intros (nd' & Hnd' & Hm'); congruence).
      rewrite IH. split.
      * intros [[Hj HM]|[-> Hno]]; [left|right]; split; try done.
        -- apply elem_of_cons. by right.
        -- intros k [->|Hk]%elem_of_cons; [done|by apply Hno].
      * intros [[[->|Hj]%elem_of_cons HM]|[-> Hno]]; [done|left; by split|right].
        split; [done|]. intros k Hk. apply Hno, elem_of_cons. by right.
    + assert (Ma : ~ M a) by (intros (nd' & Hnd' & Hm'); congruence).
      rewrite IH. split.
      * intros [[Hj HM]|[-> Hno]]; [left|right]; split; try done.
        -- apply elem_of_cons. by right.
        -- intros k [->|Hk]%elem_of_cons; [done|by apply Hno].
      * intros [[[->|Hj]%elem_of_cons HM]|[-> Hno]]; [done|left; by split|right].
        split; [done|]. intros k Hk. apply Hno, elem_of_cons. by right.
Qed.

(** The search of [findNodeById] and [findNodeByElement] on the tree of a
    component list. *)
Lemma findBy_spec doc components t m j :
  NoDup (element <$> components) ->
  parentsFirst doc components ->
  rootNodes t = sortedRoots doc components ->
  Shaped (length components) (parentRef doc components)
         (sortedChildren doc components) (nodes t) ->
  (forall a b nda ndb, nodes t !! a = Some nda -> nodes t !! b = Some ndb ->
                       m nda = true -> m ndb = true -> a = b) ->
  snd (forEachNode (S (length (nodes t))) (rootNodes t) (findBy m) (nodes t, None))
    = Some j <->
  exists nd, nodes t !! j = Some nd /\ m nd = true.
Proof.
  intros Hnd Hpf Hroots Hshaped Huniq.
  pose proof (built_forest doc components Hnd Hpf) as Hforest.
  pose proof Hshaped as [Hlen _].
  rewrite (forEachNode_preorder _ _ _ _ _ Hforest (findBy m) (findBy_Shaped _ _ _ m));
    [|done|intros x; rewrite Hroots; by eapply roots_range].
  rewrite Hlen, Hroots. rewrite foldl_findBy.
  2:{ intros a b (nda & Ha & Hma) (ndb & Hb & Hmb). by eapply Huniq. }
  split.
  - by intros [[_ HM]|[? _]].
  - intros (nd & Hj & Hm). left. split; [|by exists nd].
    eapply preorder_all_elem; [done|]. rewrite <- Hlen. by eapply lookup_lt_Some.
Qed.

(** X20: on the tree of a component list, [findNodeById] and
    [findNodeByElement] find exactly the node made for a component: node
    [j] under the id node-j and under the element of component [j], and
    nothing under any other id or element. *)
Theorem nodes_found_by_id_and_element (doc : Document)
  (components : list ComponentInfo) (v : View) (j : nat) :
  NoDup (element <$> components) ->
  parentsFirst doc components ->
  showsTree doc components v ->
  (forall nodeId, findNodeById nodeId v = Some j <->
     j < length components /\ nodeId = ("node-" +:+ pretty j)%string) /\
  (forall e, findNodeByElement e v = Some j <->
     exists c, components !! j = Some c /\ element c = e).
Proof.
  intros Hnd Hpf Hv.
  destruct (showsTree_facts doc components Hnd Hpf v Hv)
    as (t & Ht & Hroots & Hshaped & Hfacts).
  pose proof Hshaped as [Hlen _].
  unfold findNodeById, findNodeByElement. rewrite Ht. split.
  - intros nodeId. rewrite (findBy_spec doc components t _ j Hnd Hpf Hroots Hshaped).
    + split.
      * intros (nd & Hj & Heq%String.eqb_eq). split.
        -- rewrite <- Hlen. by eapply lookup_lt_Some.
        -- destruct (Hfacts j nd Hj) as [Hid _]. congruence.
      * intros [Hj ->]. destruct (lookup_lt_is_Some_2 (nodes t) j) as [nd Hnode]; [lia|].
        exists nd. split; [done|]. apply String.eqb_eq. by apply Hfacts.
    + intros a b nda ndb Ha Hb Hma%String.eqb_eq Hmb%String.eqb_eq.
      destruct (Hfacts a nda Ha) as [Hida _]. destruct (Hfacts b ndb Hb) as [Hidb _].
      apply (inj pretty). apply (String.app_inj "node-"). congruence.
  - intros e. rewrite (findBy_spec doc components t _ j Hnd Hpf Hroots Hshaped).
    + split.
      * intros (nd & Hj & Heq%bool_decide_eq_true).
        destruct (Hfacts j nd Hj) as (_ & c & Hc & Hel). exists c. split; congruence.
      * intros (c & Hc & He).
        destruct (lookup_lt_is_Some_2 (nodes t) j) as [nd Hnode].
        { rewrite Hlen. by eapply lookup_lt_Some. }
        exists nd. split; [done|]. apply bool_decide_eq_true.
        destruct (Hfacts j nd Hnode) as (_ & c' & Hc' & Hel). congruence.
    + intros a b nda ndb Ha Hb Hma%bool_decide_eq_true Hmb%bool_decide_eq_true.
      destruct (Hfacts a nda Ha) as (_ & ca & Hca & Hela).
      destruct (Hfacts b ndb Hb) as (_ & cb & Hcb & Helb).
      apply (NoDup_lookup (element <$> components) a b (element ca)); [done| |].
      * by rewrite list_lookup_fmap, Hca.
      * rewrite list_lookup_fmap, Hcb. simpl. congruence.
Qed.

Lemma nodes_found_by_id_and_element_witness :
  (forall nodeId,
     findNodeById nodeId (buildTreeData exampleDocument initialView) = Some 3 <->
     3 < length (DevtoolsSystem.getAllComponents exampleDocument) /\
     nodeId = ("node-" +:+ pretty 3)%string) /\
  (forall e,
     findNodeByElement e (buildTreeData exampleDocument initialView) = Some 3 <->
     exists c, DevtoolsSystem.getAllComponents exampleDocument !! 3 = Some c /\
               element c = e).
Proof.
  apply (nodes_found_by_id_and_element exampleDocument
           (DevtoolsSystem.getAllComponents exampleDocument)).
  - apply (bool_decide_unpack _); by vm_compute.
  - apply getAllComponents_parentsFirst.
  - apply buildTreeData_showsTree.
Defined.


Lemma flattenVisibleNodes_mono store store' :
  expandsOnly store store' ->
  forall depth array x,
    x ∈ flattenVisibleNodes depth store array [] ->
    x ∈ flattenVisibleNodes depth store' array [].
Proof.
  intros [Hnodes Hexp]. induction depth as [|depth IH]; intros array x; [done|].
  induction array as [|a array IHa]; [done|].
  rewrite !flattenVisibleNodes_cons.
  intros [->|[Hx|Hx]%elem_of_app]%elem_of_cons; apply elem_of_cons; [by left| |].
  - right. apply elem_of_app. left.
    destruct (store !! a) as [nd|] eqn:Hnd; [|by apply elem_of_nil in Hx].
    destruct (expanded nd) eqn:Hex; [|by apply elem_of_nil in Hx].
    destruct (Hexp a) as (nd' & Hnd' & Hex'); [by exists nd|].
    destruct (sameNodes_lookup _ _ _ _ Hnodes Hnd') as (nd0 & Hnd0 & Heq).
    assert (nd0 = nd) as -> by congruence.
    injection Heq as _ _ _ _ _ Hc _ _.
    rewrite Hnd', Hex', Hc. simpl in *.
    destruct (bool_decide (0 < length (children nd))); [|by apply elem_of_nil in Hx].
    by apply IH.
  - right. apply elem_of_app. right. by apply IHa.
Qed.

(** X21: [expandPathToNode] makes its node one of the visible rows,
    whatever was collapsed above it; every row visible before stays
    visible, and the panel still holds the same tree. *)
Theorem expandPathToNode_reveals_node (doc : Document)
  (components : list ComponentInfo) (v : View) (targetNode : nat) :
  NoDup (element <$> components) ->
  parentsFirst doc components ->
  showsTree doc components v ->
  targetNode < length components ->
  targetNode ∈ visibleNodes (expandPathToNode targetNode v) /\
  (forall x, x ∈ visibleNodes v -> x ∈ visibleNodes (expandPathToNode targetNode v)) /\
  showsTree doc components (expandPathToNode targetNode v).
Proof.
  intros Hnd Hpf Hv Hj.
  destruct (showsTree_facts doc components Hnd Hpf v Hv)
    as (t & Ht & Hroots & Hshaped & _).
  destruct Hv as (t' & Ht' & Hsame). assert (t' = t) as -> by congruence.
  pose proof (built_forest doc components Hnd Hpf) as Hforest.
  pose proof Hshaped as [Hlen Hnode].
  unfold expandPathToNode, visibleNodes. rewrite Ht.
  destruct (lookup_lt_is_Some_2 (nodes t) targetNode) as [target Htarget]; [lia|].
  rewrite Htarget. destruct (Hnode _ _ Htarget) as [_ ->].
  destruct (expandPathLoop_spec _ _ _ _ _ Hforest (length (nodes t)) targetNode
              (nodes t, expandedNodes v) Hshaped Hj) as [Honly Hup].
  { pose proof (lev_le _ _ _ _ _ Hforest targetNode). lia. }
  destruct (expandPathLoop _ _ _) as [store expandedNodes'].
  cbn [fst] in Honly, Hup. cbn [setTree treeData nodes rootNodes].
  assert (Hshaped' : Shaped (length components) (parentRef doc components)
                            (sortedChildren doc components) store)
    by (eapply sameNodes_Shaped; [apply Honly|done]).
  pose proof Hshaped' as [Hlen' _]. split_and!.
  - destruct (reach_root _ _ _ _ _ Hforest targetNode Hj) as (k & a & Ha & Hin).
    rewrite Hroots.
    eapply (flattenVisibleNodes_elem _ _ _ _ _ Hforest store Hshaped' _ k); [|done|done|].
    + pose proof (anc_lev _ _ _ _ _ Hforest _ _ _ Ha).
      pose proof (lev_le _ _ _ _ _ Hforest targetNode). lia.
    + intros i b [Hi _]. by apply Hup.
  - intros x. rewrite Hlen, Hlen'. by apply flattenVisibleNodes_mono.
  - eapply showsTree_setTree; [done|done|apply Honly].
Qed.

Lemma expandPathToNode_reveals_node_witness :
  let v := buildTreeData exampleDocument initialView in
  2 ∈ visibleNodes (expandPathToNode 2 v) /\
  (forall x, x ∈ visibleNodes v -> x ∈ visibleNodes (expandPathToNode 2 v)) /\
  showsTree exampleDocument (DevtoolsSystem.getAllComponents exampleDocument)
            (expandPathToNode 2 v).
Proof.
  apply (expandPathToNode_reveals_node exampleDocument
           (DevtoolsSystem.getAllComponents exampleDocument)).
  - apply (bool_decide_unpack _); by vm_compute.
  - apply getAllComponents_parentsFirst.
  - apply buildTreeData_showsTree.
  - vm_compute. lia.
Defined.

(** On the fresh tree of [exampleDocument] only the roots A and E are
    visible; the path to C expands A and B. *)
Example expandPathToNode_example :
  let v := buildTreeData exampleDocument initialView in
  visibleNodes v = [0; 4] /\
  visibleNodes (expandPathToNode 2 v) = [0; 1; 2; 3; 4].
Proof. by vm_compute. Qed.

Lemma restoreExpanded_sameNodes wasExpanded node s :
  (set_expanded false <$> fst (restoreExpanded wasExpanded node s)) =
  (set_expanded false <$> fst s).
Proof.
  unfold restoreExpanded. destruct (fst s !! node) as [nd|]; [|done].
  destruct (bool_decide _); [apply set_expanded_alter|done].
Qed.

(** X22: [refreshTreeIfNeeded] never replaces a tree the panel holds.
    It stores the new fingerprint before it calls [refreshTree], so the
    build inside finds the fingerprint unchanged and keeps the tree it
    has: the nodes and their links are those of before, whatever the
    document has become, and on a visible panel the fingerprint
    remembered is the one of the present document. *)
Theorem refreshTreeIfNeeded_keeps_tree (doc : Document) (isVisible : bool)
  (v : View) (t : Tree) :
  treeData v = Some t ->
  (exists t', treeData (refreshTreeIfNeeded doc isVisible v) = Some t' /\
              sameTree t' t) /\
  (isVisible = true ->
   lastComponentsHash (refreshTreeIfNeeded doc isVisible v) =
     Some (generateComponentsHash (DevtoolsSystem.getAllComponents doc))).
Proof.
  intros Ht. unfold refreshTreeIfNeeded.
  destruct isVisible; simpl; [|split; [exists t; by split|done]].
  case_bool_decide as Hhash.
  2:{ split; [exists t; by split|]. by intros _. }
  unfold refreshTree. cbn [negb].
  set (v1 := mkView _ _ _ _ _).
  assert (Hbuild : buildTreeData doc v1 = v1).
  { unfold buildTreeData. cbn [lastComponentsHash treeData v1].
    rewrite bool_decide_eq_true_2 by done.
    rewrite bool_decide_eq_true_2 by (rewrite Ht; eauto). done. }
  cbv zeta. rewrite Hbuild. cbn [treeData expandedNodes selectedNodeId v1]. rewrite Ht.
  pose proof (forEachNode_sameNodes (restoreExpanded (expandedNodes v))
                (restoreExpanded_sameNodes _)
                (S (length (nodes t))) (rootNodes t) (nodes t, expandedNodes v))
    as Hsame.
  destruct (forEachNode _ _ _ _) as [store expandedNodes'].
  cbn [fst] in Hsame.
  destruct (selectedNodeId v) as [selected|];
    [destruct (truthy _ && _)|];
    (split; [eexists; split; [done|by split]|done]).
Qed.

Lemma refreshTreeIfNeeded_keeps_tree_witness :
  let v := buildTreeData exampleDocument initialView in
  let t := buildHierarchy exampleDocument
             (DevtoolsSystem.getAllComponents exampleDocument) in
  (exists t', treeData (refreshTreeIfNeeded chainDocument true v) = Some t' /\
              sameTree t' t) /\
  (true = true ->
   lastComponentsHash (refreshTreeIfNeeded chainDocument true v) =
     Some (generateComponentsHash (DevtoolsSystem.getAllComponents chainDocument))).
Proof.
  apply (refreshTreeIfNeeded_keeps_tree chainDocument true
           (buildTreeData exampleDocument initialView)).
  reflexivity.
Defined.


Lemma foldl_expandParent_other (l : list nat) j : forall s,
  j ∉ l -> fst (foldl (fun s node => expandParent node s) s l) !! j = fst s !! j.
Proof.
  induction l as [|a l IH]; intros s Hj; [done|].
  apply not_elem_of_cons in Hj as [Hne Hj]. cbn [foldl]. rewrite IH by done.
  unfold expandParent. destruct (fst s !! a) as [nd|]; [|done].
  case_decide; [|done]. cbn [fst]. by rewrite list_lookup_alter_ne.
Qed.

(** X23: when the panel is shown for the first time ([buildTreeData],
    then [initializeTreeState]) the visible rows are the top-level
    components, each followed by its child components: two levels of the
    tree, and nothing below. *)
Theorem panel_opens_with_two_levels (doc : Document) :
  let t := buildHierarchy doc (DevtoolsSystem.getAllComponents doc) in
  visibleNodes (initializeTreeState (buildTreeData doc initialView)) =
  rootNodes t ≫= fun r => r :: from_option children [] (nodes t !! r).
Proof.
  set (components := DevtoolsSystem.getAllComponents doc).
  pose proof (getAllComponents_NoDup doc) as Hnd.
  pose proof (getAllComponents_parentsFirst doc) as Hpf.
  pose proof (built_forest doc components Hnd Hpf) as Hforest.
  pose proof (built_tree_collapsed doc components Hnd Hpf) as Hcollapsed.
  destruct (built_tree doc components Hnd Hpf) as (store & Hb & Hshaped & _).
  assert (Htree : treeData (buildTreeData doc initialView) =
                  Some (mkTree store (sortedRoots doc components)))
    by by rewrite <- Hb.
  cbv zeta. fold components. rewrite Hb in *. cbn [nodes rootNodes] in *.
  unfold initializeTreeState, visibleNodes. rewrite Htree. cbn [nodes rootNodes].
  case_decide as Hroots.
  2:{ rewrite Htree. cbn [nodes rootNodes].
      destruct (sortedRoots doc components); [done|simpl in Hroots; lia]. }
  destruct (foldl_expandParent _ _ _ (sortedRoots doc components)
              (store, expandedNodes (buildTreeData doc initialView)) Hshaped)
    as [[Hnodes _] Hall].
  pose proof (fun j => foldl_expandParent_other (sortedRoots doc components) j
                (store, expandedNodes (buildTreeData doc initialView))) as Hother.
  destruct (foldl _ _ _) as [store1 expandedNodes']. cbn [fst] in *.
  cbn [setTree treeData nodes rootNodes].
  assert (Hshaped1 : Shaped (length components) (parentRef doc components)
                            (sortedChildren doc components) store1)
    by by eapply sameNodes_Shaped.
  destruct Hshaped as [Hlen Hnode]. destruct Hshaped1 as [Hlen1 Hnode1].
  assert (Hpos : exists d, length store1 = S d).
  { destruct (sortedRoots doc components) as [|r l] eqn:Hr; [simpl in Hroots; lia|].
    assert (r < length components)
      by (eapply roots_range; [done|]; apply elem_of_cons; by left).
    exists (length store1 - 1). lia. }
  destruct Hpos as [d ->].
  assert (Hrows : forall l, (forall r, r ∈ l -> r ∈ sortedRoots doc components) ->
            flattenVisibleNodes (S (S d)) store1 l [] =
            l ≫= fun r => r :: from_option children [] (store !! r)).
  { induction l as [|r l IH]; intros Hin; [done|].
    rewrite flattenVisibleNodes_cons, bind_cons.
    rewrite IH by (intros x Hx; apply Hin, elem_of_cons; by right).
    cbn [app]. f_equal. f_equal.
    assert (Hr : r ∈ sortedRoots doc components) by (apply Hin, elem_of_cons; by left).
    assert (Hrange : r < length components) by by eapply roots_range.
    destruct (lookup_lt_is_Some_2 store r) as [nd Hndr]; [lia|].
    destruct (lookup_lt_is_Some_2 store1 r) as [nd1 Hnd1]; [lia|].
    rewrite Hndr, Hnd1. cbn [from_option].
    destruct (Hnode r nd Hndr) as [Hk _]. destruct (Hnode1 r nd1 Hnd1) as [Hk1 _].
    rewrite Hk, Hk1.
    destruct (sortedChildren doc components r) as [|c kids] eqn:Hkids.
    { by rewrite andb_false_r. }
    destruct (Hall r Hr Hrange) as (nd' & Hnd' & Hx); [by rewrite Hkids|].
    assert (nd' = nd1) as -> by congruence.
    rewrite Hx, bool_decide_eq_true_2 by (simpl; lia). cbn [andb].
    rewrite <- Hkids. apply flattenVisibleNodes_collapsed.
    intros j Hj nd2 Hnd2.
    assert (Hpar : parentRef doc components j = Some r) by by eapply kids_spec.
    rewrite Hother in Hnd2.
    - by apply (Hcollapsed j nd2).
    - intros [_ Hnone]%(roots_spec _ _ _ _ _ Hforest). congruence. }
  by apply Hrows.
Qed.

End TreeTheorems.

(** ** Keys in the tree panel *)

(** What [handleTreeKeyDown] does with a key: the method it ends in, with
    the node it passes. *)
Inductive TreeKeyAction :=
| SelectNode (node : nat)
| ToggleNodeExpansion (node : nat)
| ActivateSelectedNode
| ClearSelection
| HidePanel
| NoAction.

Module TreeKeys.
Import ComponentTreeView TreeOperations.

(** [array.findIndex(p)]: the first index, or -1. *)
Fixpoint findIndex {A} (p : A -> bool) (l : list A) : Z :=
  match l with
  | [] => -1
  | x :: rest =>
      if p x then 0
      else let r := findIndex p rest in
           if (r <? 0)%Z then -1 else r + 1
  end%Z.

(** [visibleNodes[k]] for an integer [k]: [undefined] out of range. *)
Definition visibleNodeAt (visibleNodes : list nat) (k : Z) : option nat :=
  if (k <? 0)%Z then None else visibleNodes !! Z.to_nat k.

(** [selectNode(node)] returns at once for [undefined]. *)
Definition selectNode (node : option nat) : TreeKeyAction :=
  match node with
  | Some node => SelectNode node
  | None => NoAction
  end.

Definition navigateUp (visibleNodes : list nat) (currentIndex : Z) : TreeKeyAction :=
  if (0 <? currentIndex)%Z then selectNode (visibleNodeAt visibleNodes (currentIndex - 1))
  else if decide (0 < length visibleNodes)
       then selectNode (visibleNodeAt visibleNodes (Z.of_nat (length visibleNodes) - 1))
       else NoAction.

Definition navigateDown (visibleNodes : list nat) (currentIndex : Z) : TreeKeyAction :=
  if (currentIndex <? Z.of_nat (length visibleNodes) - 1)%Z
  then selectNode (visibleNodeAt visibleNodes (currentIndex + 1))
  else if decide (0 < length visibleNodes)
       then selectNode (visibleNodeAt visibleNodes 0)
       else NoAction.

(** [navigateLeft] and [navigateRight] read the node at [currentIndex],
    which [findIndex] found among the visible nodes. *)
Definition navigateLeft (store : list TreeNode) (visibleNodes : list nat)
  (currentIndex : Z) : TreeKeyAction :=
  if (currentIndex =? -1)%Z then NoAction
  else
    match visibleNodeAt visibleNodes currentIndex with
    | Some currentNode =>
        match store !! currentNode with
        | Some n =>
            if expanded n && bool_decide (0 < length (children n))
            then ToggleNodeExpansion currentNode
            else match parent n with
                 | Some p => SelectNode p
                 | None => NoAction
                 end
        | None => NoAction
        end
    | None => NoAction
    end.

Definition navigateRight (store : list TreeNode) (visibleNodes : list nat)
  (currentIndex : Z) : TreeKeyAction :=
  if (currentIndex =? -1)%Z then NoAction
  else
    match visibleNodeAt visibleNodes currentIndex with
    | Some currentNode =>
        match store !! currentNode with
        | Some n =>
            if decide (0 < length (children n)) then
              if negb (expanded n) then ToggleNodeExpansion currentNode
              else selectNode (children n !! 0)
            else NoAction
        | None => NoAction
        end
    | None => NoAction
    end.

Definition hasId (store : list TreeNode) (nodeId : string) (node : nat) : bool :=
  match store !! node with
  | Some n => String.eqb (id n) nodeId
  | None => false
  end.

(** [handleTreeKeyDown(event)] for [event.key]. *)
Definition handleTreeKeyDown (key : string) (v : View) : TreeKeyAction :=
  let visible := visibleNodes v in
  if decide (length visible = 0) then NoAction
  else
    let store := from_option nodes [] (treeData v) in
    let currentIndex :=
      match selectedNodeId v with
      | Some selected =>
          if truthy (selectedNodeId v) then findIndex (hasId store selected) visible
          else (-1)%Z
      | None => (-1)%Z
      end in
    if String.eqb key "ArrowUp" then navigateUp visible currentIndex
    else if String.eqb key "ArrowDown" then navigateDown visible currentIndex
    else if String.eqb key "ArrowLeft" then navigateLeft store visible currentIndex
    else if String.eqb key "ArrowRight" then navigateRight store visible currentIndex
    else if String.eqb key "Enter" || String.eqb key " " then ActivateSelectedNode
    else if String.eqb key "Escape"
         then if truthy (selectedNodeId v) then ClearSelection else HidePanel
    else if String.eqb key "Home" then selectNode (visibleNodeAt visible 0)
    else if String.eqb key "End"
         then selectNode (visibleNodeAt visible (Z.of_nat (length visible) - 1))
    else if String.eqb key "c" || String.eqb key "C" then ClearSelection
    else if String.eqb key "Delete" || String.eqb key "Backspace" then ClearSelection
    else NoAction.

End TreeKeys.

Section TreeKeyTheorems.
Import ComponentTreeView TreeOperations TreeKeys.

Lemma findIndex_at {A} (p : A -> bool) (l : list A) : forall i x,
  NoDup l -> l !! i = Some x -> p x = true ->
  (forall z, z ∈ l -> p z = true -> z = x) ->
  findIndex p l = Z.of_nat i.
Proof.
  induction l as [|a l IH]; intros i x Hnd Hi Hp Huniq; [done|].
  apply NoDup_cons in Hnd as [Ha Hnd]. cbn [findIndex].
  destruct i as [|i].
  - injection Hi as ->. by rewrite Hp.
  - simpl in Hi.
    destruct (p a) eqn:Hpa.
    { exfalso. apply Ha. rewrite (Huniq a); [by eapply list_elem_of_lookup_2| |done].
      apply elem_of_cons. by left. }
    rewrite (IH i x Hnd Hi Hp).
    + destruct (Z.ltb_spec (Z.of_nat i) 0); lia.
    + intros z Hz. apply Huniq, elem_of_cons. by right.
Qed.

Lemma navigateDown_at (visible : list nat) i :
  i < length visible ->
  navigateDown visible (Z.of_nat i) = selectNode (visible !! ((i + 1) mod length visible)).
Proof.
  intros Hi. unfold navigateDown, visibleNodeAt.
  destruct (Z.ltb_spec (Z.of_nat i) (Z.of_nat (length visible) - 1)).
  - destruct (Z.ltb_spec (Z.of_nat i + 1) 0); [lia|].
    replace (Z.to_nat (Z.of_nat i + 1)) with (i + 1) by lia.
    by rewrite Nat.mod_small by lia.
  - rewrite decide_True by lia. simpl.
    replace (i + 1) with (length visible) by lia. by rewrite Nat.Div0.mod_same.
Qed.

Lemma navigateUp_at (visible : list nat) i :
  i < length visible ->
  navigateUp visible (Z.of_nat i) =
  selectNode (visible !! ((i + length visible - 1) mod length visible)).
Proof.
  intros Hi. unfold navigateUp, visibleNodeAt.
  destruct (Z.ltb_spec 0 (Z.of_nat i)).
  - destruct (Z.ltb_spec (Z.of_nat i - 1) 0); [lia|].
    replace (Z.to_nat (Z.of_nat i - 1)) with (i - 1) by lia.
    replace (i + length visible - 1) with (i - 1 + 1 * length visible) by lia.
    by rewrite Nat.Div0.mod_add, Nat.mod_small by lia.
  - rewrite decide_True by lia.
    destruct (Z.ltb_spec (Z.of_nat (length visible) - 1) 0); [lia|].
    replace (Z.to_nat (Z.of_nat (length visible) - 1)) with (length visible - 1) by lia.
    assert (i = 0) as -> by lia.
    by rewrite Nat.add_0_l, Nat.mod_small by lia.
Qed.

(** The arrow keys on a panel whose selected row is row [i]. *)
Lemma arrows_from_row doc components v i x :
  NoDup (element <$> components) ->
  parentsFirst doc components ->
  showsTree doc components v ->
  visibleNodes v !! i = Some x ->
  selectedNodeId v = Some ("node-" +:+ pretty x)%string ->
  handleTreeKeyDown "ArrowDown" v =
    selectNode (visibleNodes v !! ((i + 1) mod length (visibleNodes v))) /\
  handleTreeKeyDown "ArrowUp" v =
    selectNode (visibleNodes v !! ((i + length (visibleNodes v) - 1)
                                   mod length (visibleNodes v))).
Proof.
  intros Hnd Hpf Hv Hi Hsel.
  destruct (showsTree_facts doc components Hnd Hpf v Hv)
    as (t & Ht & Hroots & Hshaped & Hfacts).
  pose proof (built_forest doc components Hnd Hpf) as Hforest.
  pose proof Hshaped as [Hlen _].
  pose proof (lookup_lt_Some _ _ _ Hi) as Hlt.
  assert (Hvis : visibleNodes v =
                 flattenVisibleNodes (S (length components)) (nodes t)
                                     (sortedRoots doc components) [])
    by (unfold visibleNodes; by rewrite Ht, Hlen, Hroots).
  assert (Hindex : findIndex (hasId (nodes t) ("node-" +:+ pretty x)) (visibleNodes v)
                   = Z.of_nat i).
  { assert (Hid : forall z, z ∈ visibleNodes v ->
                    hasId (nodes t) ("node-" +:+ pretty x) z = true <-> z = x).
    { intros z Hz. rewrite Hvis in Hz.
      apply (flattenVisibleNodes_range _ _ _ _ _ Hforest _ _ Hshaped) in Hz.
      destruct (lookup_lt_is_Some_2 (nodes t) z) as [nd Hnode]; [lia|].
      unfold hasId. rewrite Hnode. destruct (Hfacts z nd Hnode) as [-> _].
      rewrite String.eqb_eq. split; [|by intros ->].
      intros Heq. by apply (inj pretty), (String.app_inj "node-"). }
    apply (findIndex_at _ _ i x).
    - rewrite Hvis. by eapply flattenVisibleNodes_NoDup.
    - done.
    - apply Hid; [by eapply list_elem_of_lookup_2|done].
    - intros z Hz. by apply Hid. }
  assert (Htruthy : truthy (Some ("node-" +:+ pretty x)%string) = true) by done.
  unfold handleTreeKeyDown.
  destruct (decide (length (visibleNodes v) = 0)) as [Hzero|_]; [lia|].
  rewrite Hsel, Ht, Htruthy. cbn [from_option]. rewrite Hindex.
  split.
  - change (String.eqb "ArrowDown" "ArrowUp") with false.
    change (String.eqb "ArrowDown" "ArrowDown") with true. cbv iota.
    by apply navigateDown_at.
  - change (String.eqb "ArrowUp" "ArrowUp") with true. cbv iota.
    by apply navigateUp_at.
Qed.

(** X24: in the tree panel the Down and Up arrows undo each other.  With
    a visible row selected, ArrowDown selects the next visible row (the
    first after the last), and ArrowUp pressed then selects the row it
    came from; likewise ArrowUp, then ArrowDown. *)
Theorem tree_arrows_are_inverse (doc : Document) (components : list ComponentInfo)
  (v : View) (i x : nat) :
  NoDup (element <$> components) ->
  parentsFirst doc components ->
  showsTree doc components v ->
  visibleNodes v !! i = Some x ->
  selectedNodeId v = Some ("node-" +:+ pretty x)%string ->
  (exists y, handleTreeKeyDown "ArrowDown" v = SelectNode y /\
     visibleNodes v !! ((i + 1) mod length (visibleNodes v)) = Some y /\
     forall v', treeData v' = treeData v ->
       selectedNodeId v' = Some ("node-" +:+ pretty y)%string ->
       handleTreeKeyDown "ArrowUp" v' = SelectNode x) /\
  (exists y, handleTreeKeyDown "ArrowUp" v = SelectNode y /\
     visibleNodes v !! ((i + length (visibleNodes v) - 1)
                        mod length (visibleNodes v)) = Some y /\
     forall v', treeData v' = treeData v ->
       selectedNodeId v' = Some ("node-" +:+ pretty y)%string ->
       handleTreeKeyDown "ArrowDown" v' = SelectNode x).
Proof.
  intros Hnd Hpf Hv Hi Hsel.
  destruct (arrows_from_row doc components v i x Hnd Hpf Hv Hi Hsel) as [Hdown Hup].
  pose proof (lookup_lt_Some _ _ _ Hi) as Hlt.
  assert (Hsame : forall v', treeData v' = treeData v ->
            showsTree doc components v' /\ visibleNodes v' = visibleNodes v).
  { intros v' Htree. split.
    - destruct Hv as (t & Ht & Hs). exists t. split; [congruence|done].
    - unfold visibleNodes. by rewrite Htree. }
  split.
  - destruct (lookup_lt_is_Some_2 (visibleNodes v)
                ((i + 1) mod length (visibleNodes v))) as [y Hy].
    { apply Nat.mod_upper_bound. lia. }
    exists y. rewrite Hdown, Hy. split; [done|]. split; [done|].
    intros v' Htree Hsel'. destruct (Hsame v' Htree) as [Hv' Hvis].
    rewrite <- Hvis in Hy.
    destruct (arrows_from_row doc components v' _ y Hnd Hpf Hv' Hy Hsel') as [_ ->].
    rewrite Hvis, mod_succ_pred by done. by rewrite Hi.
  - destruct (lookup_lt_is_Some_2 (visibleNodes v)
                ((i + length (visibleNodes v) - 1) mod length (visibleNodes v)))
      as [y Hy].
    { apply Nat.mod_upper_bound. lia. }
    exists y. rewrite Hup, Hy. split; [done|]. split; [done|].
    intros v' Htree Hsel'. destruct (Hsame v' Htree) as [Hv' Hvis].
    rewrite <- Hvis in Hy.
    destruct (arrows_from_row doc components v' _ y Hnd Hpf Hv' Hy Hsel') as [-> _].
    rewrite Hvis, mod_pred_succ by done. by rewrite Hi.
Qed.

Lemma tree_arrows_are_inverse_witness :
  let v0 := buildTreeData exampleDocument initialView in
  let v := mkView (treeData v0) (expandedNodes v0) (Some "node-4"%string)
                  (renderCache v0) (lastComponentsHash v0) in
  (exists y, handleTreeKeyDown "ArrowDown" v = SelectNode y /\
     visibleNodes v !! ((1 + 1) mod length (visibleNodes v)) = Some y /\
     forall v', treeData v' = treeData v ->
       selectedNodeId v' = Some ("node-" +:+ pretty y)%string ->
       handleTreeKeyDown "ArrowUp" v' = SelectNode 4) /\
  (exists y, handleTreeKeyDown "ArrowUp" v = SelectNode y /\
     visibleNodes v !! ((1 + length (visibleNodes v) - 1)
                        mod length (visibleNodes v)) = Some y /\
     forall v', treeData v' = treeData v ->
       selectedNodeId v' = Some ("node-" +:+ pretty y)%string ->
       handleTreeKeyDown "ArrowDown" v' = SelectNode 4).
Proof.
  apply (tree_arrows_are_inverse exampleDocument
           (DevtoolsSystem.getAllComponents exampleDocument)).
  - apply (bool_decide_unpack _); by vm_compute.
  - apply getAllComponents_parentsFirst.
  - eexists. split; [done|]. by split.
  - by vm_compute.
  - by vm_compute.
Defined.

End TreeKeyTheorems.
